(** * Liku trust-bounded orchestration engine: a shallow embedding

    The development follows the TypeScript sources of the engine:
    the privilege / capability / skill model ([Skills]), the skill
    inheritance loader ([Loader]), the plan validator ([PlanValidator]),
    the task registry ([TaskRegistry]), the concurrency limiter
    ([Limiter]) and the orchestrator pipeline ([Orchestrator]).

    Conventions.  JavaScript strings are modelled as [string]; every
    literal the code compares against is ASCII, so substring, prefix and
    suffix tests agree with the UTF-16 originals.  JavaScript numbers
    that count things are [nat] or [Z]; a capacity or delay the caller
    hands to a constructor is any number, a [Js.JsNumber].  A [Map]
    whose iteration order
    the code relies on is an association list in insertion order
    ([Js.map_set]); a [Map] that is only looked up is a [gmap]; a
    [Set] of strings is a [gset string].  Optional record fields are
    [option]s.  Where a function changes an object it was handed, the
    model returns the object as the call leaves it. *)

From Stdlib Require Import ZArith QArith Ascii String List Relations.
From stdpp Require Import base tactics option list gmap strings sorting pretty.

Local Open Scope string_scope.
Local Open Scope Z_scope.
Local Open Scope list_scope.

Set Warnings "-register-all,-clear-no-such-hyp,-notation-for-abbreviation".

(** ** Small JavaScript string primitives *)

Module Js.

(** [s.startsWith(p)] *)
Fixpoint startsWith (s p : string) {struct p} : bool :=
  match p, s with
  | EmptyString, _ => true
  | String c p', String d s' => if decide (c = d) then startsWith s' p' else false
  | String _ _, EmptyString => false
  end.

(** [s.includes(p)] *)
Fixpoint includes (s p : string) : bool :=
  startsWith s p ||
  match s with
  | EmptyString => false
  | String _ s' => includes s' p
  end.

(** [s.endsWith(p)] *)
Fixpoint endsWith (s p : string) : bool :=
  bool_decide (s = p) ||
  match s with
  | EmptyString => false
  | String _ s' => endsWith s' p
  end.


(** [s.replace(/\\/g, "/")]: every backslash becomes a slash. *)
Fixpoint replaceBackslashes (s : string) : string :=
  match s with
  | EmptyString => EmptyString
  | String c s' =>
      String (if decide (c = "\"%char) then "/"%char else c) (replaceBackslashes s')
  end.

(** [l.indexOf(x)], with [-1] for an absent element. *)
Fixpoint indexOf {A} `{EqDecision A} (l : list A) (x : A) : Z :=
  match l with
  | [] => -1
  | y :: l' =>
      if decide (y = x) then 0
      else let i := indexOf l' x in if decide (i = -1) then -1 else i + 1
  end.

(** [a.sort(cmp)] for a consistent comparator, given as the test
    [le x y] for "[cmp(x, y) <= 0]".  The sort is stable: an element
    stays in front of the later elements it ties with. *)
Section Sort.
Context {A : Type} (le : A → A → bool).

Fixpoint insert_sorted (x : A) (l : list A) : list A :=
  match l with
  | [] => [x]
  | y :: l' => if le x y then x :: y :: l' else y :: insert_sorted x l'
  end.

Fixpoint sort (l : list A) : list A :=
  match l with
  | [] => []
  | x :: l' => insert_sorted x (sort l')
  end.
End Sort.

(** [s.trim()], for the ASCII white space characters. *)
Fixpoint trimStart (s : string) : string :=
  match s with
  | EmptyString => EmptyString
  | String c s' => if Ascii.is_space c then trimStart s' else s
  end.

Definition trim (s : string) : string :=
  String.rev (trimStart (String.rev (trimStart s))).

(** The one-character string made of a double quote. *)
Definition dquote : string := String (ascii_of_nat 34) EmptyString.

(** [l.join(sep)] on an array of strings. *)
Fixpoint join (sep : string) (l : list string) : string :=
  match l with
  | [] => EmptyString
  | [x] => x
  | x :: l' => x +:+ sep +:+ join sep l'
  end.

(** A JavaScript [Map] keeps its keys in insertion order; [set] on a
    present key replaces the value in place. *)
Section OrderedMap.
Context {V : Type}.

Fixpoint map_get (k : string) (m : list (string * V)) : option V :=
  match m with
  | [] => None
  | (k', v) :: m' => if decide (k' = k) then Some v else map_get k m'
  end.

Fixpoint map_set (k : string) (v : V) (m : list (string * V)) : list (string * V) :=
  match m with
  | [] => [(k, v)]
  | (k', v') :: m' =>
      if decide (k' = k) then (k, v) :: m' else (k', v') :: map_set k v m'
  end.

Fixpoint map_delete (k : string) (m : list (string * V)) : list (string * V) :=
  match m with
  | [] => []
  | (k', v') :: m' =>
      if decide (k' = k) then m' else (k', v') :: map_delete k m'
  end.
End OrderedMap.

(** A JavaScript number: a finite double is a rational; the other
    values are [NaN] and the two infinities.  (Negative zero compares
    as zero.) *)
Inductive JsNumber :=
  | Finite (q : Q)
  | NaN
  | PosInfinity
  | NegInfinity.

Definition of_Z (z : Z) : JsNumber := Finite (inject_Z z).

(** [a <= b] and [a < b]; a comparison with [NaN] is false. *)
Definition num_le (a b : JsNumber) : bool :=
  match a, b with
  | NaN, _ | _, NaN => false
  | Finite p, Finite q => Qle_bool p q
  | NegInfinity, _ => true
  | _, PosInfinity => true
  | _, _ => false
  end.

Definition num_lt (a b : JsNumber) : bool :=
  match a, b with
  | NaN, _ | _, NaN => false
  | Finite p, Finite q => negb (Qle_bool q p)
  | NegInfinity, NegInfinity => false
  | NegInfinity, _ => true
  | PosInfinity, _ => false
  | Finite _, PosInfinity => true
  | Finite _, NegInfinity => false
  end.

(** [a >= b] and [a > b] *)
Definition num_ge (a b : JsNumber) : bool := num_le b a.
Definition num_gt (a b : JsNumber) : bool := num_lt b a.

End Js.

Coercion Js.of_Z : Z >-> Js.JsNumber.

(** ** Privilege, capability and skill model (skills/types.ts, skills/validator.ts) *)

Module Skills.

Inductive Privilege := user | specialist | root.

Inductive Capability :=
  | read_repo | write_repo | execute_code | network_access
  | memory_write | escalate | invoke_subagent.

#[global] Instance Privilege_eq_dec : EqDecision Privilege.
Proof. solve_decision. Defined.
#[global] Instance Capability_eq_dec : EqDecision Capability.
Proof. solve_decision. Defined.

Record LikuSkill := {
  id : string;
  description : option string;
  residencePath : string;
  requiredPrivilege : Privilege;
  requires : option Capability;
  escalateIfMissing : option bool
}.

#[global] Instance LikuSkill_eq_dec : EqDecision LikuSkill.
Proof. solve_decision. Defined.

(** [byId] is a [Map]: keys in insertion order (see [Js.map_set]). *)
Record SkillsIndex := {
  skills : list LikuSkill;
  byId : list (string * LikuSkill)
}.

Definition PRIVILEGE_CAPABILITIES (p : Privilege) : list Capability :=
  match p with
  | root => [read_repo; write_repo; execute_code; network_access;
             memory_write; escalate; invoke_subagent]
  | specialist => [read_repo; write_repo; execute_code; memory_write; invoke_subagent]
  | user => [read_repo]
  end.

Definition hasCapability (privilege : Privilege) (capability : Capability) : bool :=
  bool_decide (capability ∈ PRIVILEGE_CAPABILITIES privilege).

Inductive SkillValidationResult :=
  | Allowed
  | MissingCapability (capability : Capability) (escalate_ : bool)
  | InsufficientPrivilege (required current : Privilege).

#[global] Instance SkillValidationResult_eq_dec : EqDecision SkillValidationResult.
Proof. solve_decision. Defined.

Definition privilegeOrder : list Privilege := [user; specialist; root].

Definition validateSkillExecution (skill : LikuSkill) (currentPrivilege : Privilege)
  : SkillValidationResult :=
  let currentLevel := Js.indexOf privilegeOrder currentPrivilege in
  let requiredLevel := Js.indexOf privilegeOrder (requiredPrivilege skill) in
  if decide (currentLevel < requiredLevel) then
    InsufficientPrivilege (requiredPrivilege skill) currentPrivilege
  else
    match requires skill with
    | Some cap =>
        if negb (hasCapability currentPrivilege cap) then
          MissingCapability cap (default false (escalateIfMissing skill))
        else Allowed
    | None => Allowed
    end.

Definition getResidencePrivilege (residencePath : string) : Privilege :=
  let normalized := Js.replaceBackslashes residencePath in
  if Js.includes normalized "/root" then root
  else if bool_decide (normalized = "Liku") || Js.endsWith normalized "/Liku" then root
  else if Js.includes normalized "/specialist" then specialist
  else user.

Definition getCapabilities (privilege : Privilege) : list Capability :=
  PRIVILEGE_CAPABILITIES privilege.

Record SkillValidationDetail := {
  skillId : string;
  result : SkillValidationResult
}.

Record SkillValidationReport := {
  totalSkills : nat;
  allowed : nat;
  blocked : nat;
  escalationRequired : nat;
  details : list SkillValidationDetail
}.

(** One iteration of the [for] loop of [validateSkillsIndex]. *)
Definition validateSkillsIndex_step (currentPrivilege : Privilege)
    (acc : SkillValidationReport) (skill : LikuSkill) : SkillValidationReport :=
  let r := validateSkillExecution skill currentPrivilege in
  let d := details acc ++ [{| skillId := id skill; result := r |}] in
  match r with
  | Allowed =>
      {| totalSkills := totalSkills acc; allowed := S (allowed acc);
         blocked := blocked acc; escalationRequired := escalationRequired acc;
         details := d |}
  | MissingCapability _ true =>
      {| totalSkills := totalSkills acc; allowed := allowed acc;
         blocked := blocked acc; escalationRequired := S (escalationRequired acc);
         details := d |}
  | _ =>
      {| totalSkills := totalSkills acc; allowed := allowed acc;
         blocked := S (blocked acc); escalationRequired := escalationRequired acc;
         details := d |}
  end.

Definition validateSkillsIndex (skillsIndex : SkillsIndex) (currentPrivilege : Privilege)
  : SkillValidationReport :=
  foldl (validateSkillsIndex_step currentPrivilege)
        {| totalSkills := length (skills skillsIndex); allowed := 0%nat;
           blocked := 0%nat; escalationRequired := 0%nat; details := [] |}
        (skills skillsIndex).

(** The test of the loop in [findEscalationRequired]:
    [!result.allowed && result.reason === "missing_capability" && result.escalate]. *)
Definition needs_escalation (r : SkillValidationResult) : bool :=
  match r with
  | MissingCapability _ true => true
  | _ => false
  end.

Definition findEscalationRequired (skillsIndex : SkillsIndex) (currentPrivilege : Privilege)
  : list LikuSkill :=
  List.filter (fun skill => needs_escalation (validateSkillExecution skill currentPrivilege))
              (skills skillsIndex).

(** The test of the second search in [checkForEscalation]:
    [!result.allowed && result.reason === "insufficient_privilege"]. *)
Definition lacks_privilege (r : SkillValidationResult) : bool :=
  match r with
  | InsufficientPrivilege _ _ => true
  | _ => false
  end.


(** The string value of a capability. *)
Definition capability_name (c : Capability) : string :=
  match c with
  | read_repo => "read_repo" | write_repo => "write_repo"
  | execute_code => "execute_code" | network_access => "network_access"
  | memory_write => "memory_write" | escalate => "escalate"
  | invoke_subagent => "invoke_subagent"
  end.

Definition privilege_name (p : Privilege) : string :=
  match p with user => "user" | specialist => "specialist" | root => "root" end.

(** The ordering [user < specialist < root] of the data model. *)
Inductive priv_lt : Privilege → Privilege → Prop :=
  | lt_user_specialist : priv_lt user specialist
  | lt_user_root : priv_lt user root
  | lt_specialist_root : priv_lt specialist root.




End Skills.


(** ** Orchestrator data contracts (orchestrator/types.ts, errors.ts, engine.ts) *)

Module Types.
Import Skills.

Inductive LikuErrorCode :=
  | INVALID_RESIDENCE | INVALID_REPO_ROOT | MEMORY_NOT_INITIALIZED
  | MEMORY_DEGRADED | SQLITE_INIT_FAILED | IO_ERROR | BAD_REQUEST
  | PATH_TRAVERSAL | ESCALATION_REQUIRED | INVALID_PLAN
  | CONTRACT_VIOLATION | INTERNAL.

(** Values typed [unknown] in the source: a JSON-like tree. *)
Inductive Unknown :=
  | UUndefined
  | UBool (b : bool)
  | UNum (z : Z)
  | UStr (s : string)
  | UArr (items : list Unknown)
  | UObj (fields : list (string * Unknown)).

Record PlanStep := {
  id : string;
  description : string;
  agentResidence : string;
  input : Unknown;
  dependsOn : list string;
  parallel : bool
}.

Record PlannerOutput := {
  goalSummary : string;
  steps : list PlanStep;
  constraints : list string;
  risks : list string
}.

Record EscalationInfo := {
  missingSkill : string;
  requestedAction : string;
  residence : string;
  policyRef : string;
  suggestedAlternatives : list string;
  capability : option string;
  skillDescription : option string
}.

Record PaperTrail := { todoPath : string; errorsPath : string }.

Record Prompts := { system : string; instructions : string }.

Record AgentBundle := {
  bundleResidence : string;
  bundleSkills : list LikuSkill;
  paperTrail : PaperTrail;
  prompts : Prompts
}.

Record StepError := {
  code : LikuErrorCode;
  message : string;
  details : Unknown
}.

(** The two object shapes [runStep] stores in [StepResult.output]. *)
Inductive StepOutput :=
  | OutLlm (llmResponse : string) (bundle : AgentBundle) (usage : option Z)
  | OutBundleOnly (bundle : AgentBundle).

Inductive StepStatus := success | error | skipped | escalated.

#[global] Instance StepStatus_eq_dec : EqDecision StepStatus.
Proof. solve_decision. Defined.

Record StepResult := {
  stepId : string;
  stepResidence : string;
  status : StepStatus;
  output : option StepOutput;
  stepError : option StepError;
  escalation : option EscalationInfo;
  durationMs : Z;
  stepPaperTrail : PaperTrail
}.

Inductive ResultKind := ok | partial | escalation_kind | error_kind.

#[global] Instance ResultKind_eq_dec : EqDecision ResultKind.
Proof. solve_decision. Defined.

Inductive OrchestrationResult :=
  | ResOk (summary : string) (steps : list StepResult) (finalOutput : option StepOutput)
  | ResPartial (summary : string) (steps : list StepResult)
               (partialOutput : option StepOutput) (pendingSteps : list string)
  | ResEscalation (summary : string) (steps : list StepResult)
                  (esc : option EscalationInfo)
  | ResError (code : LikuErrorCode) (message : string) (details : Unknown)
             (steps : list StepResult).

Definition kind (r : OrchestrationResult) : ResultKind :=
  match r with
  | ResOk _ _ _ => ok
  | ResPartial _ _ _ _ => partial
  | ResEscalation _ _ _ => escalation_kind
  | ResError _ _ _ _ => error_kind
  end.

Definition result_steps (r : OrchestrationResult) : list StepResult :=
  match r with
  | ResOk _ s _ | ResPartial _ s _ _ | ResEscalation _ s _ | ResError _ _ _ s => s
  end.

(** An [AbortSignal] is a reference to the controller that owns it:
    one supplied by the caller or the one the registry created. *)
Inductive AbortSignal :=
  | CallerSignal (name : string)
  | TaskSignal (taskId : string).

Record OrchestrationConfig := {
  maxConcurrency : Z;
  stepTimeoutMs : Z;
  totalTimeoutMs : Z;
  executeWithLlm : bool;
  abortOnError : bool;
  abortSignal : option AbortSignal
}.

(** [Partial<OrchestrationConfig>] *)
Record PartialConfig := {
  p_maxConcurrency : option Z;
  p_stepTimeoutMs : option Z;
  p_totalTimeoutMs : option Z;
  p_executeWithLlm : option bool;
  p_abortOnError : option bool;
  p_abortSignal : option AbortSignal
}.

(** [onEvent] is a callback; the model records whether one is installed. *)
Record OrchestrationEventOptions := {
  onEvent : bool;
  emitStepStarted : option bool;
  emitStepCompleted : option bool;
  emitEscalation : option bool;
  emitElicitation : option bool
}.

(** A caller-supplied [plan].  The field is typed [PlannerOutput], but the
    value arrives from outside; [PlanWithoutSteps] stands for an object
    whose [steps] is not an array, on which [plan.steps] use throws. *)
Inductive SuppliedPlan :=
  | PlanValue (p : PlannerOutput)
  | PlanWithoutSteps (goal : string).

Record OrchestrationInput := {
  query : string;
  startResidence : option string;
  plan : option SuppliedPlan;
  config : option PartialConfig;
  events : option OrchestrationEventOptions
}.

Inductive TaskStatus := pending | running | completed | failed | cancelled.

#[global] Instance TaskStatus_eq_dec : EqDecision TaskStatus.
Proof. solve_decision. Defined.

Record TaskState := {
  taskId : string;
  createdAt : string;
  updatedAt : string;
  taskStatus : TaskStatus;
  taskInput : OrchestrationInput;
  taskResult : option OrchestrationResult;
  currentStep : option string
}.

Inductive OrchestrationEvent :=
  | StepStartedEvent (timestamp taskId stepId agentResidence description : string)
  | StepCompletedEvent (timestamp taskId stepId agentResidence : string)
      (status : StepStatus) (durationMs : Z)
      (error : option (LikuErrorCode * string)) (escalation : option EscalationInfo)
  | EscalationEvent (timestamp taskId stepId : string) (escalation : EscalationInfo)
  | ElicitationEvent (timestamp taskId stepId question context : string)
      (choices : option (list string))
  | RunStartedEvent (timestamp taskId query startResidence : string)
  | RunCompletedEvent (timestamp taskId : string) (resultKind : ResultKind)
      (totalSteps successfulSteps : nat) (durationMs : Z).

Inductive OrchestrationEventType :=
  | step_started | step_completed | escalation_event | elicitation
  | run_started | run_completed.

#[global] Instance OrchestrationEventType_eq_dec : EqDecision OrchestrationEventType.
Proof. solve_decision. Defined.

Definition event_type (e : OrchestrationEvent) : OrchestrationEventType :=
  match e with
  | StepStartedEvent _ _ _ _ _ => step_started
  | StepCompletedEvent _ _ _ _ _ _ _ _ => step_completed
  | EscalationEvent _ _ _ _ => escalation_event
  | ElicitationEvent _ _ _ _ _ _ => elicitation
  | RunStartedEvent _ _ _ _ => run_started
  | RunCompletedEvent _ _ _ _ _ _ => run_completed
  end.

End Types.

(** ** Task registry (orchestrator/taskRegistry.ts) *)

Module TaskRegistry.
Import Js Types.

Inductive SetResultFailure := not_found | already_terminal.

Inductive SetResultOutcome :=
  | Success (wasIdempotent : bool)
  | Failure (reason : SetResultFailure).

(** The registry object: the two maps and the capacity.  An
    [AbortController] is its [aborted] flag. *)
Record Registry := {
  tasks : list (string * TaskState);
  abortControllers : list (string * bool);
  maxTasks : JsNumber
}.

Definition new_registry (maxTasks : JsNumber) : Registry :=
  {| tasks := []; abortControllers := []; maxTasks := maxTasks |}.

(** [getOldestTask]: first task with the least [createdAt]. *)
Definition getOldestTask (r : Registry) : option TaskState :=
  foldl (fun oldest kv =>
           match oldest with
           | None => Some kv.2
           | Some o => if String.ltb (createdAt kv.2) (createdAt o) then Some kv.2 else Some o
           end) None (tasks r).

(** [create]; [newId] is the value of [crypto.randomUUID()] and [now] the
    value of [isoNow()] at the call. *)
Definition create (input : OrchestrationInput) (newId now : string) (r : Registry)
  : string * Registry :=
  let r1 :=
    if num_ge (Z.of_nat (length (tasks r))) (maxTasks r) then
      match getOldestTask r with
      | Some oldest =>
          {| tasks := map_delete (taskId oldest) (tasks r);
             abortControllers := map_delete (taskId oldest) (abortControllers r);
             maxTasks := maxTasks r |}
      | None => r
      end
    else r in
  let task := {| taskId := newId; createdAt := now; updatedAt := now;
                 taskStatus := pending; taskInput := input;
                 taskResult := None; currentStep := None |} in
  (newId, {| tasks := map_set newId task (tasks r1);
             abortControllers := map_set newId false (abortControllers r1);
             maxTasks := maxTasks r1 |}).

Definition get (id : string) (r : Registry) : option TaskState :=
  map_get id (tasks r).

(** What the test in [create] keeps true of the number [n] of stored
    tasks: there is at most one, or the last one was added when the
    test [size >= maxTasks] was false. *)
Definition registry_bound (r : Registry) : Prop :=
  let n := Z.of_nat (length (tasks r)) in
  n ≤ 1 ∨ num_ge (n - 1) (maxTasks r) = false.

Definition getAbortSignal (id : string) (r : Registry) : option AbortSignal :=
  match map_get id (abortControllers r) with
  | Some _ => Some (TaskSignal id)
  | None => None
  end.

Definition with_tasks (r : Registry) (ts : list (string * TaskState)) : Registry :=
  {| tasks := ts; abortControllers := abortControllers r; maxTasks := maxTasks r |}.

Definition updateStatus (id : string) (status : TaskStatus) (step : option string)
    (now : string) (r : Registry) : bool * Registry :=
  match map_get id (tasks r) with
  | None => (false, r)
  | Some task =>
      let task' := {| taskId := taskId task; createdAt := createdAt task;
                      updatedAt := now; taskStatus := status;
                      taskInput := taskInput task; taskResult := taskResult task;
                      currentStep := match step with
                                     | Some s => Some s
                                     | None => currentStep task
                                     end |} in
      (true, with_tasks r (map_set id task' (tasks r)))
  end.

Definition isTerminal (s : TaskStatus) : bool :=
  bool_decide (s = completed) || bool_decide (s = failed) || bool_decide (s = cancelled).

Definition setResult (id : string) (result : OrchestrationResult)
    (now : string) (r : Registry) : SetResultOutcome * Registry :=
  match map_get id (tasks r) with
  | None => (Failure not_found, r)
  | Some task =>
      if isTerminal (taskStatus task) then
        match taskResult task with
        | Some _ => (Success true, r)
        | None => (Failure already_terminal, r)
        end
      else
        let task' := {| taskId := taskId task; createdAt := createdAt task;
                        updatedAt := now;
                        taskStatus := if decide (kind result = error_kind)
                                      then failed else completed;
                        taskInput := taskInput task; taskResult := Some result;
                        currentStep := currentStep task |} in
        (Success false, with_tasks r (map_set id task' (tasks r)))
  end.

Definition setResultSimple (id : string) (result : OrchestrationResult)
    (now : string) (r : Registry) : bool * Registry :=
  match setResult id result now r with
  | (Success _, r') => (true, r')
  | (Failure _, r') => (false, r')
  end.

Definition cancel (id : string) (now : string) (r : Registry) : bool * Registry :=
  match map_get id (tasks r) with
  | None => (false, r)
  | Some task =>
      if bool_decide (taskStatus task = pending) || bool_decide (taskStatus task = running)
      then
        let task' := {| taskId := taskId task; createdAt := createdAt task;
                        updatedAt := now; taskStatus := cancelled;
                        taskInput := taskInput task; taskResult := taskResult task;
                        currentStep := currentStep task |} in
        let ctrls := match map_get id (abortControllers r) with
                     | Some false => map_set id true (abortControllers r)
                     | _ => abortControllers r
                     end in
        (true, {| tasks := map_set id task' (tasks r);
                  abortControllers := ctrls; maxTasks := maxTasks r |})
      else (false, r)
  end.

(** A run of [setResult] calls on one task, in order. *)
Fixpoint setResult_seq (id : string) (calls : list (OrchestrationResult * string))
    (r : Registry) : list SetResultOutcome * Registry :=
  match calls with
  | [] => ([], r)
  | (result, now) :: rest =>
      let '(o, r1) := setResult id result now r in
      let '(os, r2) := setResult_seq id rest r1 in
      (o :: os, r2)
  end.

Definition list_tasks (status : option TaskStatus) (r : Registry) : list TaskState :=
  let all := (tasks r).*2 in
  match status with
  | Some s => filter (fun t => taskStatus t = s) all
  | None => all
  end.

Definition delete_task (id : string) (r : Registry) : bool * Registry :=
  (bool_decide (is_Some (map_get id (tasks r))),
   {| tasks := map_delete id (tasks r);
      abortControllers := map_delete id (abortControllers r);
      maxTasks := maxTasks r |}).

(** [stats]: the counters [byStatus.pending] ... [byStatus.cancelled],
    one increment per task. *)
Record ByStatus := {
  n_pending : nat;
  n_running : nat;
  n_completed : nat;
  n_failed : nat;
  n_cancelled : nat
}.

Definition bump (s : TaskStatus) (b : ByStatus) : ByStatus :=
  match s with
  | pending => {| n_pending := S (n_pending b); n_running := n_running b;
                  n_completed := n_completed b; n_failed := n_failed b;
                  n_cancelled := n_cancelled b |}
  | running => {| n_pending := n_pending b; n_running := S (n_running b);
                  n_completed := n_completed b; n_failed := n_failed b;
                  n_cancelled := n_cancelled b |}
  | completed => {| n_pending := n_pending b; n_running := n_running b;
                    n_completed := S (n_completed b); n_failed := n_failed b;
                    n_cancelled := n_cancelled b |}
  | failed => {| n_pending := n_pending b; n_running := n_running b;
                 n_completed := n_completed b; n_failed := S (n_failed b);
                 n_cancelled := n_cancelled b |}
  | cancelled => {| n_pending := n_pending b; n_running := n_running b;
                    n_completed := n_completed b; n_failed := n_failed b;
                    n_cancelled := S (n_cancelled b) |}
  end.

(** [byStatus[s]] *)
Definition count_of (b : ByStatus) (s : TaskStatus) : nat :=
  match s with
  | pending => n_pending b
  | running => n_running b
  | completed => n_completed b
  | failed => n_failed b
  | cancelled => n_cancelled b
  end.

Record Stats := { stats_total : nat; stats_byStatus : ByStatus }.

Definition stats (r : Registry) : Stats :=
  {| stats_total := length (tasks r);
     stats_byStatus :=
       foldl (fun b kv => bump (taskStatus kv.2) b)
             {| n_pending := 0; n_running := 0; n_completed := 0;
                n_failed := 0; n_cancelled := 0 |} (tasks r) |}.

(** The public methods that change the registry, with the values the
    host supplies at the call ([crypto.randomUUID()], [isoNow()]). *)
Inductive Op :=
  | OpCreate (input : OrchestrationInput) (newId now : string)
  | OpUpdateStatus (id : string) (status : TaskStatus) (step : option string) (now : string)
  | OpSetResult (id : string) (result : OrchestrationResult) (now : string)
  | OpCancel (id : string) (now : string)
  | OpDelete (id : string).

Definition apply_op (o : Op) (r : Registry) : Registry :=
  match o with
  | OpCreate input newId now => (create input newId now r).2
  | OpUpdateStatus id status step now => (updateStatus id status step now r).2
  | OpSetResult id result now => (setResult id result now r).2
  | OpCancel id now => (cancel id now r).2
  | OpDelete id => (delete_task id r).2
  end.

(** Any sequence of calls on a registry. *)
Definition apply_ops (os : list Op) (r : Registry) : Registry :=
  foldl (fun r o => apply_op o r) r os.

(** Every task is stored under its own id. *)
Definition well_keyed (r : Registry) : Prop :=
  ∀ k t, (k, t) ∈ tasks r → taskId t = k.

End TaskRegistry.

(** ** Concurrency limiter (utils/concurrencyLimiter.ts)

    [run] is an [async] method, so one call is a small coroutine.  It
    executes synchronously up to its first [await]; at capacity that is
    [await this.waitForSlot()], otherwise [await task()].  A waiter whose
    [resolve] has been called does not continue at once: its
    continuation is a job of the microtask queue and runs later, after
    whatever jobs were queued before it.  The model therefore has one
    transition per piece of code that runs without interruption:

    - [Call i]: the synchronous prefix of [run] for a new call [i];
    - [Settle i b]: the task of call [i] settles ([b = false]: it
      rejects or throws) and the [finally] block runs;
    - [Resume i]: the continuation of a waiter released by [resolve] or
      [reject] runs;
    - [TryRun i]: [tryRun] is called: at capacity it returns [null],
      otherwise it is [run];
    - [Timeout i]: the queue timer of waiter [i] fires;
    - [ClearQueue]: [clearQueue()] is called. *)

Module Limiter.

Import Js.

Inductive Options :=
  | OptNumber (n : JsNumber)
  | OptObject (maxConcurrent : JsNumber) (queueTimeoutMs : option JsNumber).

Record State := {
  maxConcurrent : JsNumber;
  queueTimeoutMs : JsNumber;
  currentCount : Z;
  queue : list nat;          (* waiters, oldest first *)
  granted : list nat;        (* resolved waiters whose continuation is pending *)
  rejected : list nat;       (* rejected waiters whose continuation is pending *)
  started : list nat;        (* calls whose task is in flight *)
  finished : list (nat * bool)  (* completed calls; [false]: the call rejected *)
}.

(** The constructor; [None] when it throws. *)
Definition construct (options : Options) : option State :=
  let '(m, t) := match options with
                 | OptNumber n => (n, of_Z 0)
                 | OptObject m t => (m, default (of_Z 0) t)
                 end in
  if num_lt m 1 then None
  else Some {| maxConcurrent := m; queueTimeoutMs := t; currentCount := 0;
               queue := []; granted := []; rejected := []; started := [];
               finished := [] |}.

Definition running (s : State) : Z := currentCount s.
Definition queued (s : State) : nat := length (queue s).
Definition atCapacity (s : State) : bool := num_ge (currentCount s) (maxConcurrent s).

Inductive Label :=
  | Call (i : nat)
  | Settle (i : nat) (fulfilled : bool)
  | Resume (i : nat)
  | TryRun (i : nat)
  | Timeout (i : nat)
  | ClearQueue.

Definition known (s : State) (i : nat) : bool :=
  bool_decide (i ∈ queue s ++ granted s ++ rejected s ++ started s ++ (finished s).*1).

Definition remove (i : nat) (l : list nat) : list nat :=
  filter (fun j => j ≠ i) l.

Definition step (l : Label) (s : State) : option State :=
  match l with
  | Call i =>
      if known s i then None
      else if num_ge (currentCount s) (maxConcurrent s) then
        (* await this.waitForSlot(): this.queue.push(entry) *)
        Some {| maxConcurrent := maxConcurrent s; queueTimeoutMs := queueTimeoutMs s;
                currentCount := currentCount s; queue := queue s ++ [i];
                granted := granted s; rejected := rejected s;
                started := started s; finished := finished s |}
      else
        (* this.currentCount++; await task() *)
        Some {| maxConcurrent := maxConcurrent s; queueTimeoutMs := queueTimeoutMs s;
                currentCount := currentCount s + 1; queue := queue s;
                granted := granted s; rejected := rejected s;
                started := started s ++ [i]; finished := finished s |}
  | Settle i b =>
      if bool_decide (i ∈ started s) then
        (* finally: this.currentCount--; this.queue.shift()?.resolve() *)
        Some {| maxConcurrent := maxConcurrent s; queueTimeoutMs := queueTimeoutMs s;
                currentCount := currentCount s - 1; queue := tail (queue s);
                granted := granted s ++ option_list (head (queue s));
                rejected := rejected s;
                started := remove i (started s);
                finished := finished s ++ [(i, b)] |}
      else None
  | Resume i =>
      if bool_decide (i ∈ granted s) then
        (* after the await: this.currentCount++; await task() *)
        Some {| maxConcurrent := maxConcurrent s; queueTimeoutMs := queueTimeoutMs s;
                currentCount := currentCount s + 1; queue := queue s;
                granted := remove i (granted s); rejected := rejected s;
                started := started s ++ [i]; finished := finished s |}
      else if bool_decide (i ∈ rejected s) then
        (* the await throws CapacityExceededError out of run *)
        Some {| maxConcurrent := maxConcurrent s; queueTimeoutMs := queueTimeoutMs s;
                currentCount := currentCount s; queue := queue s;
                granted := granted s; rejected := remove i (rejected s);
                started := started s; finished := finished s ++ [(i, false)] |}
      else None
  | TryRun i =>
      if known s i then None
      else if num_ge (currentCount s) (maxConcurrent s) then Some s
      else
        Some {| maxConcurrent := maxConcurrent s; queueTimeoutMs := queueTimeoutMs s;
                currentCount := currentCount s + 1; queue := queue s;
                granted := granted s; rejected := rejected s;
                started := started s ++ [i]; finished := finished s |}
  | Timeout i =>
      if bool_decide (i ∈ queue s) && num_gt (queueTimeoutMs s) 0 then
        Some {| maxConcurrent := maxConcurrent s; queueTimeoutMs := queueTimeoutMs s;
                currentCount := currentCount s; queue := remove i (queue s);
                granted := granted s; rejected := rejected s ++ [i];
                started := started s; finished := finished s |}
      else None
  | ClearQueue =>
      Some {| maxConcurrent := maxConcurrent s; queueTimeoutMs := queueTimeoutMs s;
              currentCount := currentCount s; queue := [];
              granted := granted s; rejected := rejected s ++ queue s;
              started := started s; finished := finished s |}
  end.

(** Running tasks plus waiters that hold a released slot. *)
Definition slots_in_use (s : State) : Z :=
  currentCount s + Z.of_nat (length (granted s)).

(** [n] slots are within the capacity [c]: the last of them was handed
    out when the test [count >= c] was false. *)
Definition within_capacity (c : JsNumber) (n : Z) : Prop :=
  n ≤ 0 ∨ num_ge (n - 1) c = false.

(** A schedule is a list of labels; [exec] runs it, [None] when some
    label is not enabled. *)
Fixpoint exec (ls : list Label) (s : State) : option State :=
  match ls with
  | [] => Some s
  | l :: ls' => match step l s with
                | Some s' => exec ls' s'
                | None => None
                end
  end.

(** Schedules in which no new call arrives while a released waiter has
    not yet continued; a batch submitted in one go is of this kind. *)
Fixpoint no_call_during_handover (ls : list Label) (s : State) : bool :=
  match ls with
  | [] => true
  | l :: ls' =>
      match l with
      | Call _ | TryRun _ => bool_decide (granted s = [])
      | _ => true
      end &&
      match step l s with
      | Some s' => no_call_during_handover ls' s'
      | None => true
      end
  end.


(** Every call is in exactly one place, and the counter is the number
    of tasks in flight. *)
Definition limiter_inv (s : State) : Prop :=
  currentCount s = Z.of_nat (length (started s))
  ∧ NoDup (queue s ++ granted s ++ rejected s ++ started s ++ (finished s).*1).

End Limiter.

(** ** Plan validator (orchestrator/planValidator.ts) *)

Module PlanValidator.
Import Js Skills Types.

Record PlanConstraints := {
  maxSteps : Z;
  maxParallelism : Z;
  allowedCapabilities : list Capability;
  allowEscalationRequests : bool;
  skillsIndex : option SkillsIndex
}.

(** [Partial<PlanConstraints>] *)
Record PartialPlanConstraints := {
  p_maxSteps : option Z;
  p_maxParallelism : option Z;
  p_allowedCapabilities : option (list Capability);
  p_allowEscalationRequests : option bool;
  p_skillsIndex : option SkillsIndex
}.

Definition no_overrides : PartialPlanConstraints :=
  {| p_maxSteps := None; p_maxParallelism := None; p_allowedCapabilities := None;
     p_allowEscalationRequests := None; p_skillsIndex := None |}.

Definition DEFAULT_PLAN_CONSTRAINTS : PlanConstraints :=
  {| maxSteps := 20; maxParallelism := 5;
     allowedCapabilities := PRIVILEGE_CAPABILITIES specialist;
     allowEscalationRequests := true; skillsIndex := None |}.

(** [{ ...DEFAULT_PLAN_CONSTRAINTS, ...constraints }] *)
Definition merge_constraints (c : PartialPlanConstraints) : PlanConstraints :=
  {| maxSteps := default (maxSteps DEFAULT_PLAN_CONSTRAINTS) (p_maxSteps c);
     maxParallelism := default (maxParallelism DEFAULT_PLAN_CONSTRAINTS) (p_maxParallelism c);
     allowedCapabilities :=
       default (allowedCapabilities DEFAULT_PLAN_CONSTRAINTS) (p_allowedCapabilities c);
     allowEscalationRequests :=
       default (allowEscalationRequests DEFAULT_PLAN_CONSTRAINTS) (p_allowEscalationRequests c);
     skillsIndex := p_skillsIndex c |}.

Inductive PlanValidationError :=
  | too_many_steps | too_much_parallelism | missing_skill
  | unauthorized_capability | unauthorized_escalation
  | circular_dependency | missing_dependency | invalid_residence.

Inductive PlanValidationResult :=
  | Valid
  | Invalid (reason : PlanValidationError) (details : string).

Definition is_valid (r : PlanValidationResult) : bool :=
  match r with Valid => true | Invalid _ _ => false end.

Record PlannerEscalationRequest := {
  reason : string;
  req_capability : option Capability;
  req_stepId : option string
}.

Record ExtendedPlannerOutput := {
  base : PlannerOutput;
  escalationRequests : option (list PlannerEscalationRequest)
}.

Definition with_dependsOn (s : PlanStep) (deps : list string) : PlanStep :=
  {| id := id s; description := description s; agentResidence := agentResidence s;
     input := input s; dependsOn := deps; parallel := parallel s |}.

Definition with_steps (p : PlannerOutput) (ss : list PlanStep) : PlannerOutput :=
  {| goalSummary := goalSummary p; steps := ss;
     constraints := constraints p; risks := risks p |}.

(** [a.sort()] on an array of strings: ascending code-unit order. *)
Definition sort_strings (l : list string) : list string := sort String.leb l.

(** First loop of [checkParallelism].  [step.dependsOn.sort()] sorts the
    array of the step in place, so the loop hands back the steps as it
    leaves them, next to the groups. *)
Fixpoint group_by_dependencies (steps : list PlanStep)
    (groups : list (string * list PlanStep)) : list PlanStep * list (string * list PlanStep) :=
  match steps with
  | [] => ([], groups)
  | step :: rest =>
      let sorted := sort_strings (dependsOn step) in
      let step' := with_dependsOn step sorted in
      let key := join "," sorted in
      let group := default [] (map_get key groups) ++ [step'] in
      let '(rest', groups') := group_by_dependencies rest (map_set key group groups) in
      (step' :: rest', groups')
  end.

(** Second loop of [checkParallelism]. *)
Fixpoint check_groups (groups : list (string * list PlanStep)) (maxParallelism : Z)
  : PlanValidationResult :=
  match groups with
  | [] => Valid
  | (deps, group) :: rest =>
      let parallelSteps := filter (fun s => parallel s = true) group in
      if decide (Z.of_nat (length parallelSteps) > maxParallelism) then
        Invalid too_much_parallelism
          (pretty (length parallelSteps) +:+ " parallel steps with dependencies [" +:+
           (if decide (deps = EmptyString) then "none" else deps) +:+
           "], max allowed is " +:+ pretty maxParallelism)
      else check_groups rest maxParallelism
  end.

Definition checkParallelism (steps : list PlanStep) (maxParallelism : Z)
  : PlanValidationResult * list PlanStep :=
  let '(steps', groups) := group_by_dependencies steps [] in
  (check_groups groups maxParallelism, steps').

(** [new Map(steps.map(s => [s.id, s]))]: the last step of an id wins. *)
Definition stepMap (steps : list PlanStep) : gmap string PlanStep :=
  foldl (fun m s => <[id s := s]> m) ∅ steps.

Definition stepIds (steps : list PlanStep) : gset string :=
  list_to_set (id <$> steps).

Record DfsState := {
  visiting : gset string;
  visited : gset string
}.

(** The [for (const dep of step.dependsOn)] loop inside [dfs]; [rec] is
    the recursive call [dfs(dep, [...path, stepId])]. *)
Fixpoint dfs_deps (rec : string → DfsState → option (option (list string) * DfsState))
    (ids : gset string) (deps : list string) (st : DfsState)
  : option (option (list string) * DfsState) :=
  match deps with
  | [] => Some (None, st)
  | dep :: deps' =>
      if bool_decide (dep ∈ ids) then
        match rec dep st with
        | None => None
        | Some (Some cycle, st') => Some (Some cycle, st')
        | Some (None, st') => dfs_deps rec ids deps' st'
        end
      else dfs_deps rec ids deps' st
  end.

(** The recursive [dfs] of [checkCircularDependencies].  The recursion
    depth is bounded by the number of steps; [fuel] counts nested calls
    and the result is [None] only when it runs out.  A result
    [Some (Some cycle, _)] is the early [return cycle]. *)
Fixpoint dfs (steps : list PlanStep) (fuel : nat) (stepId : string)
    (path : list string) (st : DfsState) : option (option (list string) * DfsState) :=
  match fuel with
  | O => None
  | S fuel' =>
      if bool_decide (stepId ∈ visiting st) then Some (Some (path ++ [stepId]), st)
      else if bool_decide (stepId ∈ visited st) then Some (None, st)
      else
        let st1 := {| visiting := {[stepId]} ∪ visiting st; visited := visited st |} in
        let after_deps :=
          match stepMap steps !! stepId with
          | Some step =>
              dfs_deps (fun dep => dfs steps fuel' dep (path ++ [stepId]))
                       (stepIds steps) (dependsOn step) st1
          | None => Some (None, st1)
          end in
        match after_deps with
        | None => None
        | Some (Some cycle, st2) => Some (Some cycle, st2)
        | Some (None, st2) =>
            Some (None, {| visiting := visiting st2 ∖ {[stepId]};
                           visited := {[stepId]} ∪ visited st2 |})
        end
  end.

(** The message of a detected cycle. *)
Definition cycle_message (c : list string) : string :=
  "Circular dependency detected: " +:+ join " â†’ " c.

(** The outer [for (const step of steps)] loop. *)
Fixpoint check_roots (steps : list PlanStep) (fuel : nat) (roots : list PlanStep)
    (st : DfsState) : option PlanValidationResult :=
  match roots with
  | [] => Some Valid
  | step :: rest =>
      match dfs steps fuel (id step) [] st with
      | None => None
      | Some (Some cycle, _) =>
          Some (Invalid circular_dependency (cycle_message cycle))
      | Some (None, st') => check_roots steps fuel rest st'
      end
  end.

Definition checkCircularDependencies_fuel (fuel : nat) (steps : list PlanStep)
  : option PlanValidationResult :=
  check_roots steps fuel steps {| visiting := ∅; visited := ∅ |}.

(** One level of recursion per step on the path, plus the call that
    finds the repeated step. *)
Definition checkCircularDependencies (steps : list PlanStep) : option PlanValidationResult :=
  checkCircularDependencies_fuel (S (length steps)) steps.

Fixpoint first_missing (ids : gset string) (sid : string) (deps : list string)
  : option PlanValidationResult :=
  match deps with
  | [] => None
  | dep :: deps' =>
      if bool_decide (dep ∈ ids) then first_missing ids sid deps'
      else Some (Invalid missing_dependency
                   ("Step " +:+ dquote +:+ sid +:+ dquote +:+ " depends on " +:+
                    dquote +:+ dep +:+ dquote +:+ " which does not exist in the plan"))
  end.

Fixpoint checkMissingDependencies_loop (ids : gset string) (steps : list PlanStep)
  : PlanValidationResult :=
  match steps with
  | [] => Valid
  | step :: rest =>
      match first_missing ids (id step) (dependsOn step) with
      | Some r => r
      | None => checkMissingDependencies_loop ids rest
      end
  end.

Definition checkMissingDependencies (steps : list PlanStep) : PlanValidationResult :=
  checkMissingDependencies_loop (stepIds steps) steps.

Definition validateStep (step : PlanStep) (cfg : PlanConstraints) : PlanValidationResult :=
  let privilege := getResidencePrivilege (agentResidence step) in
  if negb (startsWith (agentResidence step) "Liku/") then
    Invalid invalid_residence
      ("Step " +:+ dquote +:+ id step +:+ dquote +:+ " has invalid residence " +:+
       dquote +:+ agentResidence step +:+ dquote +:+ " - must be under Liku/")
  else
    let residenceCapabilities := PRIVILEGE_CAPABILITIES privilege in
    match
      List.find (fun cap =>
                   negb (bool_decide (cap ∈ allowedCapabilities cfg)) &&
                   (bool_decide (cap = escalate) || bool_decide (cap = network_access)))
                residenceCapabilities
    with
    | Some cap =>
        Invalid unauthorized_capability
          ("Step " +:+ dquote +:+ id step +:+ dquote +:+ " at residence " +:+
           dquote +:+ agentResidence step +:+ dquote +:+ " would use capability " +:+
           dquote +:+ capability_name cap +:+ dquote +:+ " which is not authorized")
    | None => Valid
    end.

Fixpoint validate_steps (steps : list PlanStep) (cfg : PlanConstraints) : PlanValidationResult :=
  match steps with
  | [] => Valid
  | step :: rest =>
      match validateStep step cfg with
      | Valid => validate_steps rest cfg
      | r => r
      end
  end.

(** [validatePlan].  The second component is the plan object as the
    call leaves it; the result is [None] only if the cycle search ran
    out of fuel. *)
Definition validatePlan (plan : ExtendedPlannerOutput) (constraints : PartialPlanConstraints)
  : option PlanValidationResult * ExtendedPlannerOutput :=
  let cfg := merge_constraints constraints in
  if decide (Z.of_nat (length (steps (base plan))) > maxSteps cfg) then
    (Some (Invalid too_many_steps
             ("Plan has " +:+ pretty (length (steps (base plan))) +:+
              " steps, max allowed is " +:+ pretty (maxSteps cfg))), plan)
  else
    let '(parallelismResult, steps') :=
      checkParallelism (steps (base plan)) (maxParallelism cfg) in
    let plan' := {| base := with_steps (base plan) steps';
                    escalationRequests := escalationRequests plan |} in
    match parallelismResult with
    | Invalid r d => (Some (Invalid r d), plan')
    | Valid =>
        match checkCircularDependencies steps' with
        | None => (None, plan')
        | Some (Invalid r d) => (Some (Invalid r d), plan')
        | Some Valid =>
            match checkMissingDependencies steps' with
            | Invalid r d => (Some (Invalid r d), plan')
            | Valid =>
                match validate_steps steps' cfg with
                | Invalid r d => (Some (Invalid r d), plan')
                | Valid =>
                    if bool_decide (is_Some (escalationRequests plan)) &&
                       negb (allowEscalationRequests cfg)
                    then (Some (Invalid unauthorized_escalation
                                  "Planner requested escalation but escalation requests are not allowed in this context"),
                          plan')
                    else (Some Valid, plan')
                end
            end
        end
    end.

Definition constraintsFromPrivilege (privilege : Privilege) : PlanConstraints :=
  {| maxSteps := if decide (privilege = root) then 50
                 else if decide (privilege = specialist) then 20 else 5;
     maxParallelism := if decide (privilege = root) then 10 else 5;
     allowedCapabilities := PRIVILEGE_CAPABILITIES privilege;
     allowEscalationRequests := bool_decide (privilege ≠ user);
     skillsIndex := None |}.

Definition extractEscalationRequests (plan : ExtendedPlannerOutput)
  : list PlannerEscalationRequest :=
  default [] (escalationRequests plan).

(** The dependency relation of a plan, restricted to ids present in it. *)
Definition depends (steps : list PlanStep) (a b : string) : Prop :=
  ∃ s, s ∈ steps ∧ id s = a ∧ b ∈ dependsOn s ∧ b ∈ id <$> steps.

(** [has_cycle]: some step reaches itself along [depends]. *)
Definition has_cycle (steps : list PlanStep) : Prop :=
  ∃ a, tc (depends steps) a a.

(** Consecutive entries of [l] are related by [R]. *)
Fixpoint chain (R : relation string) (l : list string) : Prop :=
  match l with
  | a :: ((b :: _) as l') => R a b ∧ chain R l'
  | _ => True
  end.

(** [l] is a walk along the dependencies of the plan. *)
Definition walk (steps : list PlanStep) (l : list string) : Prop :=
  chain (depends steps) l.

(** [details] mentions the id [x]. *)
Definition names (details x : string) : Prop :=
  ∃ pre post, details = pre +:+ x +:+ post.

(** What [step.dependsOn.sort()] leaves of a step. *)
Definition normalize_step (s : PlanStep) : PlanStep :=
  with_dependsOn s (sort_strings (dependsOn s)).

(** Vocabulary for the cycle search.  [edge] is the relation the search
    follows: the dependencies of the step the map holds for an id,
    restricted to ids of the plan. *)
Section Search.
Variable steps : list PlanStep.

Definition edge (a b : string) : Prop :=
  ∃ s, stepMap steps !! a = Some s ∧ b ∈ dependsOn s ∧ b ∈ stepIds steps.

Definition closed (S : gset string) : Prop :=
  ∀ u w, u ∈ S → edge u w → w ∈ S.

Definition acyclic_in (S : gset string) : Prop :=
  ∀ u, u ∈ S → ¬ tc edge u u.

(** Invariant of the search: the steps being visited belong to the
    plan and are not finished; the finished steps only depend on
    finished steps and lie on no cycle. *)
Record dfs_inv (st : DfsState) : Prop := {
  inv_visiting : visiting st ⊆ stepIds steps;
  inv_disjoint : visiting st ## visited st;
  inv_closed : closed (visited st);
  inv_acyclic : acyclic_in (visited st)
}.

(** A reported path: a lead-in followed by a closed walk. *)
Definition cycle_shape (c : list string) : Prop :=
  ∃ pre w mid, c = pre ++ w :: mid ++ [w] ∧ chain edge (w :: mid ++ [w]).

Definition dfs_post (v : string) (st : DfsState)
    (r : option (list string) * DfsState) : Prop :=
  match r.1 with
  | Some c => cycle_shape c
  | None => visiting r.2 = visiting st ∧ visited st ⊆ visited r.2
            ∧ v ∈ visited r.2 ∧ dfs_inv r.2
  end.
End Search.


(** The key under which [checkParallelism] files a step:
    [step.dependsOn.sort().join(",")]. *)
Definition group_key (s : PlanStep) : string :=
  join "," (sort_strings (dependsOn s)).

(** The parallel steps of a plan filed under a key. *)
Definition parallel_group (steps : list PlanStep) (key : string) : list PlanStep :=
  filter (fun s => parallel s = true ∧ group_key s = key) steps.

(** What [validateStep] asks of a step: a residence under [Liku/], and,
    for a residence of root privilege, that the two powerful
    capabilities are allowed. *)
Definition step_allowed (cfg : PlanConstraints) (s : PlanStep) : Prop :=
  startsWith (agentResidence s) "Liku/" = true
  ∧ (getResidencePrivilege (agentResidence s) = root →
     escalate ∈ allowedCapabilities cfg ∧ network_access ∈ allowedCapabilities cfg).

(** The conditions of a plan that [validatePlan] accepts. *)
Record plan_ok (plan : ExtendedPlannerOutput) (cfg : PlanConstraints) : Prop := {
  ok_count : Z.of_nat (length (steps (base plan))) ≤ maxSteps cfg;
  ok_parallel :
    ∀ s, s ∈ steps (base plan) →
         Z.of_nat (length (parallel_group (steps (base plan)) (group_key s)))
         ≤ maxParallelism cfg;
  ok_acyclic : ¬ has_cycle (steps (base plan));
  ok_deps :
    ∀ s d, s ∈ steps (base plan) → d ∈ dependsOn s → d ∈ id <$> steps (base plan);
  ok_steps : ∀ s, s ∈ steps (base plan) → step_allowed cfg s;
  ok_escalation :
    is_Some (escalationRequests plan) → allowEscalationRequests cfg = true
}.

(** One set of constraints is at most as permissive as another. *)
Definition constraints_le (c c' : PlanConstraints) : Prop :=
  maxSteps c ≤ maxSteps c'
  ∧ maxParallelism c ≤ maxParallelism c'
  ∧ allowedCapabilities c ⊆ allowedCapabilities c'
  ∧ (allowEscalationRequests c = true → allowEscalationRequests c' = true).

(** A complete [PlanConstraints] object passed as the [constraints]
    argument: every key of the defaults is overridden. *)
Definition as_partial (c : PlanConstraints) : PartialPlanConstraints :=
  {| p_maxSteps := Some (maxSteps c);
     p_maxParallelism := Some (maxParallelism c);
     p_allowedCapabilities := Some (allowedCapabilities c);
     p_allowEscalationRequests := Some (allowEscalationRequests c);
     p_skillsIndex := skillsIndex c |}.

End PlanValidator.

(** ** Skill declaration files and inheritance (skills/skillsXml.ts, skills/loader.ts)

    A resolved directory is the list of its path segments, root first.
    The file system is a function from a path to what is found there:
    [None] when nothing exists at the path ([existsSync] is false),
    otherwise the document the XML parser returns for the content of
    the file, or [Unreadable] when [readFileSync] or [parser.parse]
    throws (the path is a directory, the file may not be read, the text
    is cut short).  A function that can throw returns an [option]:
    [None] stands for the exception. *)

Module Loader.
Import Js Skills.

(** A property of a parsed element as the parser hands it over: absent,
    a string, a boolean (an attribute without a value is [true]), or
    something else (a number or an object, from a child element of that
    name). *)
Inductive Raw :=
  | RawUndefined
  | RawString (s : string)
  | RawBool (b : bool)
  | RawOther.

Record ParsedSkill := {
  raw_id : Raw;
  raw_privilege : Raw;
  raw_description : Raw;
  raw_requires : Raw;
  raw_escalateIfMissing : Raw
}.

(** [doc.skills?.skill]: absent, one element or an array. *)
Inductive SkillField :=
  | NoSkill
  | OneSkill (s : ParsedSkill)
  | ManySkills (l : list ParsedSkill).

Record ParsedSkillsDoc := { doc_skills : option SkillField }.

Inductive FileContent :=
  | Document (doc : ParsedSkillsDoc)
  | Unreadable.

Definition Path := list string.
Definition FileSystem := Path → option FileContent.

Definition path_string (p : Path) : string := "/" +:+ join "/" p.

Definition dirname (p : Path) : Path := removelast p.

Definition normalizePrivilege (raw : Raw) : Privilege :=
  match raw with
  | RawString s =>
      if decide (s = "root") then root
      else if decide (s = "specialist") then specialist
      else user
  | _ => user
  end.

Definition VALID_CAPABILITIES : list Capability :=
  [read_repo; write_repo; execute_code; network_access; memory_write;
   escalate; invoke_subagent].

Definition normalizeCapability (raw : Raw) : option Capability :=
  match raw with
  | RawString s => List.find (fun c => bool_decide (capability_name c = s)) VALID_CAPABILITIES
  | _ => None
  end.

Definition normalizeBoolean (raw : Raw) : bool :=
  match raw with
  | RawBool b => b
  | RawString s => bool_decide (s = "true") || bool_decide (s = "1")
  | RawUndefined | RawOther => false
  end.

Definition toArray (value : option SkillField) : list ParsedSkill :=
  match value with
  | None | Some NoSkill => []
  | Some (OneSkill s) => [s]
  | Some (ManySkills l) => l
  end.

(** [l.flatMap(f)] for a callback that can throw. *)
Fixpoint flatMap {A B} (f : A → option (list B)) (l : list A) : option (list B) :=
  match l with
  | [] => Some []
  | x :: l' =>
      match f x with
      | None => None
      | Some ys => match flatMap f l' with
                   | None => None
                   | Some zs => Some (ys ++ zs)
                   end
      end
  end.

(** The callback of the [flatMap] in [loadSkillsXml].  [raw.id?.trim()]
    is [undefined] for an absent [id]; for an [id] that is not a string
    there is no [trim] to call and the call throws a [TypeError]. *)
Definition skill_of_raw (residencePath : string) (raw : ParsedSkill)
  : option (list LikuSkill) :=
  match raw_id raw with
  | RawUndefined => Some []
  | RawBool _ | RawOther => None
  | RawString s =>
      let i := trim s in
      if decide (i = EmptyString) then Some []
      else
        let description :=
          match raw_description raw with
          | RawString d => trim d
          | _ => EmptyString
          end in
        let requires := normalizeCapability (raw_requires raw) in
        let escalateIfMissing := normalizeBoolean (raw_escalateIfMissing raw) in
        Some [{| id := i;
                 description := if decide (description = EmptyString) then None
                                else Some description;
                 residencePath := residencePath;
                 requiredPrivilege := normalizePrivilege (raw_privilege raw);
                 requires := requires;
                 escalateIfMissing := if escalateIfMissing then Some true else None |}]
  end.

Definition loadSkillsXml (fs : FileSystem) (skillsXmlPath : Path) (residencePath : string)
  : option (list LikuSkill) :=
  match fs skillsXmlPath with
  | None => Some []
  | Some Unreadable => None
  | Some (Document doc) => flatMap (skill_of_raw residencePath) (toArray (doc_skills doc))
  end.

(** The [while (true)] loop of [findSkillsXmlFiles], on the reversed
    segments of [current]: the parent of a directory drops its last
    segment, and the root is its own parent. *)
Fixpoint walk_up (fs : FileSystem) (stop : Path) (rcurrent : list string) : list Path :=
  let current := rev rcurrent in
  let candidate := current ++ ["skills.xml"] in
  (match fs candidate with Some _ => [candidate] | None => [] end) ++
  (if decide (current = stop) then []
   else match rcurrent with
        | [] => []
        | _ :: rparent => walk_up fs stop rparent
        end).

Definition findSkillsXmlFiles (fs : FileSystem) (fromDir stopAtDir : Path) : list Path :=
  walk_up fs stopAtDir (rev fromDir).


Section LoadInherited.
(** [a.localeCompare(b)], which depends on the collation of the host. *)
Variable localeCompare : string → string → Z.

Definition by_id (a b : LikuSkill) : bool :=
  bool_decide (localeCompare (id a) (id b) <= 0).

(** The inner [for] loop: [byId.set(skill.id, skill)]. *)
Definition set_all (m : list (string * LikuSkill)) (loaded : list LikuSkill)
  : list (string * LikuSkill) :=
  foldl (fun m skill => map_set (id skill) skill m) m loaded.

(** The outer [for] loop, over the files that are left. *)
Fixpoint load_files (fs : FileSystem) (m : list (string * LikuSkill)) (files : list Path)
  : option (list (string * LikuSkill)) :=
  match files with
  | [] => Some m
  | file :: rest =>
      match loadSkillsXml fs file (path_string (dirname file)) with
      | None => None
      | Some loaded => load_files fs (set_all m loaded) rest
      end
  end.

Definition loadInheritedSkills (fs : FileSystem) (residenceDir likuRootDir : Path)
  : option SkillsIndex :=
  let files := findSkillsXmlFiles fs residenceDir likuRootDir in
  match load_files fs [] (reverse files) with
  | None => None
  | Some byId => Some {| skills := sort by_id (byId.*2); byId := byId |}
  end.
End LoadInherited.



End Loader.

(** ** Orchestrator (orchestrator/orchestrator.ts)

    The engine, the LLM client, the clock and the id generator are
    collaborators outside the code; they are parameters of the model.
    Whatever else happens while the orchestrator is suspended in an
    [await] (another request cancelling the task through the registry,
    for instance) is part of what a collaborator call does to the world.

    [run] and its helpers are written in a state-and-exception monad:
    the state holds the world and the log of the events handed to the
    subscribed handler, and a computation ends by returning, by
    throwing, or (for a loop out of fuel) not at all. *)

Module Orchestrator.
Import Js Skills Types.

(** A thrown value, as far as [toLikuError] tells them apart. *)
Inductive Exn :=
  | ThrownLikuError (code : LikuErrorCode) (message : string) (details : Unknown)
  | ThrownError (name message stack : string) (issues : Unknown)
  | ThrownValue (v : Unknown).

Definition toLikuError (err : Exn) : StepError :=
  match err with
  | ThrownLikuError c m d => {| code := c; message := m; details := d |}
  | ThrownError name m stack issues =>
      if decide (name = "ZodError") then
        {| code := BAD_REQUEST; message := "Validation error";
           details := UObj [("issues", issues)] |}
      else
        {| code := INTERNAL; message := m;
           details := UObj [("name", UStr name); ("stack", UStr stack)] |}
  | ThrownValue v =>
      {| code := INTERNAL; message := "Unknown error"; details := UObj [("err", v)] |}
  end.

Inductive InvokeResult :=
  | InvokeOk (bundle : AgentBundle)
  | InvokeEscalation (missingSkill requestedAction residence policyRef : string)
  | InvokeError (code : LikuErrorCode) (message : string) (details : Unknown).

Record LlmInput := {
  llm_system : string;
  llm_context : option string;
  llm_task : string;
  llm_maxTokens : Z;
  llm_abortSignal : option AbortSignal
}.

Record LlmOutput := {
  text : string;
  usage : option Z;
  model : option string;
  finishReason : option string
}.

Inductive Outcome (A : Type) :=
  | Returned (a : A)
  | Raised (e : Exn).
Arguments Returned {A} a.
Arguments Raised {A} e.

(** Encoding of the typed values the orchestrator places in fields of
    type [unknown]. *)
Definition encode_option_string (o : option string) : Unknown :=
  match o with Some s => UStr s | None => UUndefined end.

Definition encode_skill (s : LikuSkill) : Unknown :=
  UObj [("id", UStr (Skills.id s));
        ("description", encode_option_string (Skills.description s));
        ("residencePath", UStr (residencePath s));
        ("requiredPrivilege", UStr (privilege_name (requiredPrivilege s)));
        ("requires", encode_option_string (capability_name <$> requires s));
        ("escalateIfMissing",
         match escalateIfMissing s with Some b => UBool b | None => UUndefined end)].

Definition encode_bundle (b : AgentBundle) : Unknown :=
  UObj [("agentResidence", UStr (bundleResidence b));
        ("skills", UArr (encode_skill <$> bundleSkills b));
        ("paperTrail", UObj [("todoPath", UStr (todoPath (paperTrail b)));
                             ("errorsPath", UStr (errorsPath (paperTrail b)))]);
        ("prompts", UObj [("system", UStr (system (prompts b)));
                          ("instructions", UStr (instructions (prompts b)))])].

Definition encode_output (o : option StepOutput) : Unknown :=
  match o with
  | None => UUndefined
  | Some (OutLlm r b u) =>
      UObj [("llmResponse", UStr r); ("bundle", encode_bundle b);
            ("usage", match u with Some n => UNum n | None => UUndefined end)]
  | Some (OutBundleOnly b) =>
      UObj [("bundleOnly", UBool true); ("bundle", encode_bundle b)]
  end.

Definition encode_step (s : PlanStep) : Unknown :=
  UObj [("id", UStr (id s)); ("description", UStr (description s));
        ("agentResidence", UStr (agentResidence s)); ("input", input s);
        ("dependsOn", UArr (UStr <$> dependsOn s)); ("parallel", UBool (parallel s))].

Definition encode_plan (p : PlannerOutput) : Unknown :=
  UObj [("goalSummary", UStr (goalSummary p));
        ("steps", UArr (encode_step <$> steps p));
        ("constraints", UArr (UStr <$> constraints p));
        ("risks", UArr (UStr <$> risks p))].

(** The [run_completed] events among the events a handler received. *)
Definition run_completed_count (events : list OrchestrationEvent) : nat :=
  length (filter (fun e => event_type e = run_completed) events).

(** A handler is installed. *)
Definition subscribed (eventOptions : option OrchestrationEventOptions) : Prop :=
  ∃ o, eventOptions = Some o ∧ onEvent o = true.

Section WithCollaborators.

(** The world outside the orchestrator.  The task registry is a
    module-level singleton that other parts of the process reach too,
    so it belongs to the world the collaborators act on. *)
Context {Env : Type}.

Record World := {
  env : Env;
  registry : TaskRegistry.Registry
}.

(** The collaborators: [Date.now()], [new Date().toISOString()],
    [crypto.randomUUID()], [llmClient.isConfigured()],
    [engine.invokeAgentSafe({agentResidence, task})] and
    [llmClient.generate(input)]. *)
Record Collaborators := {
  host_dateNow : World → Z;
  host_isoNow : World → string;
  host_randomUUID : World → string * World;
  host_llmConfigured : World → bool;
  host_invokeAgentSafe : string → Unknown → World → Outcome InvokeResult * World;
  host_llmGenerate : LlmInput → World → Outcome LlmOutput * World
}.

Context (host : Collaborators).

Local Notation dateNow := (host_dateNow host).
Local Notation isoNow := (host_isoNow host).
Local Notation randomUUID := (host_randomUUID host).
Local Notation llmConfigured := (host_llmConfigured host).
Local Notation invokeAgentSafe := (host_invokeAgentSafe host).
Local Notation llmGenerate := (host_llmGenerate host).

(** [collected] is the local array [steps] of the run in progress,
    which the [catch] block of [run] reads. *)
Record St := {
  world : World;
  delivered : list OrchestrationEvent;
  collected : list StepResult
}.

Inductive Res (A : Type) :=
  | Ret (a : A) (s : St)
  | Throw (e : Exn) (s : St)
  | Diverge.
Arguments Ret {A} a s.
Arguments Throw {A} e s.
Arguments Diverge {A}.

Definition M (A : Type) := St → Res A.

Definition ret {A} (a : A) : M A := fun s => Ret a s.
Definition throw {A} (e : Exn) : M A := fun s => Throw e s.
Definition diverge {A} : M A := fun _ => Diverge.

Definition bind {A B} (m : M A) (k : A → M B) : M B :=
  fun s => match m s with
           | Ret a s' => k a s'
           | Throw e s' => Throw e s'
           | Diverge => Diverge
           end.

Definition try_catch {A} (m : M A) (handler : Exn → M A) : M A :=
  fun s => match m s with
           | Throw e s' => handler e s'
           | r => r
           end.

Local Notation "x <<- m ; k" := (bind m (fun x => k))
  (at level 20, m at level 100, k at level 200, only parsing).

(** Read something off the world. *)
Definition ask {A} (f : World → A) : M A := fun s => Ret (f (world s)) s.

(** A call into a collaborator (an [await] on its promise). *)
Definition call {A} (f : World → Outcome A * World) : M A :=
  fun s => match f (world s) with
           | (Returned a, w) =>
               Ret a {| world := w; delivered := delivered s; collected := collected s |}
           | (Raised e, w) =>
               Throw e {| world := w; delivered := delivered s; collected := collected s |}
           end.

(** A synchronous operation of the task registry. *)
Definition on_registry {A}
    (f : TaskRegistry.Registry → A * TaskRegistry.Registry) : M A :=
  fun s => let '(a, r) := f (registry (world s)) in
           Ret a {| world := {| env := env (world s); registry := r |};
                    delivered := delivered s; collected := collected s |}.

(** [queueMicrotask(() => handler(event))]: the handler receives the
    event; what it does with it cannot reach the orchestrator. *)
Definition deliver (event : OrchestrationEvent) : M unit :=
  fun s => Ret tt {| world := world s; delivered := delivered s ++ [event];
                     collected := collected s |}.

(** [steps.push(...results)] and a read of [steps]. *)
Definition push_steps (results : list StepResult) : M unit :=
  fun s => Ret tt {| world := world s; delivered := delivered s;
                     collected := collected s ++ results |}.

Definition get_steps : M (list StepResult) := fun s => Ret (collected s) s.

(** [const steps: StepResult[] = []] at the start of a run. *)
Definition reset_steps : M unit :=
  fun s => Ret tt {| world := world s; delivered := delivered s; collected := [] |}.

Definition typeToOption (o : OrchestrationEventOptions) (ty : OrchestrationEventType)
  : option (option bool) :=
  match ty with
  | step_started => Some (emitStepStarted o)
  | step_completed => Some (emitStepCompleted o)
  | escalation_event => Some (emitEscalation o)
  | elicitation => Some (emitElicitation o)
  | run_started => None
  | run_completed => None
  end.

Definition emitEvent (options : option OrchestrationEventOptions)
    (event : OrchestrationEvent) : M unit :=
  match options with
  | None => ret tt
  | Some o =>
      if negb (onEvent o) then ret tt
      else match typeToOption o (event_type event) with
           | Some (Some false) => ret tt
           | _ => deliver event
           end
  end.

Definition getDefaultConfig : M OrchestrationConfig :=
  configured <<- ask llmConfigured ;
  ret {| maxConcurrency := 5; stepTimeoutMs := 60000; totalTimeoutMs := 300000;
         executeWithLlm := configured; abortOnError := true; abortSignal := None |}.

(** [{ ...this.getDefaultConfig(), ...input.config }] *)
Definition merge_config (d : OrchestrationConfig) (o : option PartialConfig)
  : OrchestrationConfig :=
  match o with
  | None => d
  | Some c =>
      {| maxConcurrency := default (maxConcurrency d) (p_maxConcurrency c);
         stepTimeoutMs := default (stepTimeoutMs d) (p_stepTimeoutMs c);
         totalTimeoutMs := default (totalTimeoutMs d) (p_totalTimeoutMs c);
         executeWithLlm := default (executeWithLlm d) (p_executeWithLlm c);
         abortOnError := default (abortOnError d) (p_abortOnError c);
         abortSignal := match p_abortSignal c with
                        | Some sg => Some sg
                        | None => abortSignal d
                        end |}
  end.

Definition with_abortSignal (c : OrchestrationConfig) (sg : option AbortSignal)
  : OrchestrationConfig :=
  {| maxConcurrency := maxConcurrency c; stepTimeoutMs := stepTimeoutMs c;
     totalTimeoutMs := totalTimeoutMs c; executeWithLlm := executeWithLlm c;
     abortOnError := abortOnError c; abortSignal := sg |}.

Definition no_paperTrail : PaperTrail :=
  {| todoPath := EmptyString; errorsPath := EmptyString |}.

Definition error_step (step : PlanStep) (e : StepError) (duration : Z) : StepResult :=
  {| stepId := id step; stepResidence := agentResidence step; status := error;
     output := None; stepError := Some e; escalation := None;
     durationMs := duration; stepPaperTrail := no_paperTrail |}.

Definition escalated_step (step : PlanStep) (info : EscalationInfo) (duration : Z)
    (trail : PaperTrail) : StepResult :=
  {| stepId := id step; stepResidence := agentResidence step; status := escalated;
     output := None; stepError := None; escalation := Some info;
     durationMs := duration; stepPaperTrail := trail |}.

Definition success_step (step : PlanStep) (out : StepOutput) (duration : Z)
    (trail : PaperTrail) : StepResult :=
  {| stepId := id step; stepResidence := agentResidence step; status := success;
     output := Some out; stepError := None; escalation := None;
     durationMs := duration; stepPaperTrail := trail |}.

Definition checkForEscalation (bundle : AgentBundle) (step : PlanStep)
  : option EscalationInfo :=
  let privilege := getResidencePrivilege (agentResidence step) in
  let skillsIndex :=
    {| skills := bundleSkills bundle;
       byId := foldl (fun m s => map_set (Skills.id s) s m) [] (bundleSkills bundle) |} in
  let report := validateSkillsIndex skillsIndex privilege in
  let escalating :=
    if decide (0 < escalationRequired report)%nat then
      match List.find (fun d => match result d with
                                | MissingCapability _ true => true
                                | _ => false
                                end) (Skills.details report) with
      | Some {| skillId := sid; result := MissingCapability cap _ |} =>
          let skill := map_get sid (byId skillsIndex) in
          Some {| missingSkill := sid;
                  requestedAction := description step;
                  residence := agentResidence step;
                  policyRef := "Liku/root/policy.md";
                  suggestedAlternatives :=
                    ["Request '" +:+ capability_name cap +:+
                     "' capability from root supervisor";
                     "Use alternative skill with lower privilege requirement";
                     "Decompose task to avoid privileged operation"];
                  capability := Some (capability_name cap);
                  skillDescription :=
                    match skill ≫= Skills.description with
                    | Some d => if decide (d = EmptyString) then None else Some d
                    | None => None
                    end |}
      | _ => None
      end
    else None in
  match escalating with
  | Some info => Some info
  | None =>
      if decide (0 < blocked report)%nat then
        match List.find (fun d => match result d with
                                  | InsufficientPrivilege _ _ => true
                                  | _ => false
                                  end) (Skills.details report) with
        | Some {| skillId := sid; result := InsufficientPrivilege required current |} =>
            Some {| missingSkill := sid;
                    requestedAction := description step;
                    residence := agentResidence step;
                    policyRef := "Liku/root/policy.md";
                    suggestedAlternatives :=
                      ["Current privilege '" +:+ privilege_name current +:+
                       "' insufficient, requires '" +:+ privilege_name required +:+ "'";
                       "Execute from a higher-privilege residence";
                       "Request root approval for this operation"];
                    capability := None;
                    skillDescription := None |}
        | _ => None
        end
      else None
  end.

(** [runStep]: one step, with the total-timeout check and the
    [try]/[catch] around the collaborator calls. *)
Definition runStep (step : PlanStep) (config : OrchestrationConfig)
    (orchestrationStart : Z) : M StepResult :=
  stepStart <<- ask dateNow ;
  t0 <<- ask dateNow ;
  if decide (t0 - orchestrationStart > totalTimeoutMs config) then
    t1 <<- ask dateNow ;
    ret (error_step step
           {| code := INTERNAL; message := "Orchestration timeout exceeded";
              details := UUndefined |} (t1 - stepStart))
  else
    try_catch
      (bundleResult <<- call (invokeAgentSafe (agentResidence step) (input step)) ;
       match bundleResult with
       | InvokeError c m d =>
           t <<- ask dateNow ;
           ret (error_step step {| code := c; message := m; details := d |}
                           (t - stepStart))
       | InvokeEscalation ms ra res pr =>
           t <<- ask dateNow ;
           ret (escalated_step step
                  {| missingSkill := ms; requestedAction := ra; residence := res;
                     policyRef := pr; suggestedAlternatives := [];
                     capability := None; skillDescription := None |}
                  (t - stepStart) no_paperTrail)
       | InvokeOk bundle =>
           match checkForEscalation bundle step with
           | Some info =>
               t <<- ask dateNow ;
               ret (escalated_step step info (t - stepStart) (paperTrail bundle))
           | None =>
               configured <<- ask llmConfigured ;
               out <<-
                 (if executeWithLlm config && configured then
                    llmOutput <<- call (llmGenerate
                      {| llm_system := system (prompts bundle);
                         llm_context := Some EmptyString;
                         llm_task := instructions (prompts bundle);
                         llm_maxTokens := 4096;
                         llm_abortSignal := abortSignal config |}) ;
                    ret (OutLlm (text llmOutput) bundle (usage llmOutput))
                  else ret (OutBundleOnly bundle)) ;
               t <<- ask dateNow ;
               ret (success_step step out (t - stepStart) (paperTrail bundle))
           end
       end)
      (fun err =>
         t <<- ask dateNow ;
         ret (error_step step (toLikuError err) (t - stepStart))).

Definition runStepWithEvents (step : PlanStep) (config : OrchestrationConfig)
    (orchestrationStart : Z) (taskId : string)
    (eventOptions : option OrchestrationEventOptions) : M StepResult :=
  ts0 <<- ask isoNow ;
  _ <<- emitEvent eventOptions
          (StepStartedEvent ts0 taskId (id step) (agentResidence step) (description step)) ;
  result <<- runStep step config orchestrationStart ;
  ts1 <<- ask isoNow ;
  _ <<- emitEvent eventOptions
          (StepCompletedEvent ts1 taskId (id step) (agentResidence step)
             (status result) (durationMs result)
             ((fun e => (code e, message e)) <$> stepError result)
             (escalation result)) ;
  _ <<- match status result, escalation result with
        | escalated, Some info =>
            ts2 <<- ask isoNow ;
            emitEvent eventOptions (EscalationEvent ts2 taskId (id step) info)
        | _, _ => ret tt
        end ;
  ret result.

(** The steps of one run are modelled one after the other, so the
    limiter of the orchestrator always has a free slot and
    [this.limiter.run(task)] does what [task] does. *)
Definition limiter_run {A} (task : M A) : M A := task.

Definition readySteps (steps : list PlanStep) (completed : gset string) : list PlanStep :=
  filter (fun s => (id s ∉ completed) ∧ Forall (fun dep => dep ∈ completed) (dependsOn s))
         steps.

(** The [for] loop over the sequential steps of a batch.  The boolean
    is [true] when the loop left the function through
    [return results]. *)
Fixpoint run_sequential (sequentialSteps : list PlanStep) (config : OrchestrationConfig)
    (orchestrationStart : Z) (taskId : string)
    (eventOptions : option OrchestrationEventOptions)
    (results : list StepResult) (completed : gset string)
  : M (list StepResult * gset string * bool) :=
  match sequentialSteps with
  | [] => ret (results, completed, false)
  | step :: rest =>
      result <<- limiter_run
                   (runStepWithEvents step config orchestrationStart taskId eventOptions) ;
      let results' := results ++ [result] in
      let completed' := {[id step]} ∪ completed in
      if bool_decide (status result = error) && abortOnError config
      then ret (results', completed', true)
      else run_sequential rest config orchestrationStart taskId eventOptions
                          results' completed'
  end.

(** [Promise.all(parallelSteps.map(step => this.limiter.run(...)))]:
    the results come back in array order; if a step throws, the
    whole [await] throws.  The steps are in flight together; the
    model runs them in array order. *)
Fixpoint run_parallel (parallelSteps : list PlanStep) (config : OrchestrationConfig)
    (orchestrationStart : Z) (taskId : string)
    (eventOptions : option OrchestrationEventOptions) : M (list StepResult) :=
  match parallelSteps with
  | [] => ret []
  | step :: rest =>
      result <<- limiter_run
                   (runStepWithEvents step config orchestrationStart taskId eventOptions) ;
      results <<- run_parallel rest config orchestrationStart taskId eventOptions ;
      ret (result :: results)
  end.

(** The [while (completed.size < steps.length)] loop of
    [executeStepsWithEvents]; one unit of fuel per iteration. *)
Fixpoint schedule (fuel : nat) (steps : list PlanStep) (config : OrchestrationConfig)
    (orchestrationStart : Z) (taskId : string)
    (eventOptions : option OrchestrationEventOptions)
    (results : list StepResult) (completed : gset string) : M (list StepResult) :=
  match fuel with
  | O => diverge
  | S fuel' =>
      if decide (size completed < length steps)%nat then
        let batch := readySteps steps completed in
        match batch with
        | [] => ret results
        | _ =>
            let parallelSteps := filter (fun s => parallel s = true) batch in
            let sequentialSteps := filter (fun s => parallel s = false) batch in
            seq <<- run_sequential sequentialSteps config orchestrationStart taskId
                      eventOptions results completed ;
            match seq with
            | (results1, completed1, true) => ret results1
            | (results1, completed1, false) =>
                match parallelSteps with
                | [] => schedule fuel' steps config orchestrationStart taskId
                                 eventOptions results1 completed1
                | _ =>
                    parallelResults <<- run_parallel parallelSteps config
                                          orchestrationStart taskId eventOptions ;
                    let results2 := results1 ++ parallelResults in
                    let completed2 := list_to_set (id <$> parallelSteps) ∪ completed1 in
                    if abortOnError config &&
                       existsb (fun r => bool_decide (status r = error)) parallelResults
                    then ret results2
                    else schedule fuel' steps config orchestrationStart taskId
                                  eventOptions results2 completed2
                end
            end
        end
      else ret results
  end.

Definition executeStepsWithEvents (steps : list PlanStep) (config : OrchestrationConfig)
    (orchestrationStart : Z) (taskId : string)
    (eventOptions : option OrchestrationEventOptions) : M (list StepResult) :=
  schedule (S (length steps)) steps config orchestrationStart taskId eventOptions [] ∅.

(** [parsePlannerOutput].  Neither object shape that [runStep] stores
    in [output] has a [goalSummary] key, and an absent output is
    falsy, so for the result of the planner step the function builds
    the default single-step plan. *)
Definition parsePlannerOutput (output : option StepOutput) : PlannerOutput :=
  {| goalSummary := "Execute task with TypeScript specialist";
     steps := [{| id := "ts-execution";
                  description := "Execute TypeScript task";
                  agentResidence := "Liku/specialist/ts";
                  input := encode_output output;
                  dependsOn := [];
                  parallel := false |}];
     constraints := [];
     risks := [] |}.

Definition type_error (what : string) : Exn :=
  ThrownError "TypeError" what EmptyString UUndefined.

(** [errorResult]; it is called with [result.error!], and reading
    [error.code] of an absent error throws. *)
Definition errorResult (summary : string) (steps : list StepResult)
    (e : option StepError) : M OrchestrationResult :=
  match e with
  | Some e => ret (ResError (code e) (summary +:+ ": " +:+ message e) (details e) steps)
  | None => throw (type_error "Cannot read properties of undefined (reading 'code')")
  end.

Definition escalationResult (summary : string) (steps : list StepResult)
    (info : option EscalationInfo) : OrchestrationResult :=
  ResEscalation summary steps info.

Definition finishRun (taskId : string) (eventOptions : option OrchestrationEventOptions)
    (startTime : Z) (steps : list StepResult) (result : OrchestrationResult)
  : M OrchestrationResult :=
  ts <<- ask isoNow ;
  _ <<- on_registry (TaskRegistry.setResult taskId result ts) ;
  ts' <<- ask isoNow ;
  t <<- ask dateNow ;
  _ <<- emitEvent eventOptions
          (RunCompletedEvent ts' taskId (kind result) (length steps)
             (length (filter (fun s => status s = success) steps)) (t - startTime)) ;
  ret result.

Definition plan_goalSummary (p : SuppliedPlan) : string :=
  match p with
  | PlanValue p => goalSummary p
  | PlanWithoutSteps g => g
  end.

(** The stages after the plan is known: execution and synthesis. *)
Definition run_plan (plan : SuppliedPlan) (effectiveConfig : OrchestrationConfig)
    (startTime : Z) (taskId : string)
    (eventOptions : option OrchestrationEventOptions) : M OrchestrationResult :=
  match plan with
  | PlanWithoutSteps _ =>
      throw (type_error "Cannot read properties of undefined (reading 'length')")
  | PlanValue p =>
      executionResults <<- executeStepsWithEvents (steps p) effectiveConfig startTime
                             taskId eventOptions ;
      _ <<- push_steps executionResults ;
      let failedSteps := filter (fun r => status r = error) executionResults in
      let escalatedSteps := filter (fun r => status r = escalated) executionResults in
      match escalatedSteps with
      | first :: _ =>
          steps <<- get_steps ;
          finishRun taskId eventOptions startTime steps
            (escalationResult
               (pretty (length escalatedSteps) +:+ " step(s) require escalation")
               steps (escalation first))
      | [] =>
          match failedSteps with
          | firstFailed :: _ =>
              if abortOnError effectiveConfig then
                steps <<- get_steps ;
                r <<- errorResult (pretty (length failedSteps) +:+ " step(s) failed")
                        steps (stepError firstFailed) ;
                finishRun taskId eventOptions startTime steps r
              else
                let successfulOutputs :=
                  (fun r => UObj [("stepId", UStr (stepId r));
                                  ("output", encode_output (output r))]) <$>
                  filter (fun r => status r = success) executionResults in
                synthesizerResult <<- runStepWithEvents
                  {| id := "synthesizer";
                     description := "Synthesizer merges step outputs into final result";
                     agentResidence := "Liku/specialist/synthesizer";
                     input := UObj [("stepOutputs", UArr successfulOutputs);
                                    ("plan", encode_plan p)];
                     dependsOn := id <$> steps p;
                     parallel := false |}
                  effectiveConfig startTime taskId eventOptions ;
                _ <<- push_steps [synthesizerResult] ;
                steps <<- get_steps ;
                finishRun taskId eventOptions startTime steps
                  (ResPartial (goalSummary p) steps (output synthesizerResult)
                              (stepId <$> failedSteps))
          | [] =>
              let successfulOutputs :=
                (fun r => UObj [("stepId", UStr (stepId r));
                                ("output", encode_output (output r))]) <$>
                filter (fun r => status r = success) executionResults in
              synthesizerResult <<- runStepWithEvents
                {| id := "synthesizer";
                   description := "Synthesizer merges step outputs into final result";
                   agentResidence := "Liku/specialist/synthesizer";
                   input := UObj [("stepOutputs", UArr successfulOutputs);
                                  ("plan", encode_plan p)];
                   dependsOn := id <$> steps p;
                   parallel := false |}
                effectiveConfig startTime taskId eventOptions ;
              _ <<- push_steps [synthesizerResult] ;
              steps <<- get_steps ;
              finishRun taskId eventOptions startTime steps
                (ResOk (goalSummary p) steps (output synthesizerResult))
          end
      end
  end.

(** The body of the [try] block of [run]. *)
Definition run_body (input : OrchestrationInput) (effectiveConfig : OrchestrationConfig)
    (startTime : Z) (taskId : string)
    (eventOptions : option OrchestrationEventOptions) : M OrchestrationResult :=
  supervisorResult <<- runStepWithEvents
    {| id := "supervisor";
       description := "Supervisor analyzes request and routes to appropriate agents";
       agentResidence := default "Liku/root" (startResidence input);
       input := UObj [("query", UStr (query input))];
       dependsOn := [];
       parallel := false |}
    effectiveConfig startTime taskId eventOptions ;
  _ <<- push_steps [supervisorResult] ;
  if bool_decide (status supervisorResult = error) && abortOnError effectiveConfig then
    steps <<- get_steps ;
    r <<- errorResult "Supervisor failed" steps (stepError supervisorResult) ;
    finishRun taskId eventOptions startTime steps r
  else if bool_decide (status supervisorResult = escalated) then
    steps <<- get_steps ;
    finishRun taskId eventOptions startTime steps
      (escalationResult "Supervisor escalated" steps (escalation supervisorResult))
  else
    parserResult <<- runStepWithEvents
      {| id := "parser";
         description := "Parser normalizes request into structured task";
         agentResidence := "Liku/specialist/parser";
         input := UObj [("query", UStr (query input));
                        ("supervisorAnalysis", encode_output (output supervisorResult))];
         dependsOn := ["supervisor"];
         parallel := false |}
      effectiveConfig startTime taskId eventOptions ;
    _ <<- push_steps [parserResult] ;
    if bool_decide (status parserResult = error) && abortOnError effectiveConfig then
      steps <<- get_steps ;
      r <<- errorResult "Parser failed" steps (stepError parserResult) ;
      finishRun taskId eventOptions startTime steps r
    else
      match plan input with
      | Some supplied =>
          run_plan supplied effectiveConfig startTime taskId eventOptions
      | None =>
          plannerResult <<- runStepWithEvents
            {| id := "planner";
               description := "Planner decomposes goal into executable steps";
               agentResidence := "Liku/specialist/planner";
               input := UObj [("parsedTask", encode_output (output parserResult))];
               dependsOn := ["parser"];
               parallel := false |}
            effectiveConfig startTime taskId eventOptions ;
          _ <<- push_steps [plannerResult] ;
          if bool_decide (status plannerResult = error) && abortOnError effectiveConfig
          then
            steps <<- get_steps ;
            r <<- errorResult "Planner failed" steps (stepError plannerResult) ;
            finishRun taskId eventOptions startTime steps r
          else
            run_plan (PlanValue (parsePlannerOutput (output plannerResult)))
                     effectiveConfig startTime taskId eventOptions
      end.

(** [Orchestrator.run] *)
Definition run (input : OrchestrationInput) : M OrchestrationResult :=
  defaults <<- getDefaultConfig ;
  let config := merge_config defaults (config input) in
  _ <<- reset_steps ;
  startTime <<- ask dateNow ;
  let eventOptions := events input in
  newId <<- call (fun w => let '(u, w') := randomUUID w in (Returned u, w')) ;
  created <<- ask isoNow ;
  taskId <<- on_registry (TaskRegistry.create input newId created) ;
  updated <<- ask isoNow ;
  _ <<- on_registry (TaskRegistry.updateStatus taskId running None updated) ;
  let effectiveConfig :=
    with_abortSignal config
      (match Types.config input ≫= p_abortSignal with
       | Some sg => Some sg
       | None => Some (TaskSignal taskId)
       end) in
  ts <<- ask isoNow ;
  _ <<- emitEvent eventOptions
          (RunStartedEvent ts taskId (query input)
             (default "Liku/root" (startResidence input))) ;
  try_catch
    (run_body input effectiveConfig startTime taskId eventOptions)
    (fun err =>
       let likuErr := toLikuError err in
       steps <<- get_steps ;
       finishRun taskId eventOptions startTime steps
         (ResError (code likuErr) (message likuErr) (details likuErr) steps)).

(** What a computation may add to the log: it ends, by returning a
    value that satisfies [Q] after [onReturn] [run_completed] events, or
    by throwing after [onThrow] of them. *)
Definition emits {A} (Q : A → Prop) (onReturn onThrow : nat) (m : M A) : Prop :=
  ∀ s, match m s with
       | Ret a s' =>
           Q a ∧ ∃ evs, delivered s' = delivered s ++ evs
                        ∧ run_completed_count evs = onReturn
       | Throw _ s' =>
           ∃ evs, delivered s' = delivered s ++ evs ∧ run_completed_count evs = onThrow
       | Diverge => False
       end.

(** A computation that does not end by throwing. *)
Definition never_throws {A} (m : M A) : Prop :=
  ∀ s, match m s with Throw _ _ => False | _ => True end.

(** A computation that ends by returning a value with property [Q]:
    it neither throws nor runs on for ever. *)
Definition returns {A} (Q : A → Prop) (m : M A) : Prop :=
  ∀ s, ∃ a s', m s = Ret a s' ∧ Q a.

End WithCollaborators.

Arguments World : clear implicits.
Arguments Collaborators : clear implicits.
Arguments St : clear implicits.
Arguments M : clear implicits.
Arguments Ret {Env A} a s.
Arguments Throw {Env A} e s.
Arguments Diverge {Env A}.

(** A step result is that of [step] and has the fields of its status. *)
Definition result_of (step : PlanStep) (r : StepResult) : Prop :=
  stepId r = id step
  ∧ stepResidence r = agentResidence step
  ∧ match status r with
    | success => is_Some (output r) ∧ stepError r = None ∧ escalation r = None
    | escalated => is_Some (escalation r) ∧ output r = None ∧ stepError r = None
    | error => is_Some (stepError r) ∧ output r = None ∧ escalation r = None
    | skipped => False
    end.

(** A step result with the fields of its status. *)
Definition well_formed (r : StepResult) : Prop := ∃ step, result_of step r.

(** The ids [ran] list steps in an order that respects the
    dependencies of the plan: whenever a step was run, all its
    dependencies had been run before. *)
Definition dep_ordered (steps : list PlanStep) (ran : list string) : Prop :=
  ∀ pre x post st d,
    ran = pre ++ x :: post → st ∈ steps → id st = x → d ∈ dependsOn st → d ∈ pre.

(** The dependencies of the steps with id [u]. *)
Definition successors (steps : list PlanStep) (u : string) : list string :=
  filter (fun s => id s = u) steps ≫= dependsOn.

End Orchestrator.

(** ** Concrete inputs used by the examples below *)

Module Samples.
Import Js Skills Types.

Definition deploy_skill : LikuSkill :=
  {| Skills.id := "deploy"; Skills.description := None; residencePath := "Liku/root";
     requiredPrivilege := root; requires := Some network_access;
     escalateIfMissing := Some true |}.

Definition read_skill : LikuSkill :=
  {| Skills.id := "read"; Skills.description := None;
     residencePath := "Liku/specialist";
     requiredPrivilege := user; requires := Some read_repo;
     escalateIfMissing := None |}.

Definition fetch_skill : LikuSkill :=
  {| Skills.id := "fetch"; Skills.description := None;
     residencePath := "Liku/specialist";
     requiredPrivilege := specialist; requires := Some network_access;
     escalateIfMissing := None |}.

Definition sample_input : OrchestrationInput :=
  {| query := "Test task"; startResidence := None; plan := None;
     config := None; events := None |}.

Definition sample_registry : TaskRegistry.Registry :=
  (TaskRegistry.create sample_input "task-1" "2026-01-01T00:00:00.000Z"
     (TaskRegistry.new_registry 1000)).2.

Definition ok_result : OrchestrationResult := ResOk "Done" [] None.

Definition error_result : OrchestrationResult :=
  ResError INTERNAL "Something went wrong" UUndefined [].

Definition partial_result : OrchestrationResult := ResPartial "Some" [] None ["s1"].

Definition plan_step (i : string) (deps : list string) (par : bool) : PlanStep :=
  {| id := i; description := "work"; agentResidence := "Liku/specialist/ts";
     input := UUndefined; dependsOn := deps; parallel := par |}.

Definition plan_of (ss : list PlanStep) : PlanValidator.ExtendedPlannerOutput :=
  {| PlanValidator.base := {| goalSummary := "goal"; steps := ss;
                              constraints := []; risks := [] |};
     PlanValidator.escalationRequests := None |}.

(** The cyclic plan of the test suite: a needs c, b needs a, c needs b. *)
Definition cyclic_plan : PlanValidator.ExtendedPlannerOutput :=
  plan_of [plan_step "a" ["c"] false; plan_step "b" ["a"] false;
           plan_step "c" ["b"] false].

(** A valid plan whose last step lists its dependencies out of order. *)
Definition unsorted_plan : PlanValidator.ExtendedPlannerOutput :=
  plan_of [plan_step "a" [] false; plan_step "b" [] false;
           plan_step "c" ["b"; "a"] false].

(** Two steps share the id a; the first depends on itself. *)
Definition duplicate_id_plan : PlanValidator.ExtendedPlannerOutput :=
  plan_of [plan_step "a" ["a"] false; plan_step "a" [] false].

Definition one_step_limit : PlanValidator.PartialPlanConstraints :=
  {| PlanValidator.p_maxSteps := Some 2; PlanValidator.p_maxParallelism := None;
     PlanValidator.p_allowedCapabilities := None;
     PlanValidator.p_allowEscalationRequests := None;
     PlanValidator.p_skillsIndex := None |}.

(** A comparator for the examples: code-unit order. *)
Definition byte_compare (a b : string) : Z :=
  match String.compare a b with
  | Lt => -1
  | Eq => 0
  | Gt => 1
  end.

Definition raw_skill (i privilege description : string) : Loader.ParsedSkill :=
  {| Loader.raw_id := Loader.RawString i; Loader.raw_privilege := Loader.RawString privilege;
     Loader.raw_description := Loader.RawString description;
     Loader.raw_requires := Loader.RawUndefined;
     Loader.raw_escalateIfMissing := Loader.RawUndefined |}.

Definition liku_root : Loader.Path := ["repo"; "Liku"].
Definition ts_residence : Loader.Path := ["repo"; "Liku"; "specialist"; "ts"].

(** Two declaration files: one at the trust root, one at the residence;
    both declare [shared_skill]. *)
Definition sample_fs : Loader.FileSystem := fun p =>
  if decide (p = ["repo"; "Liku"; "skills.xml"]) then
    Some (Loader.Document
            {| Loader.doc_skills :=
                 Some (Loader.ManySkills [raw_skill "zeta" "root" "Z";
                                          raw_skill "shared_skill" "root" "Root version"]) |})
  else if decide (p = ["repo"; "Liku"; "specialist"; "ts"; "skills.xml"]) then
    Some (Loader.Document
            {| Loader.doc_skills :=
                 Some (Loader.ManySkills [raw_skill "shared_skill" "specialist" "TS override";
                                          raw_skill "alpha" "user" "A"]) |})
  else None.

(** [localeCompare] as the collation of the host orders strings of
    ASCII letters: by the letters without regard to case; between
    strings that differ in case only, the one with the lower-case
    letter at the first difference comes first. *)
Definition to_lower (c : ascii) : ascii :=
  let n := nat_of_ascii c in
  if ((65 <=? n) && (n <=? 90))%nat then ascii_of_nat (n + 32) else c.

Fixpoint lower_case (s : string) : string :=
  match s with
  | EmptyString => EmptyString
  | String c s' => String (to_lower c) (lower_case s')
  end.

Definition collation_compare (a b : string) : Z :=
  match String.compare (lower_case a) (lower_case b) with
  | Lt => -1
  | Gt => 1
  | Eq => match String.compare b a with
          | Lt => -1
          | Eq => 0
          | Gt => 1
          end
  end.


(** A declaration file above the residence with [<skill id/>]: the
    parser returns [true] for the attribute. *)
Definition boolean_id_fs : Loader.FileSystem := fun p =>
  if decide (p = ["repo"; "Liku"; "skills.xml"]) then
    Some (Loader.Document
            {| Loader.doc_skills :=
                 Some (Loader.OneSkill
                   {| Loader.raw_id := Loader.RawBool true;
                      Loader.raw_privilege := Loader.RawUndefined;
                      Loader.raw_description := Loader.RawUndefined;
                      Loader.raw_requires := Loader.RawUndefined;
                      Loader.raw_escalateIfMissing := Loader.RawUndefined |}) |})
  else None.

(** [skills.xml] at the trust root is a directory. *)
Definition unreadable_fs : Loader.FileSystem := fun p =>
  if decide (p = ["repo"; "Liku"; "skills.xml"]) then Some Loader.Unreadable else None.



Definition sample_bundle : AgentBundle :=
  {| bundleResidence := "Liku/root"; bundleSkills := [];
     paperTrail := {| todoPath := "test/todo.md"; errorsPath := "test/errors.md" |};
     prompts := {| system := "You are a test agent";
                   instructions := "Execute the task" |} |}.

Definition tick (w : Orchestrator.World nat) : Orchestrator.World nat :=
  {| Orchestrator.env := S (Orchestrator.env w);
     Orchestrator.registry := Orchestrator.registry w |}.

(** Collaborators in the style of the mock engine of the test suite:
    no LLM is configured, the clock advances by one at every engine call,
    and [engine] answers the bundle requests. *)
Definition mock_host
    (engine : string → Unknown → Orchestrator.World nat
              → Orchestrator.Outcome Orchestrator.InvokeResult * Orchestrator.World nat)
  : Orchestrator.Collaborators nat :=
  {| Orchestrator.host_dateNow := fun w => Z.of_nat (Orchestrator.env w);
     Orchestrator.host_isoNow := fun _ => "2026-01-01T00:00:00.000Z";
     Orchestrator.host_randomUUID := fun w => ("task-1", w);
     Orchestrator.host_llmConfigured := fun _ => false;
     Orchestrator.host_invokeAgentSafe := engine;
     Orchestrator.host_llmGenerate :=
       fun _ w => (Orchestrator.Raised (Orchestrator.ThrownValue UUndefined), w) |}.

(** The engine reports an escalation for the parser residence and a
    bundle for every other residence. *)
Definition parser_escalates (residence : string) (task : Unknown)
    (w : Orchestrator.World nat)
  : Orchestrator.Outcome Orchestrator.InvokeResult * Orchestrator.World nat :=
  (if decide (residence = "Liku/specialist/parser")
   then Orchestrator.Returned
          (Orchestrator.InvokeEscalation "network_access" "fetch remote schema"
             residence "Liku/root/policy.md")
   else Orchestrator.Returned (Orchestrator.InvokeOk sample_bundle),
   tick w).

(** While the engine works on a request, someone cancels the task
    through the registry. *)
Definition cancelled_meanwhile (residence : string) (task : Unknown)
    (w : Orchestrator.World nat)
  : Orchestrator.Outcome Orchestrator.InvokeResult * Orchestrator.World nat :=
  (Orchestrator.Returned (Orchestrator.InvokeOk sample_bundle),
   {| Orchestrator.env := S (Orchestrator.env w);
      Orchestrator.registry :=
        (TaskRegistry.cancel "task-1" "2026-01-01T00:00:05.000Z"
           (Orchestrator.registry w)).2 |}).

(** The engine call throws. *)
Definition engine_throws (residence : string) (task : Unknown)
    (w : Orchestrator.World nat)
  : Orchestrator.Outcome Orchestrator.InvokeResult * Orchestrator.World nat :=
  (Orchestrator.Raised (Orchestrator.ThrownError "Error" "disk full" "at engine"
                          UUndefined), tick w).

Definition all_events : OrchestrationEventOptions :=
  {| onEvent := true; emitStepStarted := None; emitStepCompleted := None;
     emitEscalation := None; emitElicitation := None |}.

Definition observed_input : OrchestrationInput :=
  {| query := "Need escalation"; startResidence := None; plan := None;
     config := None; events := Some all_events |}.

(** A caller-supplied plan object without a [steps] array. *)
Definition broken_plan_input : OrchestrationInput :=
  {| query := "Run my plan"; startResidence := None;
     plan := Some (PlanWithoutSteps "goal"); config := None;
     events := Some all_events |}.

Definition initial_state : Orchestrator.St nat :=
  {| Orchestrator.world := {| Orchestrator.env := O;
                              Orchestrator.registry := TaskRegistry.new_registry 1000 |};
     Orchestrator.delivered := []; Orchestrator.collected := [] |}.

End Samples.

(** * Properties *)

(** ** Comparisons of numbers *)

Section NumberFacts.
Import Js.

Lemma num_ge_of_Z (a b : Z) : num_ge a b = bool_decide (b ≤ a).
Proof.
  unfold num_ge, num_le, of_Z. destruct (Qle_bool _ _) eqn:E.
  - apply Qle_bool_iff in E. rewrite <- Zle_Qle in E. by rewrite bool_decide_eq_true_2.
  - rewrite bool_decide_eq_false_2; [done|]. intros H.
    rewrite Zle_Qle, <- Qle_bool_iff in H. congruence.
Qed.

Lemma num_lt_of_Z (a b : Z) : num_lt a b = bool_decide (a < b).
Proof.
  unfold num_lt, of_Z. destruct (Qle_bool _ _) eqn:E; cbn [negb].
  - apply Qle_bool_iff in E. rewrite <- Zle_Qle in E.
    rewrite bool_decide_eq_false_2; [done|lia].
  - rewrite bool_decide_eq_true_2; [done|]. apply Z.nle_gt. intros H.
    rewrite Zle_Qle, <- Qle_bool_iff in H. congruence.
Qed.

Lemma num_gt_of_Z (a b : Z) : num_gt a b = bool_decide (b < a).
Proof. apply num_lt_of_Z. Qed.

(** The test [n >= c] stays true as [n] grows. *)
Lemma num_ge_mono (a b : Z) (c : JsNumber) :
  a ≤ b → num_ge a c = true → num_ge b c = true.
Proof.
  unfold num_ge, num_le, of_Z. intros Hab. destruct c as [q| | |]; try done.
  rewrite !Qle_bool_iff. intros H. eapply Qle_trans; [exact H|]. by rewrite <- Zle_Qle.
Qed.

Lemma num_ge_Finite (a : Z) (q : Q) :
  num_ge a (Finite q) = false ↔ (inject_Z a < q)%Q.
Proof.
  unfold num_ge, num_le, of_Z. rewrite <- not_true_iff_false, Qle_bool_iff.
  split; [apply Qnot_le_lt|apply Qlt_not_le].
Qed.

Lemma within_capacity_mono (c : JsNumber) (n n' : Z) :
  n' ≤ n → Limiter.within_capacity c n → Limiter.within_capacity c n'.
Proof.
  intros Hle [H|H]; [left; lia|right].
  destruct (num_ge (n' - 1) c) eqn:E; [|done].
  apply (num_ge_mono _ (n - 1)) in E; [congruence|lia].
Qed.

Lemma within_capacity_of_Z (m n : Z) :
  1 ≤ m → Limiter.within_capacity m n → n ≤ m.
Proof.
  intros Hm [H|H]; [lia|]. rewrite num_ge_of_Z in H.
  apply bool_decide_eq_false in H. lia.
Qed.
End NumberFacts.

(** ** Strings *)

Section StringFacts.
Import Js.

Lemma app_String c a b : String c a +:+ b = String c (a +:+ b).
Proof. reflexivity. Qed.

Lemma app_empty_l b : EmptyString +:+ b = b.
Proof. reflexivity. Qed.

Lemma app_empty_r a : a +:+ EmptyString = a.
Proof. induction a as [|c a IH]; [done|]. by rewrite app_String, IH. Qed.

Lemma app_assoc_s a b c : (a +:+ b) +:+ c = a +:+ (b +:+ c).
Proof. induction a as [|x a IH]; [done|]. by rewrite !app_String, IH. Qed.



End StringFacts.

(** ** Privilege and skill model *)

Section SkillFacts.
Import Js Skills.




(** C2.  [validateSkillExecution] checks the privilege first: a
    required privilege above the current one is rejected as
    insufficient_privilege whatever capability the skill asks for; with
    sufficient privilege, a required capability that the privilege
    does not grant gives missing_capability, with [escalate] taken from
    [escalateIfMissing] (false when absent); otherwise the skill is
    allowed. *)
Theorem validateSkillExecution_privilege_first (skill : LikuSkill) (current : Privilege) :
  (priv_lt current (requiredPrivilege skill) →
     validateSkillExecution skill current
     = InsufficientPrivilege (requiredPrivilege skill) current) ∧
  (¬ priv_lt current (requiredPrivilege skill) →
     ∀ cap, requires skill = Some cap → cap ∉ PRIVILEGE_CAPABILITIES current →
     validateSkillExecution skill current
     = MissingCapability cap (default false (escalateIfMissing skill))) ∧
  (¬ priv_lt current (requiredPrivilege skill) →
     (∀ cap, requires skill = Some cap → cap ∈ PRIVILEGE_CAPABILITIES current) →
     validateSkillExecution skill current = Allowed).
Proof.
  unfold validateSkillExecution.
  assert (Hlt : Js.indexOf privilegeOrder current
                < Js.indexOf privilegeOrder (requiredPrivilege skill)
                ↔ priv_lt current (requiredPrivilege skill)).
  { destruct current, (requiredPrivilege skill); vm_compute;
      split; intros H; try discriminate H; try constructor; inversion H. }
  destruct (decide _) as [Hd|Hd].
  - apply Hlt in Hd. split; [done|]. split; done.
  - assert (Hn : ¬ priv_lt current (requiredPrivilege skill)) by (by rewrite <- Hlt).
    split; [done|]. split.
    + intros _ cap Hreq Hnot. rewrite Hreq. unfold hasCapability.
      by rewrite bool_decide_eq_false_2.
    + intros _ Hall. destruct (requires skill) as [cap|]; [|done].
      unfold hasCapability. by rewrite bool_decide_eq_true_2 by by apply Hall.
Qed.

Lemma validateSkillExecution_privilege_first_witness :
  validateSkillExecution Samples.deploy_skill specialist
  = InsufficientPrivilege root specialist
  ∧ validateSkillExecution Samples.fetch_skill specialist
    = MissingCapability network_access false.
Proof.
  split.
  - apply (proj1 (validateSkillExecution_privilege_first Samples.deploy_skill specialist)).
    simpl. constructor.
  - apply (proj1 (proj2 (validateSkillExecution_privilege_first
                           Samples.fetch_skill specialist))).
    + simpl. intros H. inversion H.
    + reflexivity.
    + simpl. intros H. repeat (apply elem_of_cons in H as [H|H]; [discriminate H|]).
      by apply elem_of_nil in H.
Defined.
End SkillFacts.

(** ** Task registry *)

Section RegistryFacts.
Import Js Types TaskRegistry.

Lemma map_get_set_eq {V} (k : string) (v : V) m : map_get k (map_set k v m) = Some v.
Proof.
  induction m as [|[k' v'] m IH]; simpl.
  - by rewrite decide_True.
  - destruct (decide (k' = k)) as [->|Hne]; simpl.
    + by rewrite decide_True.
    + by rewrite decide_False.
Qed.

Lemma map_get_set_ne {V} (k k' : string) (v : V) m :
  k ≠ k' → map_get k' (map_set k v m) = map_get k' m.
Proof.
  intros Hne. induction m as [|[k0 v0] m IH]; simpl.
  - by rewrite decide_False.
  - destruct (decide (k0 = k)) as [->|Hne0]; simpl.
    + by rewrite !decide_False.
    + destruct (decide (k0 = k')); [done|apply IH].
Qed.

Lemma isTerminal_spec s :
  isTerminal s = true ↔ s = completed ∨ s = failed ∨ s = cancelled.
Proof. destruct s; vm_compute; intuition discriminate. Qed.

(** On a task that is already terminal, [setResult] changes nothing. *)
Lemma setResult_terminal_frame id res now r task :
  get id r = Some task → isTerminal (taskStatus task) = true →
  (setResult id res now r).2 = r.
Proof.
  unfold get, setResult. intros -> ->. by destruct (taskResult task).
Qed.

Lemma setResult_first id res now r task :
  get id r = Some task → isTerminal (taskStatus task) = false →
  ∃ task',
    setResult id res now r = (Success false, with_tasks r (map_set id task' (tasks r)))
    ∧ taskResult task' = Some res
    ∧ taskStatus task' = (if decide (kind res = error_kind) then failed else completed).
Proof.
  unfold get, setResult. intros -> ->. eexists. split; [reflexivity|]. done.
Qed.

Lemma setResult_again id res now r task :
  get id r = Some task → isTerminal (taskStatus task) = true →
  is_Some (taskResult task) →
  setResult id res now r = (Success true, r).
Proof.
  unfold get, setResult. intros -> -> [x ->]. done.
Qed.

(** C4.  For a pending task the first [setResult] succeeds, is not
    idempotent and stores the result; every later [setResult] on the
    task reports idempotent success and leaves the registry, hence the
    stored result and the status, as they were.  On any terminal task
    (completed, failed or cancelled) [setResult] changes nothing. *)
Theorem setResult_idempotent (r : Registry) (id : string) (task : TaskState)
    (res : OrchestrationResult) (now : string) :
  get id r = Some task → taskStatus task = pending →
  ∃ r1 task1,
    setResult id res now r = (Success false, r1)
    ∧ get id r1 = Some task1 ∧ taskResult task1 = Some res
    ∧ (∀ calls, setResult_seq id calls r1
                = (replicate (length calls) (Success true), r1))
    ∧ (∀ r' id' t res' now',
         get id' r' = Some t →
         taskStatus t = completed ∨ taskStatus t = failed ∨ taskStatus t = cancelled →
         (setResult id' res' now' r').2 = r').
Proof.
  intros Hget Hpending.
  destruct (setResult_first id res now r task Hget) as (task1 & Hset & Hres & Hst).
  { by rewrite Hpending. }
  exists (with_tasks r (map_set id task1 (tasks r))), task1.
  assert (Hget1 : get id (with_tasks r (map_set id task1 (tasks r))) = Some task1).
  { unfold get. simpl. apply map_get_set_eq. }
  assert (Hterm1 : isTerminal (taskStatus task1) = true).
  { rewrite Hst. by destruct (decide _). }
  split; [done|]. split; [done|]. split; [done|]. split.
  - intros calls. induction calls as [|[res' now'] calls IH]; [done|].
    simpl. rewrite (setResult_again _ _ _ _ task1), IH; [done..|].
    by rewrite Hres.
  - intros r' id' t res' now' Hget' Ht.
    apply (setResult_terminal_frame _ _ _ _ t); [done|]. by apply isTerminal_spec.
Qed.

Lemma setResult_idempotent_witness :
  ∃ r1 task1,
    setResult "task-1" Samples.ok_result "2026-01-01T00:00:01.000Z" Samples.sample_registry
    = (Success false, r1)
    ∧ get "task-1" r1 = Some task1 ∧ taskResult task1 = Some Samples.ok_result
    ∧ setResult "task-1" Samples.error_result "2026-01-01T00:00:02.000Z" r1
      = (Success true, r1).
Proof.
  destruct (setResult_idempotent Samples.sample_registry "task-1"
              {| taskId := "task-1"; createdAt := "2026-01-01T00:00:00.000Z";
                 updatedAt := "2026-01-01T00:00:00.000Z"; taskStatus := pending;
                 taskInput := Samples.sample_input; taskResult := None;
                 currentStep := None |}
              Samples.ok_result "2026-01-01T00:00:01.000Z")
    as (r1 & task1 & H1 & H2 & H3 & H4 & _).
  - reflexivity.
  - reflexivity.
  - exists r1, task1. split; [done|]. split; [done|]. split; [done|].
    specialize (H4 [(Samples.error_result, "2026-01-01T00:00:02.000Z")]).
    simpl in H4. destruct (setResult _ _ _ r1) as [o r2].
    by inversion H4.
Defined.

(** C10.  For a task that is pending or running, [setResult] stores
    the result and derives the status from its kind alone: failed
    exactly when the kind is error, completed for every other kind. *)
Theorem setResult_status_from_kind (r : Registry) (id : string) (task : TaskState)
    (res : OrchestrationResult) (now : string) :
  get id r = Some task →
  taskStatus task = pending ∨ taskStatus task = running →
  ∃ task',
    get id (setResult id res now r).2 = Some task'
    ∧ taskResult task' = Some res
    ∧ (taskStatus task' = failed ↔ kind res = error_kind)
    ∧ (taskStatus task' = completed ↔ kind res ≠ error_kind).
Proof.
  intros Hget Hst.
  destruct (setResult_first id res now r task Hget) as (task' & Hset & Hres & Hst').
  { by destruct Hst as [-> | ->]. }
  exists task'. rewrite Hset. simpl. split.
  { unfold get. simpl. apply map_get_set_eq. }
  split; [done|]. rewrite Hst'.
  destruct (decide (kind res = error_kind)); split; split; done.
Qed.

Lemma setResult_status_from_kind_witness :
  ∃ task',
    get "task-1" (setResult "task-1" Samples.partial_result "2026-01-01T00:00:01.000Z"
                    Samples.sample_registry).2 = Some task'
    ∧ taskResult task' = Some Samples.partial_result
    ∧ taskStatus task' = completed.
Proof.
  destruct (setResult_status_from_kind Samples.sample_registry "task-1"
              {| taskId := "task-1"; createdAt := "2026-01-01T00:00:00.000Z";
                 updatedAt := "2026-01-01T00:00:00.000Z"; taskStatus := pending;
                 taskInput := Samples.sample_input; taskResult := None;
                 currentStep := None |}
              Samples.partial_result "2026-01-01T00:00:01.000Z")
    as (task' & H1 & H2 & _ & H4).
  - reflexivity.
  - left. reflexivity.
  - exists task'. split; [done|]. split; [done|]. apply H4. discriminate.
Defined.
End RegistryFacts.

(** ** Plan validator *)

Section SortFacts.
Import Js.
Context {A : Type} (le : A → A → bool).

Lemma insert_sorted_perm x l : insert_sorted le x l ≡ₚ x :: l.
Proof.
  induction l as [|y l IH]; simpl; [done|].
  destruct (le x y); [done|]. rewrite IH. apply Permutation_swap.
Qed.

Lemma sort_perm l : sort le l ≡ₚ l.
Proof.
  induction l as [|x l IH]; simpl; [done|].
  by rewrite insert_sorted_perm, IH.
Qed.

Lemma elem_of_sort x l : x ∈ sort le l ↔ x ∈ l.
Proof. by rewrite sort_perm. Qed.


End SortFacts.


Section DfsFacts.
Import Js Types PlanValidator.
Variable steps : list PlanStep.


Local Notation edge := (edge steps).
Local Notation closed := (closed steps).
Local Notation dfs_inv := (dfs_inv steps).
Local Notation cycle_shape := (cycle_shape steps).
Local Notation dfs_post := (dfs_post steps).

Lemma closed_rtc S u w : closed S → u ∈ S → rtc edge u w → w ∈ S.
Proof. intros Hc Hu Hr. induction Hr; eauto. Qed.

Lemma chain_app_edge R l a b :
  chain R (l ++ [a]) → R a b → chain R ((l ++ [a]) ++ [b]).
Proof.
  intros Hc Hab. induction l as [|x l IH]; simpl in *; [done|].
  destruct l as [|y l]; simpl in *.
  - destruct Hc. done.
  - destruct Hc as [Hxy Hc]. split; [done|]. by apply IH.
Qed.

Lemma chain_suffix R l1 l2 : chain R (l1 ++ l2) → chain R l2.
Proof.
  induction l1 as [|x l1 IH]; simpl; [done|].
  destruct (l1 ++ l2) eqn:E; [|intros [_ H]; by apply IH].
  intros _. apply app_eq_nil in E as [_ ->]. done.
Qed.

Lemma dfs_add_finished v st :
  dfs_inv st → v ∈ visiting st → v ∈ stepIds steps →
  (∀ w, edge v w → w ∈ visited st) →
  dfs_inv {| visiting := visiting st ∖ {[v]}; visited := {[v]} ∪ visited st |}.
Proof.
  intros [Hsub Hdisj Hcl Hac] Hv Hvid Hsucc. split; simpl.
  - set_solver.
  - set_solver.
  - intros u w Hu Huw. apply elem_of_union in Hu as [Hu|Hu].
    + apply elem_of_singleton in Hu as ->. apply elem_of_union_r. by apply Hsucc.
    + apply elem_of_union_r. by apply (Hcl u).
  - intros u Hu Hcyc. apply elem_of_union in Hu as [Hu|Hu].
    + apply elem_of_singleton in Hu as ->.
      assert (∃ w, edge v w ∧ rtc edge w v) as (w & Hvw & Hwv).
      { inversion Hcyc; subst; eauto using rtc_refl, tc_rtc. }
      assert (v ∈ visited st) by (eapply closed_rtc; eauto).
      set_solver.
    + by apply (Hac u).
Qed.

Lemma size_visiting_step (V : gset string) v fuel :
  v ∈ stepIds steps → v ∉ V →
  (size (stepIds steps ∖ V) < S fuel)%nat →
  (size (stepIds steps ∖ ({[v]} ∪ V)) < fuel)%nat.
Proof.
  intros Hv HvV Hlt.
  assert (stepIds steps ∖ ({[v]} ∪ V) ⊂ stepIds steps ∖ V) as Hsub.
  { apply strict_spec_alt. split; [set_solver|].
    intros Heq. assert (v ∈ stepIds steps ∖ V) as Hin by set_solver.
    rewrite <- Heq in Hin. set_solver. }
  apply subset_size in Hsub. lia.
Qed.

Section Loop.
Variables (fuel : nat) (v : string) (path : list string).

Hypothesis rec_spec :
  ∀ d st,
    d ∈ stepIds steps → dfs_inv st →
    (size (stepIds steps ∖ visiting st) < fuel)%nat →
    list_to_set (path ++ [v]) = visiting st →
    chain edge ((path ++ [v]) ++ [d]) →
    ∃ r, dfs steps fuel d (path ++ [v]) st = Some r ∧ dfs_post d st r.

Lemma dfs_deps_spec deps st :
  (∀ d, d ∈ deps → d ∈ stepIds steps → edge v d) →
  dfs_inv st →
  (size (stepIds steps ∖ visiting st) < fuel)%nat →
  list_to_set (path ++ [v]) = visiting st →
  chain edge (path ++ [v]) →
  ∃ r, dfs_deps (fun dep => dfs steps fuel dep (path ++ [v]))
                (stepIds steps) deps st = Some r
       ∧ match r.1 with
         | Some c => cycle_shape c
         | None => visiting r.2 = visiting st ∧ visited st ⊆ visited r.2
                   ∧ (∀ d, d ∈ deps → d ∈ stepIds steps → d ∈ visited r.2)
                   ∧ dfs_inv r.2
         end.
Proof.
  intros Hedge. revert st.
  induction deps as [|d deps IH]; intros st Hinv Hfuel Hpath Hchain; simpl.
  { eexists. split; [done|]. simpl. split; [done|]. split; [done|].
    split; [|done]. intros d Hd. by apply elem_of_nil in Hd. }
  assert (Hedge' : ∀ d', d' ∈ deps → d' ∈ stepIds steps → edge v d').
  { intros d' Hd'. apply Hedge. by apply elem_of_cons; right. }
  case_bool_decide as Hd.
  - destruct (rec_spec d st) as ([[c|] st'] & Hrun & Hpost); try done.
    { apply chain_app_edge; [done|]. apply Hedge; [|done]. by apply elem_of_cons; left. }
    + rewrite Hrun. eexists. split; [done|]. done.
    + rewrite Hrun. unfold dfs_post in Hpost. simpl in Hpost.
      destruct Hpost as (Hvis & Hsub & Hdin & Hinv').
      destruct (IH Hedge' st') as (r & Hr & Hpost'); try done.
      { by rewrite Hvis. }
      { by rewrite Hvis. }
      exists r. split; [done|]. destruct (r.1); [done|].
      destruct Hpost' as (Hvis' & Hsub' & Hall & Hinv'').
      split; [congruence|]. split; [set_solver|]. split; [|done].
      intros d' Hd' Hid. apply elem_of_cons in Hd' as [->|Hd']; [set_solver|].
      by apply Hall.
  - destruct (IH Hedge' st) as (r & Hr & Hpost'); try done.
    exists r. split; [done|]. destruct (r.1); [done|].
    destruct Hpost' as (Hvis' & Hsub' & Hall & Hinv'').
    split; [done|]. split; [done|]. split; [|done].
    intros d' Hd' Hid. apply elem_of_cons in Hd' as [->|Hd']; [done|].
    by apply Hall.
Qed.
End Loop.

Lemma dfs_spec fuel v path st :
  v ∈ stepIds steps → dfs_inv st →
  (size (stepIds steps ∖ visiting st) < fuel)%nat →
  list_to_set path = visiting st →
  chain edge (path ++ [v]) →
  ∃ r, dfs steps fuel v path st = Some r ∧ dfs_post v st r.
Proof.
  revert v path st.
  induction fuel as [|fuel IH]; intros v path st Hv Hinv Hfuel Hpath Hchain; [lia|].
  simpl. case_bool_decide as Hvis.
  { eexists. split; [done|]. unfold dfs_post. simpl.
    rewrite <- Hpath in Hvis. apply elem_of_list_to_set in Hvis.
    apply list_elem_of_split in Hvis as (l1 & l2 & ->).
    exists l1, v, l2. split.
    - by rewrite <- app_assoc.
    - rewrite <- app_assoc in Hchain. by apply chain_suffix in Hchain. }
  case_bool_decide as Hdone.
  { eexists. split; [done|]. unfold dfs_post. simpl. done. }
  set (st1 := {| visiting := {[v]} ∪ visiting st; visited := visited st |}).
  assert (Hinv1 : dfs_inv st1).
  { destruct Hinv as [H1 H2 H3 H4]. split; simpl; [set_solver|set_solver|done|done]. }
  assert (Hfuel1 : (size (stepIds steps ∖ visiting st1) < fuel)%nat).
  { by apply size_visiting_step. }
  assert (Hpath1 : list_to_set (path ++ [v]) = visiting st1).
  { simpl. rewrite list_to_set_app_L, Hpath. set_solver. }
  assert (Hfinish : ∀ st2,
    visiting st2 = visiting st1 → visited st ⊆ visited st2 → dfs_inv st2 →
    (∀ w, edge v w → w ∈ visited st2) →
    dfs_post v st (None, {| visiting := visiting st2 ∖ {[v]};
                            visited := {[v]} ∪ visited st2 |})).
  { intros st2 Hvis2 Hsub2 Hinv2 Hsucc. unfold dfs_post. simpl.
    split; [rewrite Hvis2; simpl; set_solver|]. split; [set_solver|].
    split; [set_solver|]. apply dfs_add_finished; try done.
    rewrite Hvis2. simpl. set_solver. }
  destruct (stepMap steps !! v) as [step|] eqn:Hstep.
  - destruct (dfs_deps_spec fuel v path (fun d st' => IH d (path ++ [v]) st') (dependsOn step) st1)
      as ([[c|] st2] & Hrun & Hpost); try done.
    { intros d Hd Hid. by exists step. }
    + rewrite Hrun. eexists. split; [done|]. done.
    + rewrite Hrun. eexists. split; [done|]. simpl in Hpost.
      destruct Hpost as (Hvis2 & Hsub2 & Hall & Hinv2).
      apply Hfinish; try done.
      intros w (s & Hs & Hw & Hwid). rewrite Hstep in Hs. inversion Hs; subst s.
      by apply Hall.
  - eexists. split; [done|]. apply (Hfinish st1); try done.
    intros w (s & Hs & _). rewrite Hstep in Hs. done.
Qed.
End DfsFacts.

Section CycleFacts.
Import Js Types PlanValidator.

Lemma stepMap_snoc l x : stepMap (l ++ [x]) = <[id x := x]> (stepMap l).
Proof. unfold stepMap. by rewrite foldl_app. Qed.

Lemma stepMap_Some steps a s :
  stepMap steps !! a = Some s → s ∈ steps ∧ id s = a.
Proof.
  induction steps as [|x l IH] using rev_ind; [done|].
  rewrite stepMap_snoc. destruct (decide (id x = a)) as [<-|Hne].
  - rewrite lookup_insert_eq. intros [= <-]. split; [|done].
    apply elem_of_app. right. by apply list_elem_of_singleton.
  - rewrite lookup_insert_ne by done. intros H. apply IH in H as [H1 H2].
    split; [|done]. apply elem_of_app. by left.
Qed.

Lemma stepMap_lookup steps s :
  NoDup (id <$> steps) → s ∈ steps → stepMap steps !! id s = Some s.
Proof.
  induction steps as [|x l IH] using rev_ind; intros Hnd Hs.
  { by apply elem_of_nil in Hs. }
  rewrite fmap_app in Hnd. apply NoDup_app in Hnd as (Hnd & Hfresh & _).
  rewrite stepMap_snoc. apply elem_of_app in Hs as [Hs|Hs].
  - rewrite lookup_insert_ne; [by apply IH|].
    intros Heq. apply (Hfresh (id s)).
    + apply list_elem_of_fmap. by exists s.
    + simpl. rewrite Heq. by apply list_elem_of_singleton.
  - apply list_elem_of_singleton in Hs as ->. by rewrite lookup_insert_eq.
Qed.

Lemma elem_of_stepIds steps a : a ∈ stepIds steps ↔ a ∈ id <$> steps.
Proof. unfold stepIds. by rewrite elem_of_list_to_set. Qed.

Lemma size_list_to_set_le (l : list string) :
  (size (list_to_set l : gset string) ≤ length l)%nat.
Proof.
  induction l as [|a l IH]; [by rewrite list_to_set_nil, size_empty|].
  rewrite list_to_set_cons. cbn [length].
  destruct (decide (a ∈ (list_to_set l : gset string))) as [Hin|Hout].
  - assert (({[a]} ∪ list_to_set l : gset string) = list_to_set l) as -> by set_solver.
    lia.
  - rewrite size_union by set_solver. rewrite size_singleton. lia.
Qed.

Lemma size_stepIds steps : (size (stepIds steps) ≤ length steps)%nat.
Proof.
  unfold stepIds. etrans; [apply size_list_to_set_le|]. by rewrite length_fmap.
Qed.

Lemma edge_depends steps a b :
  NoDup (id <$> steps) → edge steps a b ↔ depends steps a b.
Proof.
  intros Hnd. split.
  - intros (s & Hs & Hb & Hid). apply stepMap_Some in Hs as [Hs <-].
    exists s. split; [done|]. split; [done|]. split; [done|].
    by apply elem_of_stepIds.
  - intros (s & Hs & <- & Hb & Hid). exists s. split; [by apply stepMap_lookup|].
    split; [done|]. by apply elem_of_stepIds.
Qed.

Lemma group_by_dependencies_steps steps groups :
  (group_by_dependencies steps groups).1 = normalize_step <$> steps.
Proof.
  revert groups. induction steps as [|s steps IH]; intros groups; simpl; [done|].
  specialize (IH (map_set (join "," (sort_strings (dependsOn s)))
                    (default [] (map_get (join "," (sort_strings (dependsOn s))) groups)
                     ++ [with_dependsOn s (sort_strings (dependsOn s))]) groups)).
  destruct (group_by_dependencies steps _) as [rest' groups']. simpl in *.
  by rewrite IH.
Qed.

Lemma checkParallelism_steps steps maxPar :
  (checkParallelism steps maxPar).2 = normalize_step <$> steps.
Proof.
  unfold checkParallelism. rewrite <- (group_by_dependencies_steps steps []).
  by destruct (group_by_dependencies steps []).
Qed.

Lemma normalize_ids (steps : list PlanStep) :
  id <$> (normalize_step <$> steps) = id <$> steps.
Proof. rewrite <- list_fmap_compose. by apply list_fmap_ext. Qed.

Lemma depends_normalize (steps : list PlanStep) a b :
  depends (normalize_step <$> steps) a b ↔ depends steps a b.
Proof.
  unfold depends. rewrite normalize_ids. split.
  - intros (s' & Hs' & Hid & Hb & Hin).
    apply list_elem_of_fmap in Hs' as (s & -> & Hs).
    exists s. split; [done|]. split; [done|]. split; [|done].
    simpl in Hb. unfold sort_strings in Hb. by apply elem_of_sort in Hb.
  - intros (s & Hs & Hid & Hb & Hin).
    exists (normalize_step s). split; [apply list_elem_of_fmap; by exists s|].
    split; [done|]. split; [|done].
    simpl. unfold sort_strings. by apply elem_of_sort.
Qed.

Lemma chain_impl (R1 R2 : relation string) l :
  (∀ a b, R1 a b → R2 a b) → chain R1 l → chain R2 l.
Proof.
  intros HR. induction l as [|a [|b l] IH]; simpl; try done.
  intros [Hab Hc]. split; [by apply HR|]. by apply IH.
Qed.

Lemma tc_impl (R1 R2 : relation string) a b :
  (∀ a b, R1 a b → R2 a b) → tc R1 a b → tc R2 a b.
Proof. intros HR. induction 1; [apply tc_once|eapply tc_l]; eauto. Qed.

Lemma names_join pre sep x l : x ∈ l → names (pre +:+ join sep l) x.
Proof.
  intros Hx. revert pre. induction l as [|y l IH]; intros pre.
  { by apply elem_of_nil in Hx. }
  apply elem_of_cons in Hx as [->|Hx].
  - destruct l as [|z l]; simpl.
    + exists pre, EmptyString. by rewrite app_empty_r.
    + exists pre, (sep +:+ join sep (z :: l)). done.
  - destruct l as [|z l]; [by apply elem_of_nil in Hx|].
    destruct (IH Hx (pre +:+ y +:+ sep)) as (a & b & Hab).
    exists a, b. rewrite <- Hab. change (join sep (y :: z :: l))
      with (y +:+ sep +:+ join sep (z :: l)).
    by rewrite !app_assoc_s.
Qed.

Lemma check_roots_spec steps fuel roots st :
  (∀ s, s ∈ roots → id s ∈ stepIds steps) →
  dfs_inv steps st → visiting st = ∅ →
  (size (stepIds steps) < fuel)%nat →
  ∃ r, check_roots steps fuel roots st = Some r
       ∧ match r with
         | Valid => ∃ st', dfs_inv steps st' ∧ visited st ⊆ visited st'
                           ∧ ∀ s, s ∈ roots → id s ∈ visited st'
         | Invalid reason details =>
             reason = circular_dependency
             ∧ ∃ c, cycle_shape steps c ∧ details = cycle_message c
         end.
Proof.
  revert st. induction roots as [|s roots IH]; intros st Hroots Hinv Hvis Hfuel; simpl.
  { eexists. split; [done|]. exists st. split; [done|]. split; [done|].
    intros s Hs. by apply elem_of_nil in Hs. }
  assert (Hs : id s ∈ stepIds steps) by (apply Hroots; by apply elem_of_cons; left).
  assert (Hsize : (size (stepIds steps ∖ visiting st) < fuel)%nat).
  { rewrite Hvis. by replace (stepIds steps ∖ ∅) with (stepIds steps) by set_solver. }
  assert (Hpath : list_to_set [] = visiting st) by (by rewrite Hvis).
  destruct (dfs_spec steps fuel (id s) [] st Hs Hinv Hsize Hpath I)
    as ([[c|] st'] & Hrun & Hpost).
  - rewrite Hrun. eexists. split; [done|]. split; [done|]. by exists c.
  - rewrite Hrun. unfold dfs_post in Hpost. simpl in Hpost.
    destruct Hpost as (Hvis' & Hsub & Hin & Hinv').
    destruct (IH st') as (r & Hr & Hpost'); try done.
    { intros s' Hs'. apply Hroots. by apply elem_of_cons; right. }
    { congruence. }
    exists r. split; [done|]. destruct r as [|reason details]; [|done].
    destruct Hpost' as (st'' & Hinv'' & Hsub'' & Hall).
    exists st''. split; [done|]. split; [set_solver|].
    intros s' Hs'. apply elem_of_cons in Hs' as [->|Hs']; [set_solver|by apply Hall].
Qed.

(** The cycle search always ends, finds no cycle only if there is
    none, and otherwise reports a closed walk. *)
Lemma checkCircularDependencies_spec steps :
  ∃ r, checkCircularDependencies steps = Some r
       ∧ match r with
         | Valid => ∀ a, ¬ tc (edge steps) a a
         | Invalid reason details =>
             reason = circular_dependency
             ∧ ∃ c, cycle_shape steps c ∧ details = cycle_message c
         end.
Proof.
  unfold checkCircularDependencies, checkCircularDependencies_fuel.
  destruct (check_roots_spec steps (S (length steps)) steps
              {| visiting := ∅; visited := ∅ |}) as (r & Hr & Hpost).
  - intros s Hs. apply elem_of_stepIds, list_elem_of_fmap. by exists s.
  - split; simpl; [set_solver|set_solver| |].
    + intros u w Hu. set_solver.
    + intros u Hu. set_solver.
  - done.
  - pose proof (size_stepIds steps). lia.
  - exists r. split; [done|]. destruct r as [|reason details]; [|done].
    destruct Hpost as (st' & Hinv & _ & Hall).
    intros a Hcyc.
    assert (a ∈ stepIds steps) as Ha.
    { assert (∃ w, edge steps a w) as (w & s & Hs & _).
      { inversion Hcyc; subst; eauto. }
      apply stepMap_Some in Hs as [Hs <-].
      apply elem_of_stepIds, list_elem_of_fmap. by exists s. }
    apply elem_of_stepIds, list_elem_of_fmap in Ha as (s & -> & Hs).
    by apply (inv_acyclic steps st' Hinv (id s)); [apply Hall|].
Qed.
End CycleFacts.

Section ValidatePlanFacts.
Import Js Types PlanValidator.

(** C5 (as amended).  For a plan with unique step ids that passes the
    step-count and parallelism checks and whose dependency relation
    has a cycle, [validatePlan] answers circular_dependency, and the
    path in [details] ends with a closed walk along the dependencies
    of the plan, every step of which is named in [details]. *)
Theorem validatePlan_detects_cycle (plan : ExtendedPlannerOutput)
    (constraints : PartialPlanConstraints) :
  NoDup (id <$> steps (base plan)) →
  Z.of_nat (length (steps (base plan))) ≤ maxSteps (merge_constraints constraints) →
  (checkParallelism (steps (base plan))
     (maxParallelism (merge_constraints constraints))).1 = Valid →
  has_cycle (steps (base plan)) →
  ∃ pre w mid,
    (validatePlan plan constraints).1
    = Some (Invalid circular_dependency (cycle_message (pre ++ w :: mid ++ [w])))
    ∧ walk (steps (base plan)) (w :: mid ++ [w])
    ∧ ∀ x, x ∈ w :: mid → names (cycle_message (pre ++ w :: mid ++ [w])) x.
Proof.
  intros Hnd Hcount Hpar [a Hcyc]. unfold validatePlan.
  rewrite decide_False by lia.
  pose proof (checkParallelism_steps (steps (base plan))
                (maxParallelism (merge_constraints constraints))) as Hsteps.
  destruct (checkParallelism _ _) as [pr steps'] eqn:Hcp. simpl in Hpar, Hsteps.
  subst pr steps'.
  set (steps' := normalize_step <$> steps (base plan)).
  assert (Hnd' : NoDup (id <$> steps')).
  { unfold steps'. by rewrite normalize_ids. }
  assert (Hrel : ∀ x y, edge steps' x y ↔ depends (steps (base plan)) x y).
  { intros x y. rewrite edge_depends by done. apply depends_normalize. }
  destruct (checkCircularDependencies_spec steps') as ([|reason details] & Hrun & Hpost).
  - exfalso. apply (Hpost a). eapply tc_impl; [|exact Hcyc]. intros x y. apply Hrel.
  - destruct Hpost as (-> & c & (pre & w & mid & -> & Hchain) & ->).
    rewrite Hrun. simpl. exists pre, w, mid. split; [done|]. split.
    + eapply chain_impl; [|exact Hchain]. intros x y. apply Hrel.
    + intros x Hx. apply names_join. apply elem_of_app. right.
      apply elem_of_cons in Hx as [->|Hx]; [by left|].
      right. apply elem_of_app. by left.
Qed.

Lemma cyclic_plan_has_cycle : has_cycle (steps (base Samples.cyclic_plan)).
Proof.
  assert (Hdep : ∀ x d, Samples.plan_step x [d] false ∈ steps (base Samples.cyclic_plan) →
                        d ∈ id <$> steps (base Samples.cyclic_plan) →
                        depends (steps (base Samples.cyclic_plan)) x d).
  { intros x d Hin Hd. exists (Samples.plan_step x [d] false).
    split; [done|]. split; [done|]. split; [|done]. by left. }
  exists "a". eapply tc_l; [|eapply tc_l; [|apply tc_once]].
  - apply (Hdep "a" "c"); simpl; repeat constructor.
  - apply (Hdep "c" "b"); simpl; repeat constructor.
  - apply (Hdep "b" "a"); simpl; repeat constructor.
Qed.

Lemma validatePlan_detects_cycle_witness :
  ∃ pre w mid,
    (validatePlan Samples.cyclic_plan no_overrides).1
    = Some (Invalid circular_dependency (cycle_message (pre ++ w :: mid ++ [w])))
    ∧ walk (steps (base Samples.cyclic_plan)) (w :: mid ++ [w])
    ∧ ∀ x, x ∈ w :: mid → names (cycle_message (pre ++ w :: mid ++ [w])) x.
Proof.
  apply validatePlan_detects_cycle.
  - refine (bool_decide_unpack _ _). vm_compute. exact I.
  - simpl. lia.
  - vm_compute. reflexivity.
  - apply cyclic_plan_has_cycle.
Defined.

(** C5 as stated fails: the checks run in a fixed order, and a cyclic
    plan that is too long is rejected for its length. *)
Lemma validatePlan_cycle_counterexample :
  has_cycle (steps (base Samples.cyclic_plan))
  ∧ (validatePlan Samples.cyclic_plan Samples.one_step_limit).1
    = Some (Invalid too_many_steps "Plan has 3 steps, max allowed is 2").
Proof. split; [apply cyclic_plan_has_cycle|]. vm_compute. reflexivity. Qed.

(** Unique ids matter: the search reads the steps through a map from
    ids, in which the last step of an id hides the earlier ones. *)
Lemma validatePlan_duplicate_ids :
  has_cycle (steps (base Samples.duplicate_id_plan))
  ∧ (validatePlan Samples.duplicate_id_plan no_overrides).1 = Some Valid.
Proof.
  split; [|vm_compute; reflexivity].
  exists "a". apply tc_once. exists (Samples.plan_step "a" ["a"] false).
  split; [by left|]. split; [done|]. split; simpl; by left.
Qed.

(** [validatePlan] always answers: the cycle search has fuel enough. *)
Lemma validatePlan_total plan constraints :
  ∃ r, (validatePlan plan constraints).1 = Some r.
Proof.
  unfold validatePlan. destruct (decide _); [by eexists|].
  destruct (checkParallelism _ _) as [[|r d] steps']; [|by eexists].
  destruct (checkCircularDependencies_spec steps') as (r & -> & _).
  destruct r; [|by eexists].
  destruct (checkMissingDependencies steps'); [|by eexists].
  destruct (validate_steps steps' _); [|by eexists].
  destruct (_ && _); by eexists.
Qed.

(** What a call may change: nothing, or the order of the entries of
    each [dependsOn]. *)
Lemma validatePlan_only_sorts plan constraints :
  (validatePlan plan constraints).2 = plan
  ∨ (validatePlan plan constraints).2
    = {| base := with_steps (base plan) (normalize_step <$> steps (base plan));
         escalationRequests := escalationRequests plan |}.
Proof.
  unfold validatePlan. destruct (decide _); [by left|]. right.
  pose proof (checkParallelism_steps (steps (base plan))
                (maxParallelism (merge_constraints constraints))) as Hsteps.
  destruct (checkParallelism _ _) as [pr steps']. simpl in Hsteps. subst steps'.
  destruct pr; [|done].
  destruct (checkCircularDependencies _) as [[|]|]; try done.
  destruct (checkMissingDependencies _); [|done].
  destruct (validate_steps _ _); [|done].
  by destruct (_ && _).
Qed.

(** C9, the code at a plan whose third step lists its dependencies as
    b, a: the call succeeds and leaves them as a, b. *)
Lemma validatePlan_reorders_dependsOn :
  (validatePlan Samples.unsorted_plan no_overrides).1 = Some Valid
  ∧ dependsOn <$> steps (base Samples.unsorted_plan) = [[]; []; ["b"; "a"]]
  ∧ dependsOn <$> steps (base (validatePlan Samples.unsorted_plan no_overrides).2)
    = [[]; []; ["a"; "b"]].
Proof. vm_compute. done. Qed.
End ValidatePlanFacts.


(** ** Skill inheritance *)

Section LoaderFacts.
Import Js Skills Loader.

Lemma map_set_keys {V} (k : string) (v : V) m :
  (map_set k v m).*1 = if bool_decide (k ∈ m.*1) then m.*1 else m.*1 ++ [k].
Proof.
  induction m as [|[k' v'] m IH]; [done|].
  cbn [map_set]. destruct (decide (k' = k)) as [->|Hne]; rewrite !fmap_cons; cbn [fst].
  - rewrite bool_decide_eq_true_2; [done|by left].
  - rewrite IH. case_bool_decide as Hin.
    + rewrite bool_decide_eq_true_2; [done|by right].
    + rewrite bool_decide_eq_false_2; [done|].
      intros Hin'. apply elem_of_cons in Hin' as [->|Hin']; done.
Qed.

Lemma map_set_elem {V} (k : string) (v : V) m k' v' :
  (k', v') ∈ map_set k v m → (k', v') = (k, v) ∨ (k', v') ∈ m.
Proof.
  induction m as [|[k0 v0] m IH]; simpl.
  - intros H. apply list_elem_of_singleton in H. by left.
  - destruct (decide (k0 = k)) as [->|Hne]; intros H.
    + apply elem_of_cons in H as [H|H]; [by left|]. right. by right.
    + apply elem_of_cons in H as [H|H]; [right; rewrite H; by left|].
      destruct (IH H) as [?|?]; [by left|]. right. by right.
Qed.






Lemma map_get_elem {V} (k : string) (v : V) m : map_get k m = Some v → (k, v) ∈ m.
Proof.
  induction m as [|[k' v'] m IH]; simpl; [done|].
  destruct (decide (k' = k)) as [->|Hne].
  - intros [= ->]. by left.
  - intros H. right. by apply IH.
Qed.















Lemma prefix_snoc_inv {A} (l1 l2 : list A) x :
  l1 `prefix_of` l2 ++ [x] → l1 = l2 ++ [x] ∨ l1 `prefix_of` l2.
Proof.
  intros [k Hk]. destruct k as [|y k _] using rev_ind.
  - left. by rewrite app_nil_r in Hk.
  - right. rewrite app_assoc in Hk. apply app_inj_tail in Hk as [-> _]. by exists k.
Qed.

Lemma prefix_antisym {A} (l1 l2 : list A) :
  l1 `prefix_of` l2 → l2 `prefix_of` l1 → l1 = l2.
Proof.
  intros [k1 H1] [k2 H2]. rewrite H1, <- app_assoc in H2.
  rewrite <- (app_nil_r l1) in H2 at 1. apply app_inv_head in H2.
  symmetry in H2. apply app_eq_nil in H2 as [-> _]. by rewrite app_nil_r in H1.
Qed.

Lemma candidate_elem (fs : FileSystem) (current : Path) f :
  f ∈ match fs (current ++ ["skills.xml"]) with
      | Some _ => [current ++ ["skills.xml"]]
      | None => []
      end
  ↔ f = current ++ ["skills.xml"] ∧ is_Some (fs f).
Proof.
  destruct (fs (current ++ ["skills.xml"])) eqn:E.
  - rewrite list_elem_of_singleton. split; [intros ->; by rewrite E|tauto].
  - split; [by intros ?%elem_of_nil|]. intros [-> [? H]]. congruence.
Qed.

Lemma walk_up_bounded fs stop rcurrent f :
  stop `prefix_of` rev rcurrent →
  f ∈ walk_up fs stop rcurrent
  ↔ ∃ d, f = d ++ ["skills.xml"] ∧ stop `prefix_of` d ∧ d `prefix_of` rev rcurrent
         ∧ is_Some (fs f).
Proof.
  induction rcurrent as [|x r IH]; intros Hstop; cbn [walk_up];
    rewrite elem_of_app, candidate_elem.
  - cbn [rev] in *. apply prefix_nil_inv in Hstop as ->. rewrite decide_True by done.
    split.
    + intros [[-> Hf]|Hf%elem_of_nil]; [|done]. by exists [].
    + intros (d & -> & _ & Hd%prefix_nil_inv & Hf). subst d. by left.
  - destruct (decide (rev (x :: r) = stop)) as [Heq|Hne].
    + split.
      * intros [[-> Hf]|Hf%elem_of_nil]; [|done]. exists (rev (x :: r)).
        split; [done|]. split; [by rewrite Heq|]. split; [reflexivity|done].
      * intros (d & -> & H1 & H2 & Hf). left. split; [|done]. f_equal.
        symmetry. apply prefix_antisym; [by rewrite Heq|done].
    + cbn [rev] in *. apply prefix_snoc_inv in Hstop as [Hstop|Hstop]; [congruence|].
      rewrite (IH Hstop). split.
      * intros [[-> Hf]|(d & -> & H1 & H2 & Hf)].
        -- exists (rev r ++ [x]). split; [done|]. split; [by apply prefix_app_r|].
           split; [reflexivity|done].
        -- exists d. repeat (split; [done|]). split; [by apply prefix_app_r|done].
      * intros (d & -> & H1 & [->|H2]%prefix_snoc_inv & Hf); [by left|].
        right. by exists d.
Qed.

Lemma walk_up_unbounded fs stop rcurrent f :
  ¬ stop `prefix_of` rev rcurrent →
  f ∈ walk_up fs stop rcurrent
  ↔ ∃ d, f = d ++ ["skills.xml"] ∧ d `prefix_of` rev rcurrent ∧ is_Some (fs f).
Proof.
  induction rcurrent as [|x r IH]; intros Hstop; cbn [walk_up];
    rewrite elem_of_app, candidate_elem.
  - cbn [rev] in *. rewrite decide_False by (intros <-; by apply Hstop). split.
    + intros [[-> Hf]|Hf%elem_of_nil]; [|done]. by exists [].
    + intros (d & -> & Hd%prefix_nil_inv & Hf). subst d. by left.
  - rewrite decide_False by (intros <-; by apply Hstop). cbn [rev] in *.
    rewrite IH by (intros H; by apply Hstop, prefix_app_r). split.
    + intros [[-> Hf]|(d & -> & H2 & Hf)].
      * exists (rev r ++ [x]). split; [done|]. split; [reflexivity|done].
      * exists d. split; [done|]. split; [by apply prefix_app_r|done].
    + intros (d & -> & [->|H2]%prefix_snoc_inv & Hf); [by left|].
      right. by exists d.
Qed.

Lemma findSkillsXmlFiles_files fs residence trustRoot :
  trustRoot `prefix_of` residence →
  ∀ f, f ∈ findSkillsXmlFiles fs residence trustRoot
       ↔ ∃ d, f = d ++ ["skills.xml"] ∧ trustRoot `prefix_of` d
              ∧ d `prefix_of` residence ∧ is_Some (fs f).
Proof.
  unfold findSkillsXmlFiles. intros H f.
  rewrite walk_up_bounded by (by rewrite rev_involutive). by rewrite rev_involutive.
Qed.



Section WithCollation.
Variable localeCompare : string → string → Z.
Hypothesis localeCompare_total :
  ∀ a b, localeCompare a b > 0 → localeCompare b a <= 0.

End WithCollation.



End LoaderFacts.


Lemma collation_compare_total a b :
  Samples.collation_compare a b > 0 → Samples.collation_compare b a <= 0.
Proof.
  unfold Samples.collation_compare.
  rewrite (String.compare_antisym (Samples.lower_case b) (Samples.lower_case a)).
  rewrite (String.compare_antisym a b).
  destruct (String.compare (Samples.lower_case a) (Samples.lower_case b));
    destruct (String.compare b a); simpl; lia.
Qed.



(** Nor does every call return an index: a declaration file on the way
    that cannot be read, or that declares a skill with an [id] attribute
    without a value, makes the call throw, also when the file lies
    above the residence. *)
Lemma loadInheritedSkills_throws :
  Loader.loadInheritedSkills Samples.byte_compare Samples.boolean_id_fs
    Samples.ts_residence Samples.liku_root = None
  ∧ Loader.loadInheritedSkills Samples.byte_compare Samples.unreadable_fs
      Samples.ts_residence Samples.liku_root = None.
Proof. split; reflexivity. Qed.

(** ** Concurrency limiter *)

Section LimiterFacts.
Import Limiter.

(** The [finally] block gives the slot back whether the task fulfilled
    or threw. *)
Lemma settle_releases_slot s i fulfilled :
  i ∈ started s →
  ∃ s', step (Settle i fulfilled) s = Some s'
        ∧ currentCount s' = currentCount s - 1
        ∧ i ∉ started s'.
Proof.
  intros Hi. unfold step. rewrite bool_decide_eq_true_2 by done.
  eexists. split; [done|]. split; [done|]. simpl.
  unfold remove. rewrite list_elem_of_filter. tauto.
Qed.

Lemma length_remove_lt i l : i ∈ l → (length (remove i l) < length l)%nat.
Proof.
  unfold remove. induction l as [|j l IH]; intros Hi; [by apply elem_of_nil in Hi|].
  rewrite filter_cons. destruct (decide (j ≠ i)) as [Hne|Heq]; simpl.
  - apply elem_of_cons in Hi as [->|Hi]; [done|]. apply IH in Hi. lia.
  - pose proof (length_filter (fun j => j ≠ i) l). lia.
Qed.

Lemma step_keeps_bound l s s' :
  step l s = Some s' →
  match l with Call _ | TryRun _ => granted s = [] | _ => True end →
  within_capacity (maxConcurrent s) (slots_in_use s) →
  within_capacity (maxConcurrent s') (slots_in_use s') ∧ maxConcurrent s' = maxConcurrent s.
Proof.
  unfold slots_in_use. intros Hstep Hcall Hbound.
  assert (Hless : ∀ n, n ≤ currentCount s + Z.of_nat (length (granted s)) →
                       within_capacity (maxConcurrent s) n).
  { intros n Hn. by eapply within_capacity_mono. }
  destruct l as [i|i b|i|i|i|]; cbn [step] in Hstep.
  - destruct (known s i); [done|].
    destruct (Js.num_ge _ _) eqn:Hfull; inversion Hstep; subst;
      cbn [maxConcurrent currentCount granted]; (split; [|done]); [done|].
    rewrite Hcall. right. cbn [length]. by replace (_ - 1) with (currentCount s) by lia.
  - case_bool_decide; [|done]. inversion Hstep; subst.
    cbn [maxConcurrent currentCount granted]. split; [|done]. apply Hless.
    rewrite length_app. destruct (queue s); simpl; lia.
  - case_bool_decide as Hg.
    + inversion Hstep; subst. cbn [maxConcurrent currentCount granted].
      split; [|done]. apply Hless. apply length_remove_lt in Hg. lia.
    + case_bool_decide; [|done]. inversion Hstep; subst. by split.
  - destruct (known s i); [done|].
    destruct (Js.num_ge _ _) eqn:Hfull; inversion Hstep; subst;
      cbn [maxConcurrent currentCount granted]; (split; [|done]); [done|].
    rewrite Hcall. right. cbn [length]. by replace (_ - 1) with (currentCount s) by lia.
  - destruct (_ && _); [|done]. inversion Hstep; subst. by split.
  - inversion Hstep; subst. by split.
Qed.

(** As long as no call arrives between the release of a waiter and its
    continuation, the tasks in flight stay within the capacity. *)
Lemma limiter_bound_without_late_calls ls s s' :
  exec ls s = Some s' →
  no_call_during_handover ls s = true →
  within_capacity (maxConcurrent s) (slots_in_use s) →
  within_capacity (maxConcurrent s') (currentCount s') ∧ maxConcurrent s' = maxConcurrent s.
Proof.
  revert s. induction ls as [|l ls IH]; intros s Hexec Hok Hbound; simpl in *.
  - inversion Hexec; subst. split; [|done].
    eapply within_capacity_mono; [|exact Hbound]. unfold slots_in_use. lia.
  - destruct (step l s) as [s1|] eqn:Hstep; [|done].
    apply andb_true_iff in Hok as [Hl Hok].
    destruct (step_keeps_bound l s s1 Hstep) as [Hb1 Hmax]; [|done|].
    + destruct l; try done; by apply bool_decide_eq_true in Hl.
    + rewrite <- Hmax. by apply (IH s1).
Qed.

(** C3, the code at a schedule that breaks the bound.  With
    [maxConcurrent = 1]: call 0 starts; call 1 queues; task 0 settles
    and the [finally] block releases waiter 1 (count back to 0); before
    the continuation of waiter 1 runs, call 2 arrives, sees a free slot
    and starts; then waiter 1 continues and starts too.  Two tasks are
    in flight. *)
Lemma limiter_handover_race :
  ∃ s0 s,
    construct (OptNumber 1) = Some s0
    ∧ exec [Call 0%nat; Call 1%nat; Settle 0%nat true; Call 2%nat; Resume 1%nat] s0 = Some s
    ∧ maxConcurrent s = 1
    ∧ currentCount s = 2
    ∧ started s = [2%nat; 1%nat].
Proof. eexists _, _. split; [reflexivity|]. split; [vm_compute; reflexivity|]. done. Qed.
End LimiterFacts.

(** ** Orchestrator *)

Section OrchestratorFacts.
Import Js Types Orchestrator.
Context {Env : Type} (host : Collaborators Env).

Lemma run_completed_count_app a b :
  run_completed_count (a ++ b) = (run_completed_count a + run_completed_count b)%nat.
Proof. unfold run_completed_count. by rewrite filter_app, length_app. Qed.

(** A quiet computation ends and adds no [run_completed] event. *)
Local Notation quiet := (emits (fun _ => True) 0%nat 0%nat) (only parsing).

Lemma emits_same {A} (Q : A → Prop) (m : M Env A) r t :
  (∀ s, match m s with
        | Ret a s' => Q a ∧ delivered s' = delivered s
        | Throw _ s' => delivered s' = delivered s
        | Diverge => False
        end) →
  r = 0%nat → t = 0%nat → emits Q r t m.
Proof.
  intros H -> -> s. specialize (H s). destruct (m s) as [a s'|e s'|]; [| |done].
  - destruct H as [HQ ->]. split; [done|]. exists []. by rewrite app_nil_r.
  - rewrite H. exists []. by rewrite app_nil_r.
Qed.

Lemma emits_ret {A} (Q : A → Prop) (a : A) : Q a → emits Q 0 0 (ret (Env:=Env) a).
Proof. intros HQ. by apply emits_same. Qed.

Lemma emits_throw {A} (Q : A → Prop) r e : emits Q r 0 (throw (Env:=Env) (A:=A) e).
Proof. intros s. simpl. exists []. by rewrite app_nil_r. Qed.

Lemma emits_ask {A} (f : World Env → A) : quiet (ask f).
Proof. by apply emits_same. Qed.

Lemma emits_call {A} (f : World Env → Outcome A * World Env) : quiet (call f).
Proof.
  apply emits_same; [|done..]. intros s. unfold call. by destruct (f (world s)) as [[a|e] w].
Qed.

Lemma emits_on_registry {A} (f : TaskRegistry.Registry → A * TaskRegistry.Registry) :
  quiet (on_registry (Env:=Env) f).
Proof.
  apply emits_same; [|done..]. intros s. unfold on_registry.
  by destruct (f (registry (world s))).
Qed.

Lemma emits_push_steps rs : quiet (push_steps (Env:=Env) rs).
Proof. by apply emits_same. Qed.

Lemma emits_get_steps : quiet (get_steps (Env:=Env)).
Proof. by apply emits_same. Qed.

Lemma emits_reset_steps : quiet (reset_steps (Env:=Env)).
Proof. by apply emits_same. Qed.

Lemma emits_bind {A B} (Q : A → Prop) (Q' : B → Prop) r (m : M Env A) (k : A → M Env B) :
  emits Q 0 0 m → (∀ a, Q a → emits Q' r 0 (k a)) → emits Q' r 0 (bind m k).
Proof.
  intros Hm Hk s. unfold bind. specialize (Hm s).
  destruct (m s) as [a s1|e s1|]; [| |done].
  - destruct Hm as (HQ & evs & Hevs & Hcount).
    specialize (Hk a HQ s1). destruct (k a s1) as [b s2|e s2|]; [| |done].
    + destruct Hk as (HQ' & evs' & Hevs' & Hcount'). split; [done|].
      exists (evs ++ evs'). rewrite Hevs', Hevs, app_assoc. split; [done|].
      rewrite run_completed_count_app. lia.
    + destruct Hk as (evs' & Hevs' & Hcount').
      exists (evs ++ evs'). rewrite Hevs', Hevs, app_assoc. split; [done|].
      rewrite run_completed_count_app. lia.
  - done.
Qed.

Lemma emits_try_catch {A} (Q : A → Prop) r (m : M Env A) (h : Exn → M Env A) :
  emits Q r 0 m → (∀ e, emits Q r 0 (h e)) → emits Q r 0 (try_catch m h).
Proof.
  intros Hm Hh s. unfold try_catch. specialize (Hm s).
  destruct (m s) as [a s1|e s1|]; [done| |done].
  destruct Hm as (evs & Hevs & Hcount). specialize (Hh e s1).
  destruct (h e s1) as [b s2|e2 s2|]; [| |done].
  - destruct Hh as (HQ' & evs' & Hevs' & Hcount'). split; [done|].
    exists (evs ++ evs'). rewrite Hevs', Hevs, app_assoc. split; [done|].
    rewrite run_completed_count_app. lia.
  - destruct Hh as (evs' & Hevs' & Hcount').
    exists (evs ++ evs'). rewrite Hevs', Hevs, app_assoc. split; [done|].
    rewrite run_completed_count_app. lia.
Qed.

Lemma emits_weaken {A} (Q Q' : A → Prop) r t (m : M Env A) :
  (∀ a, Q a → Q' a) → emits Q r t m → emits Q' r t m.
Proof.
  intros HQ Hm s. specialize (Hm s). destruct (m s); [|done..].
  destruct Hm. split; [by apply HQ|done].
Qed.

Lemma emits_emitEvent options event :
  event_type event ≠ run_completed → quiet (emitEvent (Env:=Env) options event).
Proof.
  intros Hty. unfold emitEvent.
  assert (Hdeliver : quiet (deliver (Env:=Env) event)).
  { intros s. simpl. split; [done|]. exists [event]. split; [done|].
    unfold run_completed_count. by rewrite filter_cons_False. }
  destruct options as [o|]; [|by apply emits_ret].
  destruct (negb (onEvent o)); [by apply emits_ret|].
  destruct (typeToOption o (event_type event)) as [[[|]|]|]; try done.
  by apply emits_ret.
Qed.

(** One step of a proof that a computation is quiet. *)
Ltac quiet_step :=
  first
    [ apply emits_ask
    | apply emits_call
    | apply emits_on_registry
    | apply emits_push_steps
    | apply emits_get_steps
    | apply emits_reset_steps
    | apply emits_throw
    | apply emits_ret; exact I
    | apply emits_emitEvent; discriminate
    | apply (emits_bind (fun _ => True)); [|intros ? _]
    | apply emits_try_catch; [|intros ?]
    | match goal with
      | |- emits _ _ _ (match ?x with _ => _ end) => destruct x
      | |- emits _ _ _ (if ?x then _ else _) => destruct x
      end ].

Lemma quiet_runStep step config orchestrationStart :
  quiet (runStep host step config orchestrationStart).
Proof. unfold runStep. repeat quiet_step. Qed.

Lemma quiet_runStepWithEvents step config orchestrationStart taskId eventOptions :
  quiet (runStepWithEvents host step config orchestrationStart taskId eventOptions).
Proof.
  unfold runStepWithEvents.
  repeat first [apply quiet_runStep | quiet_step].
Qed.

Lemma readySteps_fresh steps completed s :
  s ∈ readySteps steps completed → id s ∉ completed.
Proof. unfold readySteps. rewrite list_elem_of_filter. tauto. Qed.

Lemma spec_run_sequential sequentialSteps config start taskId eventOptions results completed :
  emits (fun out => out.2 = false →
                    out.1.2 = list_to_set (id <$> sequentialSteps) ∪ completed) 0 0
        (run_sequential host sequentialSteps config start taskId eventOptions
                        results completed).
Proof.
  revert results completed.
  induction sequentialSteps as [|step rest IH]; intros results completed; simpl.
  - apply emits_ret. intros _. simpl. set_solver.
  - apply (emits_bind (fun _ => True)); [apply quiet_runStepWithEvents|]. intros result _.
    destruct (_ && _).
    + by apply emits_ret.
    + eapply emits_weaken; [|apply IH]. intros [[res comp] ab] H Hab. simpl in *.
      rewrite (H Hab). set_solver.
Qed.

Lemma quiet_run_parallel parallelSteps config start taskId eventOptions :
  quiet (run_parallel host parallelSteps config start taskId eventOptions).
Proof.
  induction parallelSteps as [|step rest IH]; simpl; [by apply emits_ret|].
  repeat first [apply quiet_runStepWithEvents | apply IH | quiet_step].
Qed.

Lemma size_grows (completed completed' : gset string) x :
  x ∉ completed → x ∈ completed' → completed ⊆ completed' →
  (size completed < size completed')%nat.
Proof.
  intros Hx Hx' Hsub. apply subset_size. apply strict_spec_alt. split; [done|].
  intros Heq. rewrite Heq in Hx. done.
Qed.

(** With one unit of fuel per step that is not yet completed, and one
    to spare, the scheduling loop ends. *)
Lemma quiet_schedule fuel steps config start taskId eventOptions results completed :
  (length steps - size completed < fuel)%nat →
  quiet (schedule host fuel steps config start taskId eventOptions results completed).
Proof.
  revert results completed.
  induction fuel as [|fuel IH]; intros results completed Hfuel; simpl.
  { lia. }
  destruct (decide (size completed < length steps)%nat) as [Hlt|]; [|by apply emits_ret].
  destruct (readySteps steps completed) as [|s0 batch'] eqn:Hbatch; [by apply emits_ret|].
  set (batch := s0 :: batch') in *.
  assert (Hfresh : id s0 ∉ completed).
  { apply (readySteps_fresh steps). rewrite Hbatch. by left. }
  eapply emits_bind; [apply spec_run_sequential|].
  intros [[results1 completed1] aborted] Hseq. simpl in Hseq.
  destruct aborted; [by apply emits_ret|]. specialize (Hseq eq_refl).
  assert (Hs0 : parallel s0 = false ∧ id s0 ∈ completed1
                ∨ s0 ∈ filter (fun s => parallel s = true) batch).
  { destruct (parallel s0) eqn:Hp.
    - right. apply list_elem_of_filter. split; [done|]. by left.
    - left. split; [done|]. rewrite Hseq. apply elem_of_union_l, elem_of_list_to_set.
      apply list_elem_of_fmap. exists s0. split; [done|].
      apply list_elem_of_filter. split; [done|]. by left. }
  assert (Hsub : completed ⊆ completed1) by (rewrite Hseq; set_solver).
  destruct (filter (fun s => parallel s = true) batch) as [|p0 prest] eqn:Hpar.
  - apply IH. destruct Hs0 as [[_ Hin]|Hin]; [|by apply elem_of_nil in Hin].
    pose proof (size_grows completed completed1 (id s0) Hfresh Hin Hsub). lia.
  - apply (emits_bind (fun _ => True)); [apply quiet_run_parallel|]. intros parallelResults _.
    destruct (_ && _); [by apply emits_ret|].
    apply IH.
    assert (id s0 ∈ list_to_set (id <$> p0 :: prest) ∪ completed1).
    { destruct Hs0 as [[_ Hin]|Hin]; [set_solver|].
      apply elem_of_union_l, elem_of_list_to_set, list_elem_of_fmap. by exists s0. }
    assert (completed ⊆ list_to_set (id <$> p0 :: prest) ∪ completed1) by set_solver.
    pose proof (size_grows completed _ (id s0) Hfresh H H0). lia.
Qed.

Lemma quiet_executeStepsWithEvents steps config start taskId eventOptions :
  quiet (executeStepsWithEvents host steps config start taskId eventOptions).
Proof.
  unfold executeStepsWithEvents. apply quiet_schedule. lia.
Qed.

Lemma finishRun_once taskId eventOptions startTime steps result s :
  subscribed eventOptions →
  ∃ s' ev, finishRun host taskId eventOptions startTime steps result s = Ret result s'
           ∧ delivered s' = delivered s ++ [ev]
           ∧ event_type ev = run_completed.
Proof.
  intros (o & -> & Ho).
  unfold finishRun, bind, ask, on_registry, emitEvent, deliver, ret. simpl.
  destruct (TaskRegistry.setResult _ _ _ _) as [outcome r]. rewrite Ho. simpl.
  eexists _, _. split; [reflexivity|]. done.
Qed.

Lemma emits_finishRun taskId eventOptions startTime steps result :
  subscribed eventOptions →
  emits (fun _ => True) 1 0 (finishRun host taskId eventOptions startTime steps result).
Proof.
  intros Hsub s.
  destruct (finishRun_once taskId eventOptions startTime steps result s Hsub)
    as (s' & ev & -> & Hev & Hty).
  split; [done|]. exists [ev]. split; [done|].
  unfold run_completed_count. by rewrite filter_cons_True.
Qed.

Lemma quiet_errorResult summary steps e :
  quiet (errorResult (Env:=Env) summary steps e).
Proof. unfold errorResult. repeat quiet_step. Qed.

Ltac quiet_all :=
  repeat first
    [ apply quiet_runStepWithEvents
    | apply quiet_executeStepsWithEvents
    | apply quiet_errorResult
    | quiet_step ].

(** One step of a proof that a computation hands over exactly one
    [run_completed] event when it returns and none when it throws. *)
Ltac once_step Hsub :=
  first
    [ apply emits_finishRun; exact Hsub
    | apply emits_throw
    | apply (emits_bind (fun _ => True)); [solve [quiet_all]|intros ? _]
    | match goal with
      | |- emits _ _ _ (match ?x with _ => _ end) => destruct x
      | |- emits _ _ _ (if ?x then _ else _) => destruct x
      end ].

Lemma once_run_plan plan config startTime taskId eventOptions :
  subscribed eventOptions →
  emits (fun _ => True) 1 0 (run_plan host plan config startTime taskId eventOptions).
Proof. intros Hsub. unfold run_plan. repeat once_step Hsub. Qed.

Lemma once_run_body input config startTime taskId eventOptions :
  subscribed eventOptions →
  emits (fun _ => True) 1 0 (run_body host input config startTime taskId eventOptions).
Proof.
  intros Hsub. unfold run_body.
  repeat first [apply once_run_plan; exact Hsub | once_step Hsub].
Qed.

Lemma once_run input :
  subscribed (events input) → emits (fun _ => True) 1 0 (run host input).
Proof.
  intros Hsub. unfold run, getDefaultConfig.
  repeat first
    [ apply once_run_body; exact Hsub
    | apply emits_try_catch; [|intros ?]
    | once_step Hsub ].
Qed.

Lemma never_throws_bind {A B} (m : M Env A) (k : A → M Env B) :
  never_throws m → (∀ a, never_throws (k a)) → never_throws (bind m k).
Proof.
  intros Hm Hk s. unfold bind. specialize (Hm s). destruct (m s) as [a s1|e s1|]; try done.
  apply Hk.
Qed.

Lemma never_throws_try_catch {A} (m : M Env A) (h : Exn → M Env A) :
  (∀ e, never_throws (h e)) → never_throws (try_catch m h).
Proof.
  intros Hh s. unfold try_catch. destruct (m s) as [a s1|e s1|]; try done. apply Hh.
Qed.

Lemma never_throws_emitEvent options event :
  never_throws (emitEvent (Env:=Env) options event).
Proof.
  intros s. unfold emitEvent. destruct options as [o|]; [|done].
  destruct (negb (onEvent o)); [done|].
  by destruct (typeToOption o (event_type event)) as [[[|]|]|].
Qed.

Lemma never_throws_on_registry {A}
    (f : TaskRegistry.Registry → A * TaskRegistry.Registry) :
  never_throws (on_registry (Env:=Env) f).
Proof. intros s. unfold on_registry. by destruct (f _). Qed.

Ltac never_throws_step :=
  first
    [ apply never_throws_emitEvent
    | apply never_throws_on_registry
    | apply never_throws_bind; [|intros ?]
    | done ].

Lemma never_throws_finishRun taskId eventOptions startTime steps result :
  never_throws (finishRun host taskId eventOptions startTime steps result).
Proof. unfold finishRun. repeat never_throws_step. Qed.

(** No exception escapes [run]. *)
Lemma never_throws_run input : never_throws (run host input).
Proof.
  unfold run, getDefaultConfig.
  repeat first
    [ apply never_throws_try_catch; intros ?
    | apply never_throws_finishRun
    | never_throws_step ].
  intros s. unfold call. by destruct (host_randomUUID host (world s)).
Qed.
End OrchestratorFacts.

(** C8.  Every run hands exactly one [run_completed] event to a
    subscribed handler: whatever the collaborators answer or throw and
    whatever happens to the task in the registry meanwhile, [run] returns
    a result, and among the events delivered during the run exactly one
    is [run_completed]. *)
Theorem run_completed_exactly_once {Env : Type} (host : Orchestrator.Collaborators Env)
    (input : Types.OrchestrationInput) (options : Types.OrchestrationEventOptions)
    (s : Orchestrator.St Env) :
  Types.events input = Some options → Types.onEvent options = true →
  ∃ result s' evs,
    Orchestrator.run host input s = Orchestrator.Ret result s'
    ∧ Orchestrator.delivered s' = Orchestrator.delivered s ++ evs
    ∧ Orchestrator.run_completed_count evs = 1%nat.
Proof.
  intros Hev Hon.
  assert (Hsub : Orchestrator.subscribed (Types.events input)) by (by exists options).
  pose proof (once_run host input Hsub s) as Honce.
  pose proof (never_throws_run host input s) as Hnt.
  destruct (Orchestrator.run host input s) as [result s'|e s'|]; [|done..].
  destruct Honce as (_ & evs & Hevs & Hcount). by exists result, s', evs.
Qed.

Lemma run_completed_exactly_once_witness :
  ∃ result s' evs,
    Orchestrator.run (Samples.mock_host Samples.parser_escalates) Samples.observed_input
      Samples.initial_state = Orchestrator.Ret result s'
    ∧ Orchestrator.delivered s' = Orchestrator.delivered Samples.initial_state ++ evs
    ∧ Orchestrator.run_completed_count evs = 1%nat.
Proof.
  apply (run_completed_exactly_once (Samples.mock_host Samples.parser_escalates)
           Samples.observed_input Samples.all_events Samples.initial_state);
    reflexivity.
Defined.

Section RunExamples.
Import Types Orchestrator.

(** What the handler sees when the task is cancelled through the
    registry during the run, when the engine throws, and when the
    supplied plan makes the pipeline throw: one [run_completed] each. *)
Example run_cancelled_meanwhile :
  ∃ result s',
    run (Samples.mock_host Samples.cancelled_meanwhile) Samples.observed_input
        Samples.initial_state = Ret result s'
    ∧ taskStatus <$> TaskRegistry.get "task-1" (registry (world s')) = Some cancelled
    ∧ event_type <$> delivered s'
      = [run_started;
         step_started; step_completed; step_started; step_completed;
         step_started; step_completed; step_started; step_completed;
         step_started; step_completed; run_completed].
Proof. eexists _, _. split; [vm_compute; reflexivity|]. done. Qed.

Example run_engine_throws :
  ∃ result s',
    run (Samples.mock_host Samples.engine_throws) Samples.observed_input
        Samples.initial_state = Ret result s'
    ∧ kind result = error_kind
    ∧ event_type <$> delivered s'
      = [run_started; step_started; step_completed; run_completed].
Proof. eexists _, _. split; [vm_compute; reflexivity|]. done. Qed.

Example run_broken_plan :
  ∃ result s',
    run (Samples.mock_host (fun r t w => (Returned (InvokeOk Samples.sample_bundle),
                                          Samples.tick w)))
        Samples.broken_plan_input Samples.initial_state = Ret result s'
    ∧ kind result = error_kind
    ∧ run_completed_count (delivered s') = 1%nat.
Proof. eexists _, _. split; [vm_compute; reflexivity|]. done. Qed.

Lemma finishRun_returns {Env} (host : Collaborators Env) taskId eventOptions startTime
    steps result s :
  ∃ s', finishRun host taskId eventOptions startTime steps result s = Ret result s'.
Proof.
  unfold finishRun, bind, ask, on_registry, emitEvent, deliver, ret. simpl.
  destruct (TaskRegistry.setResult _ _ _ _) as [outcome r].
  destruct eventOptions as [o|]; [|by eexists].
  destruct (negb (onEvent o)); [by eexists|].
  destruct (emitStepStarted o) as [[|]|]; by eexists.
Qed.

(** Where the code does look for escalations, they win: if the executed
    plan steps include an escalated one, the run ends with kind
    escalation, whatever errors the other steps had. *)
Lemma run_plan_escalation_wins {Env} (host : Collaborators Env) p config startTime
    taskId eventOptions s results s1 r :
  executeStepsWithEvents host (steps p) config startTime taskId eventOptions s
  = Ret results s1 →
  r ∈ results → status r = escalated →
  ∃ result s2,
    run_plan host (PlanValue p) config startTime taskId eventOptions s = Ret result s2
    ∧ kind result = escalation_kind.
Proof.
  intros Hexec Hr Hst. unfold run_plan, bind. rewrite Hexec. simpl.
  destruct (filter (fun r => status r = escalated) results) as [|first rest] eqn:Hf.
  { by destruct (filter_nil_not_elem_of _ _ r Hf Hst). }
  unfold get_steps.
  edestruct (finishRun_returns host) as [s2 Hfin]. rewrite Hfin. by eexists _, _.
Qed.

(** C7, the code at a run whose parser step escalates: the engine
    reports an escalation for the parser residence; [run] records the
    escalated step, goes on with planning, execution and synthesis, and
    returns a result of kind ok. *)
Lemma run_ignores_parser_escalation :
  ∃ result s',
    run (Samples.mock_host Samples.parser_escalates) Samples.observed_input
        Samples.initial_state = Ret result s'
    ∧ kind result = ok
    ∧ stepId <$> result_steps result
      = ["supervisor"; "parser"; "planner"; "ts-execution"; "synthesizer"]
    ∧ status <$> result_steps result
      = [success; escalated; success; success; success].
Proof. eexists _, _. split; [vm_compute; reflexivity|]. done. Qed.
End RunExamples.


(** * Further properties *)

(** ** Privilege and skill model, continued *)

Section MoreSkillFacts.
Import Js Skills.

(** X1.  Capabilities grow with the privilege: root holds every
    capability, user holds read_repo and nothing else, and whatever a
    privilege holds every higher privilege holds too. *)
Theorem hasCapability_monotone :
  (∀ c, hasCapability root c = true)
  ∧ (∀ c, hasCapability user c = true ↔ c = read_repo)
  ∧ (∀ p q c, priv_lt p q → hasCapability p c = true → hasCapability q c = true).
Proof.
  split; [by intros []|]. split.
  - intros []; vm_compute; split; intros H; done.
  - intros p q c Hlt. destruct Hlt, c; vm_compute; done.
Qed.

Lemma hasCapability_monotone_witness : hasCapability root write_repo = true.
Proof.
  apply (proj2 (proj2 hasCapability_monotone) specialist root write_repo).
  - constructor.
  - reflexivity.
Defined.

Lemma priv_lt_indexOf p q :
  priv_lt p q ↔ indexOf privilegeOrder p < indexOf privilegeOrder q.
Proof.
  destruct p, q; vm_compute; split; intros H; try discriminate H;
    try constructor; inversion H.
Qed.

Lemma priv_lt_trans p q r : priv_lt p q → priv_lt q r → priv_lt p r.
Proof. rewrite !priv_lt_indexOf. lia. Qed.

(** X2.  A skill allowed at some privilege is allowed at every higher
    privilege. *)
Theorem validateSkillExecution_monotone (skill : LikuSkill) (p q : Privilege) :
  priv_lt p q →
  validateSkillExecution skill p = Allowed →
  validateSkillExecution skill q = Allowed.
Proof.
  intros Hlt. unfold validateSkillExecution.
  destruct (decide (indexOf privilegeOrder p < _)) as [|Hp]; [done|].
  rewrite decide_False.
  2:{ apply priv_lt_indexOf in Hlt. lia. }
  destruct (requires skill) as [cap|]; [|done].
  destruct (hasCapability p cap) eqn:Hcap; [|done]. intros _.
  by rewrite (proj2 (proj2 hasCapability_monotone) p q cap Hlt Hcap).
Qed.

Lemma validateSkillExecution_monotone_witness :
  validateSkillExecution Samples.read_skill root = Allowed.
Proof.
  apply (validateSkillExecution_monotone Samples.read_skill user root).
  - constructor.
  - reflexivity.
Defined.

Lemma validateSkillsIndex_fold p acc l :
  let r := foldl (validateSkillsIndex_step p) acc l in
  totalSkills r = totalSkills acc
  ∧ allowed r
    = (allowed acc
       + length (List.filter (fun s => bool_decide (validateSkillExecution s p = Allowed)) l))%nat
  ∧ escalationRequired r
    = (escalationRequired acc
       + length (List.filter (fun s => needs_escalation (validateSkillExecution s p)) l))%nat
  ∧ (allowed r + blocked r + escalationRequired r
     = allowed acc + blocked acc + escalationRequired acc + length l)%nat
  ∧ details r
    = details acc
      ++ ((fun s => {| skillId := id s; result := validateSkillExecution s p |}) <$> l).
Proof.
  revert acc. induction l as [|s l IH]; intros acc; simpl.
  { rewrite app_nil_r. repeat split; lia. }
  destruct (IH (validateSkillsIndex_step p acc s)) as (H1 & H2 & H3 & H4 & H5).
  clear IH.
  split; [rewrite H1|split; [rewrite H2|split; [rewrite H3|split; [rewrite H4|rewrite H5]]]];
    clear H1 H2 H3 H4 H5; unfold validateSkillsIndex_step;
    destruct (validateSkillExecution s p) as [|cap [|]|req cur]; simpl;
    rewrite <- ?app_assoc; simpl; try done; lia.
Qed.

(** X3.  The report of [validateSkillsIndex] accounts for every skill
    once: the three tallies add up to [totalSkills], which is the number
    of skills; [details] lists the verdicts in the order of the skills;
    and [escalationRequired] counts the skills that
    [findEscalationRequired] returns. *)
Theorem validateSkillsIndex_tally (index : SkillsIndex) (p : Privilege) :
  let report := validateSkillsIndex index p in
  totalSkills report = length (skills index)
  ∧ (allowed report + blocked report + escalationRequired report
     = totalSkills report)%nat
  ∧ details report
    = (fun s => {| skillId := id s; result := validateSkillExecution s p |})
        <$> skills index
  ∧ escalationRequired report = length (findEscalationRequired index p).
Proof.
  unfold validateSkillsIndex, findEscalationRequired.
  destruct (validateSkillsIndex_fold p
              {| totalSkills := length (skills index); allowed := 0%nat;
                 blocked := 0%nat; escalationRequired := 0%nat; details := [] |}
              (skills index)) as (H1 & H2 & H3 & H4 & H5).
  simpl in *. split; [done|]. split; [by rewrite H4, H1|]. split; [done|]. by rewrite H3.
Qed.

Lemma root_allows_all skill : validateSkillExecution skill root = Allowed.
Proof.
  unfold validateSkillExecution. rewrite decide_False.
  2:{ destruct (requiredPrivilege skill); vm_compute; done. }
  destruct (requires skill) as [cap|]; [|done].
  by rewrite (proj1 hasCapability_monotone cap).
Qed.

Lemma filter_allowed_root (l : list LikuSkill) :
  length (List.filter (fun s => bool_decide (validateSkillExecution s root = Allowed)) l)
  = length l.
Proof.
  induction l as [|s l IH]; [done|]. simpl.
  rewrite bool_decide_eq_true_2 by apply root_allows_all. simpl. by rewrite IH.
Qed.

Lemma filter_escalation_root (l : list LikuSkill) :
  List.filter (fun s => needs_escalation (validateSkillExecution s root)) l = [].
Proof. induction l as [|s l IH]; [done|]. simpl. by rewrite root_allows_all. Qed.

(** X4.  At root privilege nothing is held back: every skill of an
    index is allowed, none is blocked and none needs escalation. *)
Theorem validateSkillsIndex_root (index : SkillsIndex) :
  let report := validateSkillsIndex index root in
  allowed report = length (skills index)
  ∧ blocked report = 0%nat
  ∧ escalationRequired report = 0%nat
  ∧ findEscalationRequired index root = [].
Proof.
  pose proof (filter_escalation_root (skills index)) as Hnone.
  destruct (validateSkillsIndex_tally index root) as (H1 & H2 & _ & H4).
  unfold findEscalationRequired in H4. rewrite Hnone in H4. simpl in H4.
  assert (Hall : allowed (validateSkillsIndex index root) = length (skills index)).
  { unfold validateSkillsIndex.
    destruct (validateSkillsIndex_fold root
                {| totalSkills := length (skills index); allowed := 0%nat;
                   blocked := 0%nat; escalationRequired := 0%nat; details := [] |}
                (skills index)) as (_ & Ha & _).
    rewrite Ha. simpl. apply filter_allowed_root. }
  simpl. split; [done|]. split; [lia|]. done.
Qed.
End MoreSkillFacts.

(** ** Task registry: cancellation, capacity, eviction, statistics *)

Section MoreRegistryFacts.
Import Js Types TaskRegistry.

Lemma map_get_is_Some {V} (k : string) (m : list (string * V)) :
  is_Some (map_get k m) ↔ k ∈ m.*1.
Proof.
  induction m as [|[k' v'] m IH]; cbn [map_get]; rewrite ?fmap_cons; cbn [fst].
  - split; [by intros [? ?]|by intros ?%elem_of_nil].
  - destruct (decide (k' = k)) as [->|Hne].
    + split; [intros _; by left|by eexists].
    + rewrite IH. split; [by right|]. intros [?|?]%elem_of_cons; congruence.
Qed.

Lemma map_get_None {V} (k : string) (m : list (string * V)) :
  map_get k m = None ↔ k ∉ m.*1.
Proof. rewrite <- map_get_is_Some, eq_None_not_Some. done. Qed.

Lemma map_delete_elem {V} (k : string) (m : list (string * V)) kv :
  kv ∈ map_delete k m → kv ∈ m.
Proof.
  induction m as [|[k' v'] m IH]; cbn [map_delete]; [done|].
  destruct (decide (k' = k)); [by right|].
  intros [->|H]%elem_of_cons; [by left|right; by apply IH].
Qed.

Lemma map_delete_length {V} (k : string) (m : list (string * V)) :
  k ∈ m.*1 → S (length (map_delete k m)) = length m.
Proof.
  induction m as [|[k' v'] m IH]; rewrite ?fmap_cons; cbn [fst map_delete].
  - by intros ?%elem_of_nil.
  - destruct (decide (k' = k)) as [->|Hne]; [done|].
    intros [?|H]%elem_of_cons; [congruence|]. cbn [length]. by rewrite IH.
Qed.

Lemma map_delete_length_le {V} (k : string) (m : list (string * V)) :
  (length (map_delete k m) ≤ length m)%nat.
Proof.
  induction m as [|[k' v'] m IH]; cbn [map_delete]; [done|].
  destruct (decide (k' = k)); cbn [length]; lia.
Qed.

Lemma map_delete_keys {V W} (k : string) (m : list (string * V)) (m' : list (string * W)) :
  m.*1 = m'.*1 → (map_delete k m).*1 = (map_delete k m').*1.
Proof.
  revert m'. induction m as [|[k1 v1] m IH]; intros [|[k2 v2] m']; rewrite ?fmap_cons;
    cbn [fst map_delete]; try done.
  intros [= -> H]. destruct (decide (k2 = k)); [done|].
  rewrite !fmap_cons. cbn [fst]. f_equal. by apply IH.
Qed.

Lemma map_delete_sub {V} (k : string) (m : list (string * V)) k' :
  k' ∈ (map_delete k m).*1 → k' ∈ m.*1.
Proof.
  intros [[k0 v] [-> H]]%list_elem_of_fmap. apply map_delete_elem in H.
  apply list_elem_of_fmap. by exists (k0, v).
Qed.

Lemma map_delete_NoDup {V} (k : string) (m : list (string * V)) :
  NoDup m.*1 → NoDup (map_delete k m).*1 ∧ k ∉ (map_delete k m).*1.
Proof.
  induction m as [|[k' v'] m IH]; rewrite ?fmap_cons; cbn [fst map_delete].
  - intros _. split; [constructor|by intros ?%elem_of_nil].
  - intros [Hk' Hm]%NoDup_cons. destruct (decide (k' = k)) as [->|Hne]; [done|].
    destruct (IH Hm) as [IH1 IH2]. rewrite fmap_cons. cbn [fst]. split.
    + apply NoDup_cons. split; [|done]. intros H. by apply Hk', (map_delete_sub k).
    + intros [?|?]%elem_of_cons; [congruence|done].
Qed.

Lemma map_get_delete_ne {V} (k k' : string) (m : list (string * V)) :
  k ≠ k' → map_get k' (map_delete k m) = map_get k' m.
Proof.
  intros Hne. induction m as [|[k0 v0] m IH]; cbn [map_delete map_get]; [done|].
  destruct (decide (k0 = k)) as [->|Hne0].
  - by rewrite decide_False.
  - cbn [map_get]. destruct (decide (k0 = k')); [done|apply IH].
Qed.

Lemma map_set_length {V} (k : string) (v : V) (m : list (string * V)) :
  (length (map_set k v m) ≤ S (length m))%nat.
Proof.
  induction m as [|[k' v'] m IH]; cbn [map_set]; [done|].
  destruct (decide (k' = k)); cbn [length]; lia.
Qed.

Lemma map_set_keys_eq {V W} (k : string) (v : V) (w : W) m (m' : list (string * W)) :
  m.*1 = m'.*1 → (map_set k v m).*1 = (map_set k w m').*1.
Proof. intros H. by rewrite !map_set_keys, H. Qed.

Lemma map_set_NoDup {V} (k : string) (v : V) (m : list (string * V)) :
  NoDup m.*1 → NoDup (map_set k v m).*1.
Proof.
  intros H. rewrite map_set_keys. case_bool_decide as Hin; [done|].
  apply NoDup_app. split; [done|]. split; [|apply NoDup_singleton].
  intros x Hx ->%list_elem_of_singleton. done.
Qed.

Lemma map_set_present_keys {V} (k : string) (v : V) (m : list (string * V)) :
  k ∈ m.*1 → (map_set k v m).*1 = m.*1.
Proof. intros H. by rewrite map_set_keys, bool_decide_eq_true_2. Qed.

(** *** The oldest task *)

Lemma ltb_leb a b : String.ltb a b = negb (String.leb b a).
Proof.
  unfold String.ltb, String.leb. rewrite (String.compare_antisym b a).
  by destruct (String.compare a b).
Qed.

Lemma getOldestTask_spec r :
  match getOldestTask r with
  | None => tasks r = []
  | Some o => o ∈ (tasks r).*2
              ∧ ∀ t, t ∈ (tasks r).*2 → String.ltb (createdAt t) (createdAt o) = false
  end.
Proof.
  unfold getOldestTask. induction (tasks r) as [|kv l IH] using rev_ind; [done|].
  rewrite foldl_app. cbn [foldl]. rewrite fmap_app.
  destruct (foldl _ None l) as [o|].
  - destruct IH as [Ho Hmin].
    destruct (String.ltb (createdAt kv.2) (createdAt o)) eqn:Hlt.
    + split; [apply elem_of_app; right; by left|].
      intros t [Ht|Ht]%elem_of_app.
      * apply Hmin in Ht. rewrite ltb_leb in *.
        apply negb_false_iff in Ht. apply negb_true_iff in Hlt.
        apply negb_false_iff.
        destruct (String.leb_total (createdAt o) (createdAt kv.2)) as [H|H]; [congruence|].
        apply Is_true_true. apply Is_true_true in H, Ht.
        by apply (transitivity (R := String.le) H Ht).
      * apply list_elem_of_singleton in Ht as ->. rewrite ltb_leb.
        apply negb_false_iff, Is_true_true. apply (reflexivity (R := String.le)).
    + split; [apply elem_of_app; by left|].
      intros t [Ht|Ht]%elem_of_app; [by apply Hmin|].
      by apply list_elem_of_singleton in Ht as ->.
  - subst l. split; [by left|]. intros t Ht. cbn in Ht.
    apply list_elem_of_singleton in Ht as ->. rewrite ltb_leb.
    apply negb_false_iff, Is_true_true. apply (reflexivity (R := String.le)).
Qed.

(** *** Invariant of the registry *)

Lemma well_keyed_set r id task :
  well_keyed r → taskId task = id →
  ∀ k t, (k, t) ∈ map_set id task (tasks r) → taskId t = k.
Proof.
  intros Hk Hid k t [[= -> ->]|H]%map_set_elem; [done|by apply Hk].
Qed.

Lemma registry_bound_mono (c : JsNumber) (n n' : Z) :
  n' ≤ n →
  n ≤ 1 ∨ num_ge (n - 1) c = false →
  n' ≤ 1 ∨ num_ge (n' - 1) c = false.
Proof.
  intros Hle [H|H]; [left; lia|right].
  destruct (num_ge (n' - 1) c) eqn:E; [|done].
  apply (num_ge_mono _ (n - 1)) in E; [congruence|lia].
Qed.

Lemma registry_bound_le r r' :
  maxTasks r' = maxTasks r → (length (tasks r') ≤ length (tasks r))%nat →
  registry_bound r → registry_bound r'.
Proof.
  unfold registry_bound. intros -> Hle. cbn zeta. apply registry_bound_mono. lia.
Qed.

Lemma apply_op_inv o r :
  registry_bound r → well_keyed r →
  NoDup (tasks r).*1 → (tasks r).*1 = (abortControllers r).*1 →
  let r' := apply_op o r in
  maxTasks r' = maxTasks r
  ∧ registry_bound r' ∧ well_keyed r'
  ∧ NoDup (tasks r').*1 ∧ (tasks r').*1 = (abortControllers r').*1.
Proof.
  intros Hlen Hk Hnd Hkeys. destruct o as [input newId now|id st stp now|id res now|id now|id];
    cbn [apply_op].
  - unfold create.
    set (r1 := if num_ge _ _ then _ else r).
    assert (maxTasks r1 = maxTasks r
            ∧ (∀ n', n' ≤ Z.of_nat (length (tasks r1)) + 1 →
                     n' ≤ 1 ∨ num_ge (n' - 1) (maxTasks r) = false)
            ∧ well_keyed r1
            ∧ NoDup (tasks r1).*1 ∧ (tasks r1).*1 = (abortControllers r1).*1)
      as (H1 & H2 & H3 & H4 & H5).
    { subst r1. destruct (num_ge _ _) eqn:Hfull.
      - pose proof (getOldestTask_spec r) as Ho.
        destruct (getOldestTask r) as [o|].
        + destruct Ho as [Ho _]. apply list_elem_of_fmap in Ho as [[k t] [-> Hin]].
          cbn [snd tasks abortControllers maxTasks]. rewrite (Hk _ _ Hin).
          assert (k ∈ (tasks r).*1) as Hkin by (apply list_elem_of_fmap; by exists (k, t)).
          pose proof (map_delete_length k (tasks r) Hkin).
          split; [done|]. split.
          { intros n' Hn'. eapply registry_bound_mono; [|exact Hlen]. lia. }
          split.
          { intros k' t' H'. apply Hk. by apply (map_delete_elem k). }
          split; [by apply map_delete_NoDup|by apply map_delete_keys].
        + split; [done|]. split; [|done]. rewrite Ho. cbn [length]. intros n' Hn'. left. lia.
      - split; [done|]. split; [|done]. intros n' Hn'.
        destruct (decide (n' = Z.of_nat (length (tasks r)) + 1)) as [->|Hne].
        + right. by replace (_ - 1) with (Z.of_nat (length (tasks r))) by lia.
        + eapply registry_bound_mono; [|exact Hlen]. lia. }
    cbn [snd tasks abortControllers maxTasks]. split; [done|]. split.
    { unfold registry_bound. cbn [tasks maxTasks]. rewrite H1. apply H2.
      pose proof (map_set_length newId
        {| taskId := newId; createdAt := now; updatedAt := now; taskStatus := pending;
           taskInput := input; taskResult := None; currentStep := None |} (tasks r1)). lia. }
    split; [unfold well_keyed; cbn [tasks with_tasks]; by apply well_keyed_set|]. split; [by apply map_set_NoDup|by apply map_set_keys_eq].
  - unfold updateStatus. destruct (map_get id (tasks r)) as [t|] eqn:Hget; [|done].
    cbn [snd with_tasks tasks abortControllers maxTasks].
    assert (id ∈ (tasks r).*1) as Hin by (apply map_get_is_Some; by eexists).
    apply map_get_elem, Hk in Hget.
    split; [done|]. rewrite <- Hkeys, map_set_present_keys by done.
    assert (length (map_set id
      {| taskId := taskId t; createdAt := createdAt t; updatedAt := now; taskStatus := st;
         taskInput := taskInput t; taskResult := taskResult t;
         currentStep := match stp with Some s => Some s | None => currentStep t end |}
      (tasks r)) = length (tasks r)) as Hl.
    { rewrite <- (length_fmap fst), map_set_present_keys, length_fmap; done. }
    split; [eapply registry_bound_le; [| |exact Hlen]; [done|cbn [tasks with_tasks]; by rewrite Hl]|].
    split; [unfold well_keyed; cbn [tasks with_tasks]; by apply well_keyed_set|done].
  - unfold setResult. destruct (map_get id (tasks r)) as [t|] eqn:Hget; [|done].
    destruct (isTerminal (taskStatus t)); [by destruct (taskResult t)|].
    cbn [snd with_tasks tasks abortControllers maxTasks].
    assert (id ∈ (tasks r).*1) as Hin by (apply map_get_is_Some; by eexists).
    apply map_get_elem, Hk in Hget.
    split; [done|]. rewrite <- Hkeys, map_set_present_keys by done.
    assert (length (map_set id
      {| taskId := taskId t; createdAt := createdAt t; updatedAt := now;
         taskStatus := if decide (kind res = error_kind) then failed else completed;
         taskInput := taskInput t; taskResult := Some res; currentStep := currentStep t |}
      (tasks r)) = length (tasks r)) as Hl.
    { rewrite <- (length_fmap fst), map_set_present_keys, length_fmap; done. }
    split; [eapply registry_bound_le; [| |exact Hlen]; [done|cbn [tasks with_tasks]; by rewrite Hl]|].
    split; [unfold well_keyed; cbn [tasks with_tasks]; by apply well_keyed_set|done].
  - unfold cancel. destruct (map_get id (tasks r)) as [t|] eqn:Hget; [|done].
    destruct (_ || _); [|done].
    cbn [snd tasks abortControllers maxTasks].
    assert (id ∈ (tasks r).*1) as Hin by (apply map_get_is_Some; by eexists).
    apply map_get_elem, Hk in Hget.
    split; [done|]. rewrite map_set_present_keys by done.
    assert (length (map_set id
      {| taskId := taskId t; createdAt := createdAt t; updatedAt := now;
         taskStatus := cancelled; taskInput := taskInput t; taskResult := taskResult t;
         currentStep := currentStep t |}
      (tasks r)) = length (tasks r)) as Hl.
    { rewrite <- (length_fmap fst), map_set_present_keys, length_fmap; done. }
    split; [eapply registry_bound_le; [| |exact Hlen]; [done|cbn [tasks with_tasks]; by rewrite Hl]|].
    split; [unfold well_keyed; cbn [tasks with_tasks]; by apply well_keyed_set|]. split; [done|].
    destruct (map_get id (abortControllers r)) as [[|]|]; [done| |done].
    rewrite map_set_present_keys; [done|]. by rewrite <- Hkeys.
  - cbn [delete_task snd tasks abortControllers maxTasks].
    split; [done|]. pose proof (map_delete_length_le id (tasks r)).
    split; [eapply registry_bound_le; [| |exact Hlen]; [done|cbn [tasks]; lia]|]. split.
    { intros k' t' H'. apply Hk. by apply (map_delete_elem id). }
    split; [by apply map_delete_NoDup|by apply map_delete_keys].
Qed.

Lemma apply_ops_inv os r :
  registry_bound r → well_keyed r →
  NoDup (tasks r).*1 → (tasks r).*1 = (abortControllers r).*1 →
  let r' := apply_ops os r in
  maxTasks r' = maxTasks r
  ∧ registry_bound r' ∧ well_keyed r'
  ∧ NoDup (tasks r').*1 ∧ (tasks r').*1 = (abortControllers r').*1.
Proof.
  revert r. induction os as [|o os IH]; intros r Hlen Hk Hnd Hkeys; [done|].
  unfold apply_ops. cbn [foldl]. fold (apply_ops os (apply_op o r)).
  destruct (apply_op_inv o r Hlen Hk Hnd Hkeys) as (H1 & H2 & H3 & H4 & H5).
  destruct (IH (apply_op o r)) as (G1 & G2 & G3 & G4 & G5); try done.
  split; [congruence|done].
Qed.

Lemma new_registry_inv (c : JsNumber) os :
  let r := apply_ops os (new_registry c) in
  maxTasks r = c
  ∧ registry_bound r ∧ well_keyed r
  ∧ NoDup (tasks r).*1 ∧ (tasks r).*1 = (abortControllers r).*1.
Proof.
  destruct (apply_ops_inv os (new_registry c)) as (G1 & G2 & G3 & G4 & G5); try done.
  - left. cbn. lia.
  - intros k t H. by apply elem_of_nil in H.
  - constructor.
Qed.

(** X5.  Whatever sequence of [create], [updateStatus], [setResult],
    [cancel] and [delete] calls is made on a registry, the capacity is
    enforced as far as the test [size >= maxTasks] of [create] goes:
    the registry holds at most one task, or a number [n] of tasks with
    [n - 1 < maxTasks] (for [NaN]: with [n - 1 >= maxTasks] false, which
    is no bound).  So a registry whose capacity is a whole number
    [m >= 1] never holds more than [m] tasks, and one whose capacity is
    a fraction [q] holds fewer than [q + 1] (or one).  For every
    capacity, each stored task is found under its own id, and a task
    has an abort signal exactly when it is in the registry. *)
Theorem registry_capacity (c : JsNumber) (os : list Op) :
  let r := apply_ops os (new_registry c) in
  let n := Z.of_nat (length (list_tasks None r)) in
  (n ≤ 1 ∨ num_ge (n - 1) c = false)
  ∧ (∀ m : Z, c = m → 1 ≤ m → n ≤ m)
  ∧ (∀ q : Q, c = Finite q → n ≤ 1 ∨ (inject_Z n < q + 1)%Q)
  ∧ (∀ id t, get id r = Some t → taskId t = id)
  ∧ (∀ id, is_Some (getAbortSignal id r) ↔ is_Some (get id r)).
Proof.
  intros r n. destruct (new_registry_inv c os) as (G1 & G2 & G3 & G4 & G5).
  fold r in G1, G2, G3, G4, G5.
  assert (Hn : n ≤ 1 ∨ num_ge (n - 1) c = false).
  { subst n. unfold list_tasks. rewrite length_fmap. unfold registry_bound in G2.
    by rewrite G1 in G2. }
  split; [done|]. split; [|split; [|split]].
  - intros m -> Hm. destruct Hn as [Hn|Hn]; [lia|].
    rewrite num_ge_of_Z in Hn. apply bool_decide_eq_false in Hn. lia.
  - intros q -> . destruct Hn as [Hn|Hn]; [by left|right].
    apply num_ge_Finite in Hn. unfold Z.sub in Hn. rewrite inject_Z_plus in Hn.
    apply (Qplus_lt_l _ _ (inject_Z (-1))). ring_simplify.
    ring_simplify in Hn. exact Hn.
  - intros id t H. by apply map_get_elem, G3 in H.
  - intros id. unfold getAbortSignal, get. rewrite (map_get_is_Some id (tasks r)), G5.
    rewrite <- map_get_is_Some. destruct (map_get id (abortControllers r)); [|done].
    split; intros _; by eexists.
Qed.

Lemma registry_capacity_witness :
  Z.of_nat (length (list_tasks None
    (apply_ops [OpCreate Samples.sample_input "a" "t1"; OpCreate Samples.sample_input "b" "t2";
                OpCancel "a" "t3"; OpCreate Samples.sample_input "c" "t4"]
               (new_registry 2)))) ≤ 2.
Proof.
  apply (proj1 (proj2 (registry_capacity 2
    [OpCreate Samples.sample_input "a" "t1"; OpCreate Samples.sample_input "b" "t2";
     OpCancel "a" "t3"; OpCreate Samples.sample_input "c" "t4"])) 2); [reflexivity|lia].
Defined.

(** A capacity of one and a half lets a second task in; a capacity that
    is not a number never evicts. *)
Lemma registry_fractional_capacity :
  let ops := [OpCreate Samples.sample_input "a" "t1"; OpCreate Samples.sample_input "b" "t2";
              OpCreate Samples.sample_input "c" "t3"] in
  taskId <$> list_tasks None (apply_ops ops (new_registry (Finite (3 # 2)%Q))) = ["b"; "c"]
  ∧ taskId <$> list_tasks None (apply_ops ops (new_registry NaN)) = ["a"; "b"; "c"].
Proof. split; reflexivity. Qed.

(** *** Statistics *)

Lemma stats_fold (l : list (string * TaskState)) st :
  count_of (foldl (fun b kv => bump (taskStatus kv.2) b)
                  {| n_pending := 0; n_running := 0; n_completed := 0;
                     n_failed := 0; n_cancelled := 0 |} l) st
  = length (filter (fun t => taskStatus t = st) l.*2).
Proof.
  induction l as [|kv l IH] using rev_ind; [by destruct st|].
  rewrite foldl_app, fmap_app, filter_app, length_app, <- IH. cbn [foldl fmap list_fmap].
  rewrite filter_cons, filter_nil.
  destruct (taskStatus kv.2), st; cbn; destruct (decide _); try done; cbn; lia.
Qed.

Lemma stats_sum (l : list (string * TaskState)) :
  let b := foldl (fun b kv => bump (taskStatus kv.2) b)
                 {| n_pending := 0; n_running := 0; n_completed := 0;
                    n_failed := 0; n_cancelled := 0 |} l in
  (n_pending b + n_running b + n_completed b + n_failed b + n_cancelled b = length l)%nat.
Proof.
  induction l as [|kv l IH] using rev_ind; [done|].
  rewrite foldl_app, length_app. cbn [foldl length]. cbn zeta in IH.
  destruct (taskStatus kv.2); cbn; lia.
Qed.

(** X6.  [stats] agrees with [list]: the counter of each status is the
    number of tasks [list(status)] returns, the total is the number of
    tasks [list()] returns, and the five counters add up to the total. *)
Theorem stats_tally (r : Registry) :
  let s := stats r in
  (∀ st, count_of (stats_byStatus s) st = length (list_tasks (Some st) r))
  ∧ stats_total s = length (list_tasks None r)
  ∧ (n_pending (stats_byStatus s) + n_running (stats_byStatus s)
     + n_completed (stats_byStatus s) + n_failed (stats_byStatus s)
     + n_cancelled (stats_byStatus s) = stats_total s)%nat.
Proof.
  cbn zeta. split; [|split].
  - intros st. apply stats_fold.
  - unfold list_tasks. by rewrite length_fmap.
  - apply stats_sum.
Qed.

(** *** Cancellation *)

(** X7.  [cancel] succeeds exactly on a stored task that is pending or
    running.  It then marks the task cancelled, keeps its input and
    result, aborts its controller, and touches no other task or
    controller; when it fails the registry is unchanged. *)
Theorem cancel_spec (id now : string) (r : Registry) :
  let ok := (cancel id now r).1 in
  let r' := (cancel id now r).2 in
  (ok = true ↔ ∃ t, get id r = Some t ∧ (taskStatus t = pending ∨ taskStatus t = running))
  ∧ (ok = false → r' = r)
  ∧ (ok = true →
     (∃ t t', get id r = Some t ∧ get id r' = Some t'
              ∧ taskStatus t' = cancelled ∧ updatedAt t' = now
              ∧ taskInput t' = taskInput t ∧ taskResult t' = taskResult t
              ∧ createdAt t' = createdAt t)
     ∧ (is_Some (map_get id (abortControllers r)) →
        map_get id (abortControllers r') = Some true)
     ∧ ∀ id', id' ≠ id →
         get id' r' = get id' r
         ∧ map_get id' (abortControllers r') = map_get id' (abortControllers r)).
Proof.
  cbn zeta. unfold cancel, get. destruct (map_get id (tasks r)) as [t|] eqn:Hget.
  - destruct (taskStatus t) eqn:Hst; cbn [orb bool_decide fst snd];
      rewrite ?bool_decide_eq_true_2, ?bool_decide_eq_false_2 by done; cbn [orb fst snd].
    1,2: split; [split; [intros _; exists t; rewrite Hst; split; [done|tauto]|done]|];
         split; [done|]; intros _; split;
         [eexists t, _; split; [done|]; split; [apply map_get_set_eq|done]|];
         split;
         [intros [[|] Hc]; rewrite Hc; [done|apply map_get_set_eq]|];
         intros id' Hne; cbn [tasks abortControllers];
         split; [by apply map_get_set_ne|];
         destruct (map_get id (abortControllers r)) as [[|]|]; [done| |done];
         by apply map_get_set_ne.
    all: split; [split; [done|]; intros (t0 & [= <-] & [H|H]); congruence|];
         split; [done|]; done.
  - cbn [fst snd]. split; [split; [done|]; by intros (t0 & H & _)|]. split; done.
Qed.

(** X8.  A result that arrives after a cancellation is dropped: once a
    pending or running task without a result is cancelled, [setResult]
    reports [already_terminal] and changes nothing, so the task stays
    cancelled and without a result. *)
Theorem cancel_discards_late_result (id now now' : string) (res : OrchestrationResult)
    (r : Registry) (t : TaskState) :
  get id r = Some t →
  taskStatus t = pending ∨ taskStatus t = running →
  taskResult t = None →
  let r1 := (cancel id now r).2 in
  setResult id res now' r1 = (Failure already_terminal, r1)
  ∧ setResultSimple id res now' r1 = (false, r1)
  ∧ ∃ t', get id r1 = Some t' ∧ taskStatus t' = cancelled ∧ taskResult t' = None.
Proof.
  intros Hget Hst Hres. cbn zeta.
  assert (∃ t', get id (cancel id now r).2 = Some t' ∧ taskStatus t' = cancelled
                ∧ taskResult t' = None) as (t' & Hget' & Hst' & Hres').
  { unfold cancel, get in *. rewrite Hget.
    assert (bool_decide (taskStatus t = pending) || bool_decide (taskStatus t = running) = true)
      as -> by (destruct Hst as [-> | ->]; done).
    cbn [snd tasks]. rewrite map_get_set_eq. by eexists. }
  assert (setResult id res now' (cancel id now r).2
          = (Failure already_terminal, (cancel id now r).2)) as Hset.
  { unfold setResult. unfold get in Hget'. by rewrite Hget', Hst', Hres'. }
  split; [done|]. split; [|by exists t'].
  unfold setResultSimple. by rewrite Hset.
Qed.

Lemma cancel_discards_late_result_witness :
  let r := (create Samples.sample_input "a" "t1" (new_registry 10)).2 in
  setResult "a" Samples.ok_result "t3" (cancel "a" "t2" r).2
  = (Failure already_terminal, (cancel "a" "t2" r).2).
Proof.
  intros r.
  refine (proj1 (cancel_discards_late_result "a" "t2" "t3" Samples.ok_result r
    {| taskId := "a"; createdAt := "t1"; updatedAt := "t1"; taskStatus := pending;
       taskInput := Samples.sample_input; taskResult := None; currentStep := None |}
    _ _ _)).
  - reflexivity.
  - left. reflexivity.
  - reflexivity.
Defined.

(** X9.  [updateStatus] does not look at the current status, so it can
    take a task out of a terminal state; a task that was completed and
    then set back to running accepts a second result, which replaces
    the first. *)
Theorem updateStatus_reopens (id now1 now2 now3 : string)
    (res1 res2 : OrchestrationResult) (step : option string) (r : Registry) (t : TaskState) :
  get id r = Some t → isTerminal (taskStatus t) = false →
  let r1 := (setResult id res1 now1 r).2 in
  let r2 := (updateStatus id running step now2 r1).2 in
  (updateStatus id running step now2 r1).1 = true
  ∧ (setResult id res2 now3 r2).1 = Success false
  ∧ ∃ t', get id (setResult id res2 now3 r2).2 = Some t' ∧ taskResult t' = Some res2.
Proof.
  intros Hget Hterm. cbn zeta.
  destruct (setResult_first id res1 now1 r t Hget Hterm) as (t1 & -> & _ & _).
  cbn [snd]. unfold updateStatus. cbn [with_tasks tasks]. rewrite map_get_set_eq.
  cbn [fst snd]. split; [done|].
  unfold setResult, get. cbn [with_tasks tasks]. rewrite map_get_set_eq. cbn [taskStatus].
  change (isTerminal running) with false. cbn [fst snd with_tasks tasks].
  split; [done|]. rewrite map_get_set_eq. by eexists.
Qed.

Lemma updateStatus_reopens_witness :
  let r := (create Samples.sample_input "a" "t0" (new_registry 10)).2 in
  let r1 := (setResult "a" Samples.ok_result "t1" r).2 in
  let r2 := (updateStatus "a" running None "t2" r1).2 in
  (setResult "a" Samples.error_result "t3" r2).1 = Success false.
Proof.
  intros r r1 r2.
  refine (proj1 (proj2 (updateStatus_reopens "a" "t1" "t2" "t3" Samples.ok_result
    Samples.error_result None r
    {| taskId := "a"; createdAt := "t0"; updatedAt := "t0"; taskStatus := pending;
       taskInput := Samples.sample_input; taskResult := None; currentStep := None |}
    _ _))).
  - reflexivity.
  - reflexivity.
Defined.

(** *** Eviction *)

(** X10.  [create] on a full registry evicts one task, and that task
    has the least [createdAt] of all stored tasks; every other task
    stays, and the new task is stored as pending, with the given input
    and without a result. *)
Theorem create_evicts_oldest (m : Z) (os : list Op) (input : OrchestrationInput)
    (newId now : string) :
  1 ≤ m →
  let r := apply_ops os (new_registry m) in
  let r' := (create input newId now r).2 in
  Z.of_nat (length (list_tasks None r)) = m →
  ∃ o, o ∈ list_tasks None r
       ∧ (∀ t, t ∈ list_tasks None r → String.ltb (createdAt t) (createdAt o) = false)
       ∧ (taskId o ≠ newId → get (taskId o) r' = None)
       ∧ (∀ id, id ≠ taskId o → id ≠ newId → get id r' = get id r)
       ∧ get newId r' =
           Some {| taskId := newId; createdAt := now; updatedAt := now;
                   taskStatus := pending; taskInput := input;
                   taskResult := None; currentStep := None |}.
Proof.
  intros Hm r r' Hfull.
  destruct (new_registry_inv m os) as (G1 & G2 & G3 & G4 & G5).
  fold r in G1, G2, G3, G4, G5.
  unfold list_tasks in *. rewrite length_fmap in Hfull.
  pose proof (getOldestTask_spec r) as Ho.
  destruct (getOldestTask r) as [o|] eqn:Hold.
  2:{ rewrite Ho in Hfull. cbn in Hfull. lia. }
  destruct Ho as [Ho Hmin]. exists o. split; [done|]. split; [done|].
  subst r'. unfold create, get. rewrite Hold, G1, num_ge_of_Z, bool_decide_eq_true_2 by lia.
  cbn [snd tasks]. split; [|split].
  - intros Hne. rewrite map_get_set_ne by done.
    apply map_get_None. by apply map_delete_NoDup.
  - intros id H1 H2. rewrite map_get_set_ne by done. by apply map_get_delete_ne.
  - apply map_get_set_eq.
Qed.

Lemma create_evicts_oldest_witness :
  let r := apply_ops [OpCreate Samples.sample_input "a" "t2";
                      OpCreate Samples.sample_input "b" "t1"] (new_registry 2) in
  ∃ o, o ∈ list_tasks None r
       ∧ (∀ t, t ∈ list_tasks None r → String.ltb (createdAt t) (createdAt o) = false)
       ∧ (taskId o ≠ "c" → get (taskId o) (create Samples.sample_input "c" "t3" r).2 = None)
       ∧ (∀ id, id ≠ taskId o → id ≠ "c" →
            get id (create Samples.sample_input "c" "t3" r).2 = get id r)
       ∧ get "c" (create Samples.sample_input "c" "t3" r).2 =
           Some {| taskId := "c"; createdAt := "t3"; updatedAt := "t3";
                   taskStatus := pending; taskInput := Samples.sample_input;
                   taskResult := None; currentStep := None |}.
Proof.
  intros r.
  apply (create_evicts_oldest 2
    [OpCreate Samples.sample_input "a" "t2"; OpCreate Samples.sample_input "b" "t1"]
    Samples.sample_input "c" "t3").
  - lia.
  - reflexivity.
Defined.

End MoreRegistryFacts.

(** ** Concurrency limiter: the counter and rejected waiters *)

Section MoreLimiterFacts.
Import Js Limiter.

Lemma remove_notin i l : i ∉ l → remove i l = l.
Proof.
  unfold remove. induction l as [|j l IH]; intros Hi; [done|].
  apply not_elem_of_cons in Hi as [Hne Hi].
  rewrite filter_cons_True by done. by rewrite IH.
Qed.

Lemma length_remove_NoDup i l :
  NoDup l → i ∈ l → S (length (remove i l)) = length l.
Proof.
  induction l as [|j l IH]; intros Hnd Hi; [by apply elem_of_nil in Hi|].
  apply NoDup_cons in Hnd as [Hj Hnd]. unfold remove in *. rewrite filter_cons.
  destruct (decide (j ≠ i)) as [Hne|Heq].
  - apply elem_of_cons in Hi as [->|Hi]; [done|]. cbn [length]. by rewrite IH.
  - apply dec_stable in Heq as ->. cbn [length]. f_equal.
    f_equal. by apply remove_notin.
Qed.

Lemma elem_of_remove i j l : j ∈ remove i l ↔ j ∈ l ∧ j ≠ i.
Proof. unfold remove. rewrite list_elem_of_filter. tauto. Qed.

Lemma NoDup_remove i l : NoDup l → NoDup (remove i l).
Proof. apply NoDup_filter. Qed.

Lemma known_false s i :
  known s i = false →
  (i ∉ queue s) ∧ (i ∉ granted s) ∧ (i ∉ rejected s) ∧ (i ∉ started s)
  ∧ (i ∉ (finished s).*1).
Proof.
  unfold known. intros H%bool_decide_eq_false. rewrite !elem_of_app in H. tauto.
Qed.

Lemma head_tail_queue (q : list nat) :
  (q = [] ∧ option_list (head q) = [] ∧ tail q = [])
  ∨ ∃ h, q = h :: tail q ∧ option_list (head q) = [h].
Proof. destruct q as [|h q]; [by left|right; by exists h]. Qed.

Ltac inst_all x :=
  repeat match goal with
         | H : ∀ y : nat, _ |- _ => let Hx := fresh in pose proof (H x) as Hx; clear H
         end.

Ltac nodup :=
  rewrite ?fmap_app; cbn [fmap list_fmap fst]; simpl option_list;
  rewrite ?NoDup_app, ?NoDup_cons in *;
  repeat match goal with H : _ ∧ _ |- _ => destruct H end;
  repeat split;
  try (by eauto using NoDup_remove, NoDup_nil_2, NoDup_singleton);
  try (let x := fresh in
       intros x; inst_all x;
       rewrite ?elem_of_app, ?elem_of_remove, ?elem_of_cons, ?list_elem_of_singleton,
         ?elem_of_nil in *;
       naive_solver).

Lemma step_inv l s s' : step l s = Some s' → limiter_inv s → limiter_inv s'.
Proof.
  unfold limiter_inv. intros Hstep [Hc Hnd].
  destruct l as [i|i b|i|i|i|]; cbn [step] in Hstep.
  - destruct (known s i) eqn:Hk; [done|]. apply known_false in Hk as (K1 & K2 & K3 & K4 & K5).
    destruct (num_ge _ _); inversion Hstep; subst; cbn [currentCount started queue granted
      rejected finished]; (split; [rewrite ?length_app; cbn [length]; lia|]).
    + nodup.
    + nodup.
  - case_bool_decide as Hi; [|done]. inversion Hstep; subst; clear Hstep.
    cbn [currentCount started queue granted rejected finished].
    assert (NoDup (started s)) as Hs by (rewrite !NoDup_app in Hnd; tauto).
    split; [pose proof (length_remove_NoDup i _ Hs Hi); lia|].
    destruct (queue s) as [|h q]; cbn [head tail]; nodup.
  - case_bool_decide as Hg.
    + inversion Hstep; subst; clear Hstep.
      cbn [currentCount started queue granted rejected finished].
      split; [rewrite length_app; cbn [length]; lia|]. nodup.
    + case_bool_decide as Hr; [|done]. inversion Hstep; subst; clear Hstep.
      cbn [currentCount started queue granted rejected finished].
      split; [done|]. nodup.
  - destruct (known s i) eqn:Hk; [done|]. apply known_false in Hk as (K1 & K2 & K3 & K4 & K5).
    destruct (num_ge _ _); inversion Hstep; subst; cbn [currentCount started queue granted
      rejected finished]; (split; [rewrite ?length_app; cbn [length]; lia|]); [done|].
    nodup.
  - destruct (bool_decide (i ∈ queue s)) eqn:Hq; [|done]. apply bool_decide_eq_true in Hq.
    cbn [andb] in Hstep. destruct (num_gt _ _); [|done].
    inversion Hstep; subst; clear Hstep.
    cbn [currentCount started queue granted rejected finished].
    split; [done|]. nodup.
  - inversion Hstep; subst; clear Hstep.
    cbn [currentCount started queue granted rejected finished].
    split; [done|]. cbn [app]. nodup.
Qed.

Lemma exec_inv ls s s' : exec ls s = Some s' → limiter_inv s → limiter_inv s'.
Proof.
  revert s. induction ls as [|l ls IH]; intros s Hexec Hinv; cbn [exec] in Hexec.
  - by inversion Hexec; subst.
  - destruct (step l s) as [s1|] eqn:Hstep; [|done].
    apply (IH s1); [done|]. by apply (step_inv l s).
Qed.

Lemma construct_inv options s0 :
  construct options = Some s0 →
  limiter_inv s0 ∧ slots_in_use s0 = 0 ∧ num_lt (maxConcurrent s0) 1 = false.
Proof.
  unfold construct, limiter_inv, slots_in_use.
  destruct options as [n|m t]; destruct (num_lt _ _) eqn:E; intros [= <-]; cbn;
    (split; [split; [done|constructor]|done]).
Qed.

(** X11.  Under every schedule, racing ones included, the counter
    behind [running] is exactly the number of tasks in flight: it is
    never negative, and no call is counted or started twice. *)
Theorem limiter_running_counts_tasks (options : Options) (ls : list Label) (s0 s : State) :
  construct options = Some s0 →
  exec ls s0 = Some s →
  running s = Z.of_nat (length (started s)) ∧ 0 ≤ running s ∧ NoDup (started s).
Proof.
  intros Hc Hexec. apply construct_inv in Hc as [Hinv _].
  destruct (exec_inv ls s0 s Hexec Hinv) as [Hcount Hnd]. unfold running.
  split; [done|]. split; [lia|]. rewrite !NoDup_app in Hnd. tauto.
Qed.

Lemma limiter_running_counts_tasks_witness :
  ∃ s0 s,
    construct (OptNumber 1) = Some s0
    ∧ exec [Call 0%nat; Call 1%nat; Settle 0%nat true; Call 2%nat; Resume 1%nat] s0 = Some s
    ∧ running s = Z.of_nat (length (started s)).
Proof.
  eexists _, _. split; [reflexivity|]. split; [vm_compute; reflexivity|].
  refine (proj1 (limiter_running_counts_tasks (OptNumber 1)
    [Call 0%nat; Call 1%nat; Settle 0%nat true; Call 2%nat; Resume 1%nat] _ _ _ _)).
  - reflexivity.
  - vm_compute. reflexivity.
Defined.

(** X12.  When calls are submitted so that none arrives between the
    release of a waiter and its continuation (a batch handed over in
    one go is such a schedule), a limiter built with a whole number
    [m] as [maxConcurrent] never runs more than [m] tasks at once, and
    the counter stays within [0 .. m].  The constructor also accepts
    capacities that are not whole numbers, and then the limit is the
    one the test [currentCount >= maxConcurrent] enforces: with a
    fraction [q], fewer than [q + 1] tasks run at once (two with one
    and a half); with [NaN] or [Infinity] the test never holds.  In
    each case the number [n] of tasks in flight is zero or has
    [n - 1 >= maxConcurrent] false. *)
Theorem limiter_batch_bound (options : Options) (ls : list Label) (s0 s : State) :
  construct options = Some s0 →
  exec ls s0 = Some s →
  no_call_during_handover ls s0 = true →
  let n := Z.of_nat (length (started s)) in
  running s = n
  ∧ maxConcurrent s = maxConcurrent s0
  ∧ num_lt (maxConcurrent s) 1 = false
  ∧ (n = 0 ∨ num_ge (n - 1) (maxConcurrent s) = false)
  ∧ (∀ m : Z, maxConcurrent s = m → 1 ≤ m ∧ n ≤ m ∧ 0 ≤ running s ∧ running s ≤ m)
  ∧ (∀ q : Q, maxConcurrent s = Finite q → (inject_Z n < q + 1)%Q).
Proof.
  intros Hc Hexec Hok n. apply construct_inv in Hc as (Hinv & Hslots & Hone).
  destruct (limiter_bound_without_late_calls ls s0 s Hexec Hok) as [Hb Hmax].
  { left. lia. }
  destruct (exec_inv ls s0 s Hexec Hinv) as [Hcount _]. unfold running.
  rewrite Hcount in Hb. fold n in Hb, Hcount. rewrite Hmax.
  split; [done|]. split; [done|]. split; [done|].
  assert (Hn : n = 0 ∨ num_ge (n - 1) (maxConcurrent s) = false).
  { destruct Hb as [Hb|Hb]; [left; subst n; lia|by right]. }
  rewrite Hmax in Hn. split; [done|]. split.
  - intros m Hm. rewrite Hm in Hone, Hn. rewrite num_lt_of_Z in Hone.
    apply bool_decide_eq_false in Hone. rewrite num_ge_of_Z in Hn.
    rewrite Hcount. subst n. split; [lia|].
    destruct Hn as [Hn|Hn]; [lia|]. apply bool_decide_eq_false in Hn. lia.
  - intros q Hq. rewrite Hq in Hone, Hn. destruct Hn as [Hn|Hn].
    + rewrite Hn. unfold num_lt, of_Z in Hone. apply negb_false_iff, Qle_bool_iff in Hone.
      apply Qlt_le_trans with (y := (1 + 1)%Q); [done|].
      rewrite (Qplus_comm q). by apply Qplus_le_r.
    + apply num_ge_Finite in Hn. unfold Z.sub in Hn. rewrite inject_Z_plus in Hn.
      apply (Qplus_lt_l _ _ (inject_Z (-1))). ring_simplify.
      ring_simplify in Hn. exact Hn.
Qed.

Lemma limiter_batch_bound_witness :
  ∃ s0 s,
    construct (OptObject 2 None) = Some s0
    ∧ exec [Call 0%nat; Call 1%nat; Call 2%nat; Settle 0%nat true; Resume 2%nat;
            Settle 1%nat false; Settle 2%nat true] s0 = Some s
    ∧ Z.of_nat (length (started s)) ≤ 2.
Proof.
  eexists _, _. split; [reflexivity|]. split; [vm_compute; reflexivity|].
  refine (proj1 (proj2 (proj1 (proj2 (proj2 (proj2 (proj2
    (limiter_batch_bound (OptObject 2 None)
      [Call 0%nat; Call 1%nat; Call 2%nat; Settle 0%nat true; Resume 2%nat;
       Settle 1%nat false; Settle 2%nat true] _ _ _ _ _))))) 2 _))).
  - reflexivity.
  - vm_compute. reflexivity.
  - vm_compute. reflexivity.
  - reflexivity.
Defined.

(** With a capacity of one and a half, a batch of three calls has two
    tasks in flight; with [NaN], which the constructor lets through,
    all three. *)
Lemma limiter_fractional_capacity :
  (∃ s0 s, construct (OptNumber (Finite (3 # 2)%Q)) = Some s0
           ∧ exec [Call 0%nat; Call 1%nat; Call 2%nat] s0 = Some s
           ∧ started s = [0%nat; 1%nat] ∧ queue s = [2%nat])
  ∧ (∃ s0 s, construct (OptNumber NaN) = Some s0
             ∧ exec [Call 0%nat; Call 1%nat; Call 2%nat] s0 = Some s
             ∧ started s = [0%nat; 1%nat; 2%nat] ∧ queue s = []).
Proof.
  split; eexists _, _; (split; [reflexivity|]); (split; [vm_compute; reflexivity|]); done.
Qed.

Lemma NoDup_fst_functional {A B} (l : list (A * B)) k a b :
  NoDup l.*1 → (k, a) ∈ l → (k, b) ∈ l → a = b.
Proof.
  induction l as [|[k' v] l IH]; rewrite ?fmap_cons; cbn [fst].
  - by intros _ ?%elem_of_nil.
  - intros [Hk Hnd]%NoDup_cons Ha Hb.
    apply elem_of_cons in Ha as [Ha|Ha]; apply elem_of_cons in Hb as [Hb|Hb];
      simplify_eq.
    + done.
    + destruct Hk. apply list_elem_of_fmap. by exists (k', b).
    + destruct Hk. apply list_elem_of_fmap. by exists (k', a).
    + by apply IH.
Qed.

(** A call whose wait was rejected stays rejected. *)
Lemma rejected_step l s s' i :
  step l s = Some s' → limiter_inv s →
  i ∈ rejected s ∨ (i, false) ∈ finished s →
  i ∈ rejected s' ∨ (i, false) ∈ finished s'.
Proof.
  intros Hstep [_ Hnd] Hi.
  destruct l as [j|j b|j|j|j|]; cbn [step] in Hstep.
  - destruct (known s j); [done|].
    destruct (num_ge _ _); inversion Hstep; subst; done.
  - case_bool_decide; [|done]. inversion Hstep; subst; cbn [rejected finished].
    rewrite elem_of_app. tauto.
  - case_bool_decide as Hg.
    + inversion Hstep; subst; done.
    + case_bool_decide as Hr; [|done]. inversion Hstep; subst; cbn [rejected finished].
      rewrite elem_of_remove, elem_of_app, list_elem_of_singleton.
      destruct (decide (i = j)) as [->|Hne]; [by right; right|tauto].
  - destruct (known s j); [done|].
    destruct (num_ge _ _); inversion Hstep; subst; done.
  - destruct (_ && _); [|done]. inversion Hstep; subst; cbn [rejected finished].
    rewrite elem_of_app. tauto.
  - inversion Hstep; subst; cbn [rejected finished]. rewrite elem_of_app. tauto.
Qed.

Lemma rejected_exec ls s s' i :
  exec ls s = Some s' → limiter_inv s →
  i ∈ rejected s ∨ (i, false) ∈ finished s →
  i ∈ rejected s' ∨ (i, false) ∈ finished s'.
Proof.
  revert s. induction ls as [|l ls IH]; intros s Hexec Hinv Hi; cbn [exec] in Hexec.
  - by inversion Hexec; subst.
  - destruct (step l s) as [s1|] eqn:Hstep; [|done].
    apply (IH s1); [done|by apply (step_inv l s)|by apply (rejected_step l s)].
Qed.

(** X13.  A call that is waiting for a slot when its wait times out, or
    when [clearQueue] is called, never gets to run its task: from then
    on it is either about to reject or has rejected, it is not among
    the tasks in flight, and it never completes as fulfilled. *)
Theorem rejected_waiter_never_runs (options : Options) (ls1 ls2 : list Label)
    (l : Label) (i : nat) (s0 s1 s2 : State) :
  construct options = Some s0 →
  exec ls1 s0 = Some s1 →
  i ∈ queue s1 →
  l = Timeout i ∨ l = ClearQueue →
  exec (l :: ls2) s1 = Some s2 →
  (i ∉ started s2) ∧ ((i, true) ∉ finished s2)
  ∧ (i ∈ rejected s2 ∨ (i, false) ∈ finished s2).
Proof.
  intros Hc H1 Hq Hl H2. apply construct_inv in Hc as [Hinv0 _].
  pose proof (exec_inv ls1 s0 s1 H1 Hinv0) as Hinv1.
  cbn [exec] in H2. destruct (step l s1) as [s1'|] eqn:Hstep; [|done].
  pose proof (step_inv l s1 s1' Hstep Hinv1) as Hinv1'.
  assert (i ∈ rejected s1') as Hr.
  { destruct Hl as [-> | ->]; cbn [step] in Hstep.
    - destruct (_ && _); [|done]. inversion Hstep; subst; cbn [rejected].
      rewrite elem_of_app, list_elem_of_singleton. tauto.
    - inversion Hstep; subst; cbn [rejected]. rewrite elem_of_app. tauto. }
  pose proof (rejected_exec ls2 s1' s2 i H2 Hinv1' (or_introl Hr)) as Hi.
  destruct (exec_inv ls2 s1' s2 H2 Hinv1') as [_ Hnd].
  assert (i ∈ rejected s2 ∨ i ∈ (finished s2).*1) as Hi'.
  { destruct Hi as [Hi|Hi]; [by left|right].
    apply list_elem_of_fmap. by exists (i, false). }
  split; [|split; [|done]].
  - rewrite !NoDup_app in Hnd. destruct Hnd as (_ & _ & _ & _ & _ & Hrs & _ & Hsf & _).
    intros Hs. destruct Hi' as [Hi'|Hi'].
    + apply (Hrs i Hi'). rewrite elem_of_app. by left.
    + by apply (Hsf i Hs).
  - intros Ht. rewrite !NoDup_app in Hnd.
    destruct Hnd as (_ & _ & _ & _ & _ & Hrs & _ & _ & Hf).
    destruct Hi as [Hi|Hi].
    + apply (Hrs i Hi). rewrite elem_of_app. right.
      apply list_elem_of_fmap. by exists (i, true).
    + pose proof (NoDup_fst_functional _ _ _ _ Hf Ht Hi). done.
Qed.


Lemma rejected_waiter_never_runs_witness :
  ∃ s0 s1 s2,
    construct (OptObject 1 (Some (of_Z 50))) = Some s0
    ∧ exec [Call 0%nat; Call 1%nat] s0 = Some s1
    ∧ exec [Timeout 1%nat; Settle 0%nat true; Resume 1%nat] s1 = Some s2
    ∧ (1%nat ∉ started s2) ∧ ((1%nat, true) ∉ finished s2).
Proof.
  destruct (construct (OptObject 1 (Some (of_Z 50)))) as [s0|] eqn:Hc;
    [|vm_compute in Hc; discriminate Hc].
  destruct (exec [Call 0%nat; Call 1%nat] s0) as [s1|] eqn:H1;
    [|vm_compute in Hc; injection Hc as <-; vm_compute in H1; discriminate H1].
  destruct (exec [Timeout 1%nat; Settle 0%nat true; Resume 1%nat] s1) as [s2|] eqn:H2;
    [|vm_compute in Hc; injection Hc as <-; vm_compute in H1; injection H1 as <-;
      vm_compute in H2; discriminate H2].
  exists s0, s1, s2. split; [done|]. split; [done|]. split; [done|].
  destruct (rejected_waiter_never_runs (OptObject 1 (Some (of_Z 50)))
    [Call 0%nat; Call 1%nat] [Settle 0%nat true; Resume 1%nat] (Timeout 1%nat) 1%nat
    s0 s1 s2 Hc H1) as (G1 & G2 & _).
  - vm_compute in Hc. injection Hc as <-. vm_compute in H1. injection H1 as <-.
    vm_compute. apply list_elem_of_singleton. reflexivity.
  - by left.
  - exact H2.
  - split; [exact G1|exact G2].
Defined.

End MoreLimiterFacts.

(** ** Plan validation: what an accepted plan satisfies *)

Section MorePlanFacts.
Import Js Skills Types PlanValidator.

Lemma find_powerful_None (allowed caps : list Capability) :
  List.find (fun cap => negb (bool_decide (cap ∈ allowed)) &&
                        (bool_decide (cap = escalate) || bool_decide (cap = network_access)))
            caps = None
  ↔ ∀ cap, cap ∈ caps → cap = escalate ∨ cap = network_access → cap ∈ allowed.
Proof.
  induction caps as [|c caps IH]; cbn [List.find].
  - split; [|done]. intros _ cap H. by apply elem_of_nil in H.
  - destruct (negb _ && _) eqn:E.
    + split; [done|]. intros H. exfalso.
      apply andb_true_iff in E as [E1 E2]. apply negb_true_iff, bool_decide_eq_false in E1.
      apply E1, H; [by left|]. apply orb_true_iff in E2 as [E2|E2];
        apply bool_decide_eq_true in E2; tauto.
    + rewrite IH. split.
      * intros H cap [->|Hin]%elem_of_cons Hp; [|by apply H].
        apply andb_false_iff in E as [E|E].
        -- by apply negb_false_iff, bool_decide_eq_true in E.
        -- apply orb_false_iff in E as [E1 E2].
           apply bool_decide_eq_false in E1, E2. tauto.
      * intros H cap Hin. apply H. by right.
Qed.

Lemma validateStep_spec step cfg :
  validateStep step cfg = Valid ↔ step_allowed cfg step.
Proof.
  unfold validateStep, step_allowed.
  destruct (startsWith (agentResidence step) "Liku/"); cbn [negb]; [|split; [done|by intros [? _]]].
  destruct (List.find _ _) eqn:Hf.
  - split; [done|]. intros [_ H]. exfalso.
    assert (List.find (fun cap => negb (bool_decide (cap ∈ allowedCapabilities cfg)) &&
              (bool_decide (cap = escalate) || bool_decide (cap = network_access)))
              (PRIVILEGE_CAPABILITIES (getResidencePrivilege (agentResidence step))) = None)
      as Hnone; [|congruence].
    apply find_powerful_None. intros cap Hin Hp.
    destruct (getResidencePrivilege (agentResidence step)) eqn:Hpriv.
    + apply list_elem_of_singleton in Hin. destruct Hp; congruence.
    + cbn [PRIVILEGE_CAPABILITIES] in Hin. rewrite !elem_of_cons, elem_of_nil in Hin.
      destruct Hp; subst; intuition discriminate.
    + destruct (H eq_refl). by destruct Hp; subst.
  - split; [|done]. intros _. split; [done|]. intros Hroot. rewrite Hroot in Hf.
    pose proof (proj1 (find_powerful_None _ _) Hf) as H.
    split; apply H; cbn [PRIVILEGE_CAPABILITIES]; rewrite ?elem_of_cons; tauto.
Qed.

Lemma validate_steps_spec steps cfg :
  validate_steps steps cfg = Valid ↔ ∀ s, s ∈ steps → step_allowed cfg s.
Proof.
  induction steps as [|s steps IH]; cbn [validate_steps].
  - split; [|done]. intros _ s H. by apply elem_of_nil in H.
  - destruct (validateStep s cfg) eqn:Hs.
    + rewrite IH. apply validateStep_spec in Hs. split.
      * intros H x [->|Hx]%elem_of_cons; [done|by apply H].
      * intros H x Hx. apply H. by right.
    + split; [done|]. intros H.
      assert (validateStep s cfg = Valid) as Hv; [|congruence].
      apply validateStep_spec, H. by left.
Qed.

Lemma first_missing_None ids sid deps :
  first_missing ids sid deps = None ↔ ∀ d, d ∈ deps → d ∈ ids.
Proof.
  induction deps as [|d deps IH]; cbn [first_missing].
  - split; [|done]. intros _ d H. by apply elem_of_nil in H.
  - case_bool_decide as Hd.
    + rewrite IH. split.
      * intros H x [->|Hx]%elem_of_cons; [done|by apply H].
      * intros H x Hx. apply H. by right.
    + split; [done|]. intros H. destruct Hd. apply H. by left.
Qed.

Lemma first_missing_Some ids sid deps r :
  first_missing ids sid deps = Some r → ∃ details, r = Invalid missing_dependency details.
Proof.
  induction deps as [|d deps IH]; cbn [first_missing]; [done|].
  case_bool_decide; [done|]. intros [= <-]. by eexists.
Qed.

Lemma checkMissingDependencies_loop_spec ids steps :
  checkMissingDependencies_loop ids steps = Valid
  ↔ ∀ s d, s ∈ steps → d ∈ dependsOn s → d ∈ ids.
Proof.
  induction steps as [|s steps IH]; cbn [checkMissingDependencies_loop].
  - split; [|done]. intros _ s d H. by apply elem_of_nil in H.
  - destruct (first_missing ids (id s) (dependsOn s)) as [r|] eqn:Hf.
    + destruct (first_missing_Some _ _ _ _ Hf) as [details ->].
      split; [done|]. intros H.
      assert (first_missing ids (id s) (dependsOn s) = None) as Hn; [|congruence].
      apply first_missing_None. intros d Hd. apply (H s); [by left|done].
    + rewrite IH. pose proof (proj1 (first_missing_None _ _ _) Hf) as Hs. split.
      * intros H x d [->|Hx]%elem_of_cons Hd; [by apply Hs|by apply (H x)].
      * intros H x d Hx. apply H. by right.
Qed.

Lemma checkMissingDependencies_spec steps :
  checkMissingDependencies steps = Valid
  ↔ ∀ s d, s ∈ steps → d ∈ dependsOn s → d ∈ id <$> steps.
Proof.
  unfold checkMissingDependencies. rewrite checkMissingDependencies_loop_spec.
  by setoid_rewrite elem_of_stepIds.
Qed.

Lemma check_groups_spec groups maxPar :
  check_groups groups maxPar = Valid
  ↔ ∀ k g, (k, g) ∈ groups →
           Z.of_nat (length (filter (fun s => parallel s = true) g)) ≤ maxPar.
Proof.
  induction groups as [|[k g] groups IH]; cbn [check_groups].
  - split; [|done]. intros _ k g H. by apply elem_of_nil in H.
  - destruct (decide _) as [Hgt|Hle].
    + split; [done|]. intros H. specialize (H k g (list_elem_of_here _ _)). lia.
    + rewrite IH. split.
      * intros H k' g' [[= -> ->]|Hin]%elem_of_cons; [lia|by apply (H k')].
      * intros H k' g' Hin. apply (H k'). by right.
Qed.

Lemma map_get_of_elem {V} (k : string) (v : V) m :
  NoDup m.*1 → (k, v) ∈ m → map_get k m = Some v.
Proof.
  induction m as [|[k' v'] m IH]; rewrite ?fmap_cons; cbn [fst map_get].
  - by intros _ ?%elem_of_nil.
  - intros [Hk' Hnd]%NoDup_cons [[= -> ->]|Hin]%elem_of_cons.
    + by rewrite decide_True.
    + rewrite decide_False; [by apply IH|]. intros ->. apply Hk'.
      apply list_elem_of_fmap. by exists (k, v).
Qed.

Lemma group_by_dependencies_spec steps groups :
  NoDup groups.*1 →
  NoDup (group_by_dependencies steps groups).2.*1
  ∧ (∀ key, key ∈ (group_by_dependencies steps groups).2.*1
            ↔ key ∈ groups.*1 ∨ ∃ s, s ∈ steps ∧ group_key s = key)
  ∧ ∀ key, default [] (map_get key (group_by_dependencies steps groups).2)
           = default [] (map_get key groups)
             ++ filter (fun s' => join "," (dependsOn s') = key) (normalize_step <$> steps).
Proof.
  revert groups. induction steps as [|s steps IH]; intros groups Hnd.
  - cbn [group_by_dependencies snd]. split; [done|]. split.
    + intros key. split; [by left|]. intros [?|(s & Hs & _)]; [done|].
      by apply elem_of_nil in Hs.
    + intros key. by rewrite fmap_nil, filter_nil, app_nil_r.
  - cbn [group_by_dependencies]. fold (group_key s).
    set (group := default [] (map_get (group_key s) groups)
                  ++ [with_dependsOn s (sort_strings (dependsOn s))]).
    specialize (IH (map_set (group_key s) group groups) (map_set_NoDup _ _ _ Hnd)).
    destruct (group_by_dependencies steps _) as [rest' groups']. cbn [snd] in *.
    destruct IH as (IH1 & IH2 & IH3). split; [done|]. split.
    + intros key. rewrite IH2, map_set_keys. split.
      * intros [Hk|(x & Hx & Hkey)].
        -- case_bool_decide; [by left|].
           apply elem_of_app in Hk as [Hk|Hk]; [by left|].
           apply list_elem_of_singleton in Hk as ->. right. exists s. split; [by left|done].
        -- right. exists x. split; [by right|done].
      * intros [Hk|(x & [->|Hx]%elem_of_cons & Hkey)].
        -- left. case_bool_decide; [done|]. apply elem_of_app. by left.
        -- left. subst key. case_bool_decide; [done|]. apply elem_of_app. right. by left.
        -- right. by exists x.
    + intros key. rewrite IH3, fmap_cons, filter_cons.
      change (join "," (dependsOn (normalize_step s))) with (group_key s).
      destruct (decide (group_key s = key)) as [<-|Hne].
      * rewrite map_get_set_eq. subst group. cbn [default from_option].
        unfold Datatypes.id. by rewrite <- app_assoc.
      * by rewrite map_get_set_ne.
Qed.

Lemma parallel_group_length steps key :
  length (filter (fun s => parallel s = true)
            (filter (fun s' => join "," (dependsOn s') = key) (normalize_step <$> steps)))
  = length (parallel_group steps key).
Proof.
  unfold parallel_group. induction steps as [|s steps IH]; [done|].
  rewrite fmap_cons, !filter_cons.
  change (join "," (dependsOn (normalize_step s))) with (group_key s).
  destruct (decide (group_key s = key)) as [Hk|Hk].
  - rewrite filter_cons. change (parallel (normalize_step s)) with (parallel s).
    destruct (decide (parallel s = true)) as [Hp|Hp].
    + rewrite decide_True by done. cbn [length]. by rewrite IH.
    + rewrite decide_False by tauto. done.
  - rewrite decide_False by tauto. done.
Qed.

Lemma checkParallelism_spec steps maxPar :
  (checkParallelism steps maxPar).1 = Valid
  ↔ ∀ s, s ∈ steps → Z.of_nat (length (parallel_group steps (group_key s))) ≤ maxPar.
Proof.
  unfold checkParallelism.
  destruct (group_by_dependencies_spec steps []) as (Hnd & Hkeys & Hget); [constructor|].
  destruct (group_by_dependencies steps []) as [steps' groups]. cbn [fst snd] in *.
  rewrite check_groups_spec. split.
  - intros H s Hs.
    assert (group_key s ∈ groups.*1) as Hin by (apply Hkeys; right; by exists s).
    apply map_get_is_Some in Hin as [g Hg].
    specialize (H _ _ (map_get_elem _ _ _ Hg)).
    specialize (Hget (group_key s)). rewrite Hg in Hget. cbn in Hget.
    by rewrite Hget, parallel_group_length in H.
  - intros H k g Hin.
    assert (k ∈ groups.*1) as Hk by (apply list_elem_of_fmap; by exists (k, g)).
    apply Hkeys in Hk as [Hk|(s & Hs & <-)]; [by apply elem_of_nil in Hk|].
    specialize (Hget (group_key s)). rewrite (map_get_of_elem _ _ _ Hnd Hin) in Hget.
    cbn in Hget. rewrite Hget, parallel_group_length. by apply H.
Qed.

Lemma chain_tc (R : relation string) w mid w' :
  chain R (w :: mid ++ [w']) → tc R w w'.
Proof.
  revert w. induction mid as [|x mid IH]; intros w; cbn [app chain].
  - intros [H _]. by apply tc_once.
  - intros [H Hc]. eapply tc_l; [exact H|]. by apply IH.
Qed.

Lemma checkCircularDependencies_Valid steps :
  NoDup (id <$> steps) →
  checkCircularDependencies steps = Some Valid ↔ ¬ has_cycle steps.
Proof.
  intros Hnd. destruct (checkCircularDependencies_spec steps) as (r & Hr & Hpost).
  rewrite Hr. destruct r as [|reason details].
  - split; [|done]. intros _ [a Ha]. apply (Hpost a).
    eapply tc_impl; [|exact Ha]. intros x y. by apply edge_depends.
  - split; [done|]. intros Hno. exfalso. apply Hno.
    destruct Hpost as (_ & c & (pre & w & mid & _ & Hc) & _).
    exists w. eapply tc_impl; [|by apply (chain_tc _ _ mid)].
    intros x y. by apply edge_depends.
Qed.


Lemma validatePlan_Valid_checks plan c :
  (validatePlan plan c).1 = Some Valid
  ↔ Z.of_nat (length (steps (base plan))) ≤ maxSteps (merge_constraints c)
    ∧ (checkParallelism (steps (base plan)) (maxParallelism (merge_constraints c))).1 = Valid
    ∧ checkCircularDependencies (normalize_step <$> steps (base plan)) = Some Valid
    ∧ checkMissingDependencies (normalize_step <$> steps (base plan)) = Valid
    ∧ validate_steps (normalize_step <$> steps (base plan)) (merge_constraints c) = Valid
    ∧ (is_Some (escalationRequests plan) →
       allowEscalationRequests (merge_constraints c) = true).
Proof.
  unfold validatePlan.
  destruct (decide _) as [Hgt|Hle]; cbn [fst].
  { split; [done|]. intros [H _]. lia. }
  pose proof (checkParallelism_steps (steps (base plan))
                (maxParallelism (merge_constraints c))) as Hsteps.
  destruct (checkParallelism _ _) as [pr steps']. cbn [fst snd] in *. subst steps'.
  destruct pr as [|r d]; cbn [fst]; [|split; [done|by intros (_ & ? & _)]].
  destruct (checkCircularDependencies _) as [[|r d]|]; cbn [fst];
    [|split; [done|by intros (_ & _ & ? & _)]..].
  destruct (checkMissingDependencies _) as [|r d]; cbn [fst];
    [|split; [done|by intros (_ & _ & _ & ? & _)]].
  destruct (validate_steps _ _) as [|r d]; cbn [fst];
    [|split; [done|by intros (_ & _ & _ & _ & ? & _)]].
  destruct (escalationRequests plan) as [reqs|].
  - rewrite bool_decide_eq_true_2 by (by eexists). cbn [andb].
    destruct (allowEscalationRequests _); cbn [negb fst].
    + split; [|done]. intros _. repeat (split; [done || lia|]). done.
    + split; [done|]. intros (_ & _ & _ & _ & _ & H).
      assert (false = true) by (apply H; by eexists). done.
  - rewrite bool_decide_eq_false_2 by (by intros [? ?]). cbn [andb fst].
    split; [|done]. intros _. repeat (split; [done || lia|]). by intros [? ?].
Qed.

Lemma has_cycle_normalize steps :
  has_cycle (normalize_step <$> steps) ↔ has_cycle steps.
Proof.
  unfold has_cycle. split; intros [a Ha]; exists a; (eapply tc_impl; [|exact Ha]);
    intros x y; by apply depends_normalize.
Qed.

Lemma step_allowed_normalize cfg s :
  step_allowed cfg (normalize_step s) ↔ step_allowed cfg s.
Proof. done. Qed.

Lemma validatePlan_plan_ok plan c :
  NoDup (id <$> steps (base plan)) →
  (validatePlan plan c).1 = Some Valid ↔ plan_ok plan (merge_constraints c).
Proof.
  intros Hnd. rewrite validatePlan_Valid_checks, checkParallelism_spec.
  rewrite checkCircularDependencies_Valid by (by rewrite normalize_ids).
  rewrite has_cycle_normalize, checkMissingDependencies_spec, validate_steps_spec.
  rewrite normalize_ids. split.
  - intros (H1 & H2 & H3 & H4 & H5 & H6). split; try done.
    + intros s d Hs Hd. apply (H4 (normalize_step s)).
      * apply list_elem_of_fmap. by exists s.
      * cbn. unfold sort_strings. by apply elem_of_sort.
    + intros s Hs. apply (proj1 (step_allowed_normalize _ s)), H5, list_elem_of_fmap.
      by exists s.
  - intros [H1 H2 H3 H4 H5 H6]. repeat (split; [done|]). split; [|split; [|done]].
    + intros s' d [s [-> Hs]]%list_elem_of_fmap Hd. apply (H4 s); [done|].
      cbn in Hd. unfold sort_strings in Hd. by apply elem_of_sort in Hd.
    + intros s' [s [-> Hs]]%list_elem_of_fmap.
      by apply (proj2 (step_allowed_normalize _ s)), H5.
Qed.

Lemma plan_ok_mono plan cfg cfg' :
  constraints_le cfg cfg' → plan_ok plan cfg → plan_ok plan cfg'.
Proof.
  intros (Hs & Hp & Hc & He) [H1 H2 H3 H4 H5 H6]. split; try done.
  - lia.
  - intros s Hs'. specialize (H2 s Hs'). lia.
  - intros s Hs'. destruct (H5 s Hs') as [Hres Hroot]. split; [done|].
    intros Hr. destruct (Hroot Hr). split; by apply Hc.
  - intros H. by apply He, H6.
Qed.

Lemma PRIVILEGE_CAPABILITIES_mono p q :
  priv_lt p q → PRIVILEGE_CAPABILITIES p ⊆ PRIVILEGE_CAPABILITIES q.
Proof.
  intros H c Hc. destruct H; cbn [PRIVILEGE_CAPABILITIES] in *;
    rewrite ?elem_of_cons, ?elem_of_nil in *; intuition (subst; auto).
Qed.

(** X14.  For a plan with distinct step ids, [validatePlan] accepts
    exactly when: the plan has at most [maxSteps] steps; no more than
    [maxParallelism] parallel steps share a dependency key; no step
    depends on itself through a chain of dependencies; every dependency
    names a step of the plan; every residence starts with [Liku/], and
    a residence of root privilege is used only when [escalate] and
    [network_access] are allowed; and escalation requests are present
    only when they are allowed.  It always gives an answer. *)
Theorem validatePlan_accepts_iff (plan : ExtendedPlannerOutput)
    (constraints : PartialPlanConstraints) :
  NoDup (id <$> steps (base plan)) →
  (∃ r, (validatePlan plan constraints).1 = Some r)
  ∧ ((validatePlan plan constraints).1 = Some Valid
     ↔ plan_ok plan (merge_constraints constraints)).
Proof.
  intros Hnd. split; [apply validatePlan_total|by apply validatePlan_plan_ok].
Qed.

Lemma validatePlan_accepts_iff_witness :
  plan_ok Samples.unsorted_plan (merge_constraints no_overrides).
Proof.
  refine (proj1 (proj2 (validatePlan_accepts_iff Samples.unsorted_plan no_overrides _)) _).
  - refine (bool_decide_unpack _ _). vm_compute. exact I.
  - vm_compute. reflexivity.
Defined.

(** X15.  Loosening the constraints never turns an accepted plan into
    a rejected one: a plan accepted under some constraints is accepted
    under any constraints with limits at least as high, at least the
    same allowed capabilities, and escalation requests allowed whenever
    they were. *)
Theorem validatePlan_monotone (plan : ExtendedPlannerOutput)
    (c c' : PartialPlanConstraints) :
  NoDup (id <$> steps (base plan)) →
  constraints_le (merge_constraints c) (merge_constraints c') →
  (validatePlan plan c).1 = Some Valid →
  (validatePlan plan c').1 = Some Valid.
Proof.
  intros Hnd Hle Hv. apply validatePlan_plan_ok; [done|].
  apply (plan_ok_mono plan (merge_constraints c)); [done|].
  by apply validatePlan_plan_ok.
Qed.

Lemma validatePlan_monotone_witness :
  (validatePlan Samples.unsorted_plan
     {| p_maxSteps := Some 30; p_maxParallelism := None; p_allowedCapabilities := None;
        p_allowEscalationRequests := None; p_skillsIndex := None |}).1 = Some Valid.
Proof.
  apply (validatePlan_monotone Samples.unsorted_plan no_overrides).
  - refine (bool_decide_unpack _ _). vm_compute. exact I.
  - split; [cbn; lia|]. split; [cbn; lia|]. split; [done|done].
  - vm_compute. reflexivity.
Defined.

(** X16.  The constraints derived from a privilege level grow with the
    level: a plan accepted under the constraints of a privilege is
    accepted under those of every higher privilege. *)
Theorem validatePlan_privilege_monotone (plan : ExtendedPlannerOutput) (p q : Privilege) :
  NoDup (id <$> steps (base plan)) →
  priv_lt p q →
  (validatePlan plan (as_partial (constraintsFromPrivilege p))).1 = Some Valid →
  (validatePlan plan (as_partial (constraintsFromPrivilege q))).1 = Some Valid.
Proof.
  intros Hnd Hlt Hv. apply validatePlan_plan_ok; [done|].
  apply (plan_ok_mono plan (merge_constraints (as_partial (constraintsFromPrivilege p))));
    [|by apply validatePlan_plan_ok].
  unfold constraints_le, merge_constraints, as_partial, constraintsFromPrivilege.
  cbn [p_maxSteps p_maxParallelism p_allowedCapabilities p_allowEscalationRequests
       maxSteps maxParallelism allowedCapabilities allowEscalationRequests default
       from_option].
  split; [|split; [|split]].
  - destruct Hlt; repeat case_decide; try done; lia.
  - destruct Hlt; repeat case_decide; try done; lia.
  - by apply PRIVILEGE_CAPABILITIES_mono.
  - by destruct Hlt.
Qed.

Lemma validatePlan_privilege_monotone_witness :
  (validatePlan Samples.unsorted_plan (as_partial (constraintsFromPrivilege root))).1
  = Some Valid.
Proof.
  apply (validatePlan_privilege_monotone Samples.unsorted_plan user root).
  - refine (bool_decide_unpack _ _). vm_compute. exact I.
  - constructor.
  - vm_compute. reflexivity.
Defined.

(** X17.  Under the default constraints, whose allowed capabilities are
    those of a specialist, no plan with a step at a residence of root
    privilege is accepted; a step under [Liku/] at a residence of lower
    privilege passes the step check under any constraints. *)
Theorem validatePlan_default_rejects_root_residence (plan : ExtendedPlannerOutput)
    (s : PlanStep) :
  s ∈ steps (base plan) →
  getResidencePrivilege (agentResidence s) = root →
  (validatePlan plan no_overrides).1 ≠ Some Valid
  ∧ ∀ cfg s', startsWith (agentResidence s') "Liku/" = true →
              getResidencePrivilege (agentResidence s') ≠ root →
              validateStep s' cfg = Valid.
Proof.
  intros Hs Hroot. split.
  - intros Hv. apply validatePlan_Valid_checks in Hv as (_ & _ & _ & _ & Hsteps & _).
    rewrite validate_steps_spec in Hsteps.
    destruct (Hsteps (normalize_step s)) as [_ Hcaps].
    { apply list_elem_of_fmap. by exists s. }
    destruct (Hcaps Hroot) as [Hesc _]. revert Hesc.
    cbn. rewrite !elem_of_cons, elem_of_nil. intuition discriminate.
  - intros cfg s' Hres Hpriv. apply validateStep_spec. by split.
Qed.

Lemma validatePlan_default_rejects_root_residence_witness :
  (validatePlan
     (Samples.plan_of
        [{| id := "a"; description := "work"; agentResidence := "Liku/root";
            input := UUndefined; dependsOn := []; parallel := false |}])
     no_overrides).1
  ≠ Some Valid.
Proof.
  refine (proj1 (validatePlan_default_rejects_root_residence
    (Samples.plan_of
       [{| id := "a"; description := "work"; agentResidence := "Liku/root";
           input := UUndefined; dependsOn := []; parallel := false |}])
    {| id := "a"; description := "work"; agentResidence := "Liku/root";
       input := UUndefined; dependsOn := []; parallel := false |} _ _)).
  - by left.
  - vm_compute. reflexivity.
Defined.

End MorePlanFacts.

(** ** Skill files: the trust boundary of the upward walk *)

Section MoreLoaderFacts.
Import Js Skills Loader.

(** X18.  The upward walk stops at the trust root: when the trust root
    is an ancestor of the residence (or the residence itself), the
    files found are exactly the existing [skills.xml] files of the
    directories from the residence up to the trust root, and no file
    above the trust root is read.  When the trust root is not on the
    way up, the walk goes on to the root of the file system. *)
Theorem findSkillsXmlFiles_trust_boundary (fs : FileSystem) (residence trustRoot : Path) :
  (trustRoot `prefix_of` residence →
   ∀ f, f ∈ findSkillsXmlFiles fs residence trustRoot
        ↔ ∃ d, f = d ++ ["skills.xml"] ∧ trustRoot `prefix_of` d
               ∧ d `prefix_of` residence ∧ is_Some (fs f))
  ∧ (¬ trustRoot `prefix_of` residence →
     ∀ f, f ∈ findSkillsXmlFiles fs residence trustRoot
          ↔ ∃ d, f = d ++ ["skills.xml"] ∧ d `prefix_of` residence ∧ is_Some (fs f)).
Proof.
  split; [apply findSkillsXmlFiles_files|]. unfold findSkillsXmlFiles. intros H f.
  rewrite walk_up_unbounded by (by rewrite rev_involutive). by rewrite rev_involutive.
Qed.






(** When the trust root is not on the way up, the index takes in what
    is declared above it: here the residence lies outside the trust
    root, and the skill of a file at the top of the tree is loaded. *)
Lemma loadInheritedSkills_outside_trust_root :
  ∃ index,
    loadInheritedSkills Samples.byte_compare Samples.sample_fs
      ["repo"; "Liku"; "specialist"; "ts"] ["elsewhere"] = Some index
    ∧ id <$> skills index = ["alpha"; "shared_skill"; "zeta"].
Proof. eexists. split; [vm_compute; reflexivity|]. reflexivity. Qed.

(** X20.  The attribute readers of a declaration file recognise
    exactly the known names: [normalizeCapability] returns a
    capability exactly for the string that names it, and
    [normalizePrivilege] maps each privilege name to its privilege and
    everything else to [user], the least privilege. *)
Theorem normalize_attributes_exact :
  (∀ raw c, normalizeCapability raw = Some c ↔ raw = RawString (capability_name c))
  ∧ (∀ p, normalizePrivilege (RawString (privilege_name p)) = p)
  ∧ (∀ raw, normalizePrivilege raw ≠ user →
            raw = RawString (privilege_name (normalizePrivilege raw))).
Proof.
  split; [|split].
  - intros raw c. split.
    + destruct raw as [|s|b|]; cbn [normalizeCapability]; try done.
      intros H. apply List.find_some in H as [_ H]. apply bool_decide_eq_true in H.
      by rewrite H.
    + intros ->. by destruct c.
  - by intros [].
  - intros [|s|b|]; cbn [normalizePrivilege]; try done.
    repeat case_decide; subst; done.
Qed.

End MoreLoaderFacts.

(** ** The escalation check before a step runs *)

Section MoreEscalationFacts.
Import Js Skills Types Orchestrator.

Lemma find_fmap {A B} (f : B → bool) (g : A → B) (l : list A) :
  List.find f (g <$> l) = g <$> List.find (fun a => f (g a)) l.
Proof.
  induction l as [|a l IH]; [done|]. rewrite fmap_cons. cbn [List.find].
  by destruct (f (g a)).
Qed.

Lemma find_first {A} (f : A → bool) (l : list A) :
  match List.find f l with
  | Some x => ∃ pre post, l = pre ++ x :: post ∧ f x = true ∧ ∀ t, t ∈ pre → f t = false
  | None => ∀ t, t ∈ l → f t = false
  end.
Proof.
  induction l as [|a l IH]; cbn [List.find].
  - intros t H. by apply elem_of_nil in H.
  - destruct (f a) eqn:Ha.
    + exists [], l. split; [done|]. split; [done|]. intros t H. by apply elem_of_nil in H.
    + destruct (List.find f l) as [x|].
      * destruct IH as (pre & post & -> & Hx & Hpre). exists (a :: pre), post.
        split; [done|]. split; [done|].
        intros t [->|Ht]%elem_of_cons; [done|by apply Hpre].
      * intros t [->|Ht]%elem_of_cons; [done|by apply IH].
Qed.

Lemma filter_length_0 {A} (f : A → bool) (l : list A) :
  length (List.filter f l) = 0%nat ↔ ∀ t, t ∈ l → f t = false.
Proof.
  induction l as [|a l IH]; cbn [List.filter].
  - split; [|done]. intros _ t H. by apply elem_of_nil in H.
  - destruct (f a) eqn:Ha; cbn [length].
    + split; [done|]. intros H. specialize (H a (list_elem_of_here _ _)). congruence.
    + rewrite IH. split.
      * intros H t [->|Ht]%elem_of_cons; [done|by apply H].
      * intros H t Ht. apply H. by right.
Qed.

Lemma validateSkillsIndex_blocked p acc l :
  blocked (foldl (validateSkillsIndex_step p) acc l)
  = (blocked acc
     + length (List.filter
                 (fun s => match validateSkillExecution s p with
                           | Allowed | MissingCapability _ true => false
                           | _ => true
                           end) l))%nat.
Proof.
  revert acc. induction l as [|s l IH]; intros acc; [cbn; lia|].
  cbn [foldl List.filter]. rewrite IH. unfold validateSkillsIndex_step.
  destruct (validateSkillExecution s p) as [|cap [|]|req cur]; simpl; lia.
Qed.


Lemma find_detail_needs p (l : list LikuSkill) :
  List.find (fun d => match result d with
                      | MissingCapability _ true => true
                      | _ => false
                      end)
            ((fun s => {| skillId := Skills.id s; result := validateSkillExecution s p |})
               <$> l)
  = (fun s => {| skillId := Skills.id s; result := validateSkillExecution s p |})
      <$> List.find (fun s => needs_escalation (validateSkillExecution s p)) l.
Proof. by rewrite find_fmap. Qed.

Lemma find_detail_lacks p (l : list LikuSkill) :
  List.find (fun d => match result d with
                      | InsufficientPrivilege _ _ => true
                      | _ => false
                      end)
            ((fun s => {| skillId := Skills.id s; result := validateSkillExecution s p |})
               <$> l)
  = (fun s => {| skillId := Skills.id s; result := validateSkillExecution s p |})
      <$> List.find (fun s => lacks_privilege (validateSkillExecution s p)) l.
Proof. by rewrite find_fmap. Qed.

(** X21.  What [checkForEscalation] answers for the skills of a bundle
    at the privilege of the step's residence.  It returns nothing
    exactly when every skill is allowed or misses a capability without
    [escalateIfMissing]; a skill of the latter kind never stops the
    step.  Otherwise it reports the first skill that misses a
    capability with [escalateIfMissing], naming the capability, or, if
    there is none, the first skill that needs a higher privilege. *)
Theorem checkForEscalation_spec (bundle : AgentBundle) (step : PlanStep) :
  let p := getResidencePrivilege (agentResidence step) in
  match checkForEscalation bundle step with
  | None =>
      ∀ s, s ∈ bundleSkills bundle →
           validateSkillExecution s p = Allowed
           ∨ ∃ cap, validateSkillExecution s p = MissingCapability cap false
  | Some info =>
      residence info = agentResidence step
      ∧ requestedAction info = description step
      ∧ ∃ pre s post,
          bundleSkills bundle = pre ++ s :: post
          ∧ missingSkill info = Skills.id s
          ∧ ((∃ cap, validateSkillExecution s p = MissingCapability cap true
                     ∧ capability info = Some (capability_name cap)
                     ∧ ∀ t, t ∈ pre →
                            needs_escalation (validateSkillExecution t p) = false)
             ∨ (∃ req cur, validateSkillExecution s p = InsufficientPrivilege req cur
                           ∧ capability info = None
                           ∧ (∀ t, t ∈ bundleSkills bundle →
                                   needs_escalation (validateSkillExecution t p) = false)
                           ∧ ∀ t, t ∈ pre →
                                  lacks_privilege (validateSkillExecution t p) = false))
  end.
Proof.
  cbn zeta. unfold checkForEscalation, validateSkillsIndex. cbn [skills].
  set (p := getResidencePrivilege (agentResidence step)).
  set (init := {| totalSkills := length (bundleSkills bundle); allowed := 0%nat;
                  blocked := 0%nat; escalationRequired := 0%nat; Skills.details := [] |}).
  destruct (validateSkillsIndex_fold p init (bundleSkills bundle)) as (_ & _ & H3 & _ & H5).
  pose proof (validateSkillsIndex_blocked p init (bundleSkills bundle)) as Hb.
  cbn [init escalationRequired blocked Skills.details app Nat.add] in H3, H5, Hb.
  rewrite H3, H5, Hb, find_detail_needs, find_detail_lacks. clear H3 H5 Hb.
  pose proof (find_first (fun s => needs_escalation (validateSkillExecution s p))
                (bundleSkills bundle)) as Hesc.
  pose proof (filter_length_0 (fun s => needs_escalation (validateSkillExecution s p))
                (bundleSkills bundle)) as Hesc0.
  pose proof (find_first (fun s => lacks_privilege (validateSkillExecution s p))
                (bundleSkills bundle)) as Hlack.
  pose proof (filter_length_0
                (fun s => match validateSkillExecution s p with
                          | Allowed | MissingCapability _ true => false
                          | _ => true
                          end) (bundleSkills bundle)) as Hblk0.
  assert (Hrest : (∀ t, t ∈ bundleSkills bundle →
                        needs_escalation (validateSkillExecution t p) = false) →
                  (∀ t, t ∈ bundleSkills bundle →
                        lacks_privilege (validateSkillExecution t p) = false) →
                  ∀ s, s ∈ bundleSkills bundle →
                       validateSkillExecution s p = Allowed
                       ∨ ∃ cap, validateSkillExecution s p = MissingCapability cap false).
  { intros Hn Hl s Hs. specialize (Hn s Hs). specialize (Hl s Hs).
    destruct (validateSkillExecution s p) as [|cap [|]|req cur]; try done; [by left|].
    right. by exists cap. }
  destruct (decide (0 < _)%nat) as [Hpos|Hzero].
  - destruct (List.find (fun s => needs_escalation (validateSkillExecution s p)) _)
      as [s|].
    + destruct Hesc as (pre & post & Hsplit & Hs & Hpre).
      cbn [fmap option_fmap option_map].
      destruct (validateSkillExecution s p) as [|cap [|]|req cur] eqn:Hv; try done.
      cbn [residence requestedAction missingSkill capability].
      split; [done|]. split; [done|]. exists pre, s, post.
      split; [done|]. split; [done|]. left. by exists cap.
    + apply Hesc0 in Hesc. lia.
  - assert (∀ t, t ∈ bundleSkills bundle →
                 needs_escalation (validateSkillExecution t p) = false) as Hnone.
    { apply Hesc0. lia. }
    destruct (decide (0 < _)%nat) as [Hbpos|Hbzero].
    + destruct (List.find (fun s => lacks_privilege (validateSkillExecution s p)) _)
        as [s|].
      * destruct Hlack as (pre & post & Hsplit & Hs & Hpre).
        cbn [fmap option_fmap option_map].
        destruct (validateSkillExecution s p) as [|cap [|]|req cur] eqn:Hv; try done.
        cbn [residence requestedAction missingSkill capability].
        split; [done|]. split; [done|]. exists pre, s, post.
        split; [done|]. split; [done|]. right. by exists req, cur.
      * cbn [fmap option_fmap option_map]. by apply Hrest.
    + apply Hrest; [done|]. intros t Ht.
      assert (length (List.filter
                (fun s => match validateSkillExecution s p with
                          | Allowed | MissingCapability _ true => false
                          | _ => true
                          end) (bundleSkills bundle)) = 0%nat) as H0 by lia.
      pose proof (proj1 Hblk0 H0 t Ht) as H1. cbn beta in H1.
      by destruct (validateSkillExecution t p) as [|cap [|]|req cur].
Qed.

End MoreEscalationFacts.

(** ** The orchestrator: step results and the order of execution *)

Section MoreOrchestratorFacts.
Import Js Skills Types Orchestrator.
Context {Env : Type} (host : Collaborators Env).

Lemma returns_ret {A} (Q : A → Prop) a : Q a → returns Q (ret (Env:=Env) a).
Proof. intros H s. by eexists _, _. Qed.

Lemma returns_bind {A B} (Q : A → Prop) (Q' : B → Prop) (m : M Env A) (k : A → M Env B) :
  returns Q m → (∀ a, Q a → returns Q' (k a)) → returns Q' (bind m k).
Proof.
  intros Hm Hk s. unfold bind. destruct (Hm s) as (a & s1 & -> & Ha).
  by apply Hk.
Qed.

Lemma returns_weaken {A} (Q Q' : A → Prop) (m : M Env A) :
  (∀ a, Q a → Q' a) → returns Q m → returns Q' m.
Proof.
  intros HQ Hm s. destruct (Hm s) as (a & s1 & -> & Ha). eexists _, _. split; [done|].
  by apply HQ.
Qed.

Lemma returns_ask {A} (f : World Env → A) : returns (fun _ => True) (ask f).
Proof. intros s. by eexists _, _. Qed.

Lemma returns_emitEvent options event :
  returns (fun _ => True) (emitEvent (Env:=Env) options event).
Proof.
  intros s. unfold emitEvent. destruct options as [o|]; [|by eexists _, _].
  destruct (negb (onEvent o)); [by eexists _, _|].
  destruct (typeToOption o (event_type event)) as [[[|]|]|]; by eexists _, _.
Qed.

Lemma returns_runStep step config orchestrationStart :
  returns (result_of step) (runStep host step config orchestrationStart).
Proof.
  intros s. unfold runStep, bind, ask, try_catch, call, ret. cbn beta.
  destruct (decide _).
  { eexists _, _. split; [done|]. unfold result_of. cbn. by eauto 10. }
  destruct (host_invokeAgentSafe host _ _ _) as [[[bundle|ms ra res pr|c m d]|e] w].
  - destruct (checkForEscalation bundle step) as [info|].
    + eexists _, _. split; [done|]. unfold result_of. cbn. by eauto 10.
    + cbn [world]. destruct (executeWithLlm config && _).
      * destruct (host_llmGenerate host _ _) as [[out|e] w'].
        -- eexists _, _. split; [done|]. unfold result_of. cbn. by eauto 10.
        -- eexists _, _. split; [done|]. unfold result_of. cbn. by eauto 10.
      * eexists _, _. split; [done|]. unfold result_of. cbn. by eauto 10.
  - eexists _, _. split; [done|]. unfold result_of. cbn. by eauto 10.
  - eexists _, _. split; [done|]. unfold result_of. cbn. by eauto 10.
  - eexists _, _. split; [done|]. unfold result_of. cbn. by eauto 10.
Qed.


Lemma returns_runStepWithEvents step config orchestrationStart taskId eventOptions :
  returns (result_of step)
          (runStepWithEvents host step config orchestrationStart taskId eventOptions).
Proof.
  unfold runStepWithEvents.
  apply (returns_bind (fun _ => True)); [apply returns_ask|]. intros ts0 _.
  apply (returns_bind (fun _ => True)); [apply returns_emitEvent|]. intros _ _.
  apply (returns_bind (result_of step)); [apply returns_runStep|]. intros result Hres.
  apply (returns_bind (fun _ => True)); [apply returns_ask|]. intros ts1 _.
  apply (returns_bind (fun _ => True)); [apply returns_emitEvent|]. intros _ _.
  apply (returns_bind (fun _ => True)); [|intros _ _; by apply returns_ret].
  destruct (status result); try (by apply returns_ret).
  destruct (escalation result); [|by apply returns_ret].
  apply (returns_bind (fun _ => True)); [apply returns_ask|]. intros ts2 _.
  apply returns_emitEvent.
Qed.

Lemma returns_run_sequential sequentialSteps config start taskId eventOptions results completed :
  returns (fun out =>
             ∃ ran rs,
               out.1.1 = results ++ rs
               ∧ stepId <$> rs = id <$> ran
               ∧ out.1.2 = list_to_set (id <$> ran) ∪ completed
               ∧ ran `prefix_of` sequentialSteps
               ∧ (out.2 = false → ran = sequentialSteps)
               ∧ (out.2 = true →
                  abortOnError config = true ∧ ∃ r, r ∈ rs ∧ status r = error)
               ∧ Forall well_formed rs)
          (run_sequential host sequentialSteps config start taskId eventOptions
                          results completed).
Proof.
  revert results completed.
  induction sequentialSteps as [|step rest IH]; intros results completed;
    cbn [run_sequential].
  - apply returns_ret. exists [], []. cbn. rewrite app_nil_r.
    split; [done|]. split; [done|]. split; [set_solver|]. done.
  - apply (returns_bind (result_of step)); [apply returns_runStepWithEvents|].
    intros result Hres. pose proof Hres as (Hid & _). destruct (_ && _) eqn:Habort.
    + apply returns_ret. exists [step], [result]. cbn [fst snd].
      split; [done|]. split; [by rewrite !fmap_cons, Hid|].
      split; [clear; set_solver|]. split; [by apply prefix_cons, prefix_nil|].
      split; [done|]. split; [|apply Forall_singleton; by exists step].
      intros _. apply andb_true_iff in Habort as [He Ha].
      split; [done|]. exists result. split; [by left|]. by apply bool_decide_eq_true in He.
    + eapply returns_weaken; [|apply IH].
      intros [[res comp] ab] (ran & rs & H1 & H2 & H3 & H4 & H5 & H6 & H7).
      cbn [fst snd] in *.
      exists (step :: ran), (result :: rs).
      split; [by rewrite H1, <- app_assoc|].
      split; [by rewrite !fmap_cons, Hid, H2|].
      split; [rewrite H3, fmap_cons; clear; set_solver|].
      split; [by apply prefix_cons|]. split; [intros Hab; by rewrite H5|].
      split; [|apply Forall_cons; split; [by exists step|done]].
      intros Hab. destruct (H6 Hab) as (Ha & r & Hr & He). split; [done|].
      exists r. split; [by right|done].
Qed.

Lemma returns_run_parallel parallelSteps config start taskId eventOptions :
  returns (fun rs => stepId <$> rs = id <$> parallelSteps ∧ Forall well_formed rs)
          (run_parallel host parallelSteps config start taskId eventOptions).
Proof.
  induction parallelSteps as [|step rest IH]; cbn [run_parallel].
  - by apply returns_ret.
  - apply (returns_bind (result_of step)); [apply returns_runStepWithEvents|].
    intros result Hres. pose proof Hres as (Hid & _).
    eapply returns_bind; [apply IH|].
    intros rs [Hrs Hwf]. apply returns_ret. split; [by rewrite !fmap_cons, Hid, Hrs|].
    apply Forall_cons. split; [by exists step|done].
Qed.

(** *** A plan without cycles always has a step that is ready *)

Lemma depends_successors steps a b :
  PlanValidator.depends steps a b ↔ b ∈ successors steps a ∧ b ∈ id <$> steps.
Proof.
  unfold PlanValidator.depends, successors. rewrite list_elem_of_bind.
  setoid_rewrite list_elem_of_filter. split.
  - intros (s & Hs & Hid & Hb & Hin). split; [|done]. by exists s.
  - intros [(s & Hb & Hid & Hs) Hin]. by exists s.
Qed.

Lemma sink_exists steps n :
  (∀ a, ¬ tc (PlanValidator.depends steps) a a) →
  ∀ (U : gset string) u,
    (size U ≤ n)%nat → u ∈ U →
    ∃ w, w ∈ U ∧ rtc (PlanValidator.depends steps) u w
         ∧ ∀ z, z ∈ U → ¬ PlanValidator.depends steps w z.
Proof.
  intros Hac. induction n as [|n IH]; intros U u Hsize Hu.
  { assert (size U ≠ 0)%nat; [|lia]. apply size_non_empty_iff. set_solver. }
  destruct (decide (Exists (fun z => z ∈ U ∧ z ∈ id <$> steps) (successors steps u)))
    as [Hex|Hnone].
  - apply Exists_exists in Hex as (z & Hz & HzU & Hzid).
    assert (PlanValidator.depends steps u z) as Huz by (by apply depends_successors).
    assert (z ≠ u) as Hne by (intros ->; by apply (Hac u), tc_once).
    destruct (IH (U ∖ {[u]}) z) as (w & Hw & Hzw & Hsink).
    { assert (size U = size ({[u]} ∪ U ∖ {[u]} : gset string)) as Heq.
      { f_equal. apply set_eq. intros x. rewrite elem_of_union, elem_of_difference,
          elem_of_singleton. destruct (decide (x = u)) as [->|]; tauto. }
      rewrite size_union, size_singleton in Heq by set_solver. lia. }
    { set_solver. }
    exists w. split; [set_solver|]. split; [by eapply rtc_l|].
    intros z' Hz' Hwz'. destruct (decide (z' = u)) as [->|Hne'].
    + apply (Hac u). eapply tc_rtc_r; [|by apply rtc_once].
      eapply tc_rtc_r; [by apply tc_once|done].
    + apply (Hsink z'); [set_solver|done].
  - exists u. split; [done|]. split; [done|]. intros z Hz Huz. apply Hnone.
    apply depends_successors in Huz as [H1 H2]. apply Exists_exists. by exists z.
Qed.

Lemma NoDup_fmap_elem_inj {A B} (f : A → B) (l : list A) x y :
  NoDup (f <$> l) → x ∈ l → y ∈ l → f x = f y → x = y.
Proof.
  induction l as [|a l IH]; rewrite ?fmap_cons; [by intros _ ?%elem_of_nil|].
  intros [Ha Hnd]%NoDup_cons [->|Hx]%elem_of_cons [->|Hy]%elem_of_cons Heq.
  - done.
  - destruct Ha. rewrite Heq. apply list_elem_of_fmap. by exists y.
  - destruct Ha. rewrite <- Heq. apply list_elem_of_fmap. by exists x.
  - by apply IH.
Qed.

Lemma exists_ready steps (completed : gset string) :
  NoDup (id <$> steps) →
  (∀ s d, s ∈ steps → d ∈ dependsOn s → d ∈ id <$> steps) →
  ¬ PlanValidator.has_cycle steps →
  completed ⊆ list_to_set (id <$> steps) →
  (size completed < length steps)%nat →
  readySteps steps completed ≠ [].
Proof.
  intros Hnd Hdeps Hac Hsub Hlt Hempty.
  set (ids := list_to_set (id <$> steps) : gset string) in *.
  assert (size ids = length steps) as Hsize.
  { unfold ids. by rewrite size_list_to_set, length_fmap. }
  assert (∃ u, u ∈ ids ∖ completed) as [u Hu].
  { apply set_choose, size_non_empty_iff.
    assert (size ids = size (completed ∪ ids ∖ completed)) as Heq.
    { f_equal. apply set_eq. intros x. rewrite elem_of_union, elem_of_difference.
      destruct (decide (x ∈ completed)); set_solver. }
    rewrite size_union in Heq by set_solver. lia. }
  destruct (sink_exists steps (size (ids ∖ completed))
              (fun a H => Hac (ex_intro _ a H)) (ids ∖ completed) u)
    as (w & Hw & _ & Hsink); [done|done|].
  apply elem_of_difference in Hw as [Hwid Hwc].
  apply elem_of_list_to_set, list_elem_of_fmap in Hwid as (st & -> & Hst).
  assert (st ∈ readySteps steps completed) as Hready; [|rewrite Hempty in Hready;
    by apply elem_of_nil in Hready].
  apply list_elem_of_filter. split; [|done]. split; [done|].
  apply Forall_forall. intros d Hd.
  destruct (decide (d ∈ completed)) as [|Hdc]; [done|]. exfalso.
  apply (Hsink d).
  - apply elem_of_difference. split; [|done].
    apply elem_of_list_to_set. by apply (Hdeps st).
  - exists st. split; [done|]. split; [done|]. split; [done|]. by apply (Hdeps st).
Qed.


(** *** The scheduling loop *)

Lemma readySteps_elem steps completed b :
  b ∈ readySteps steps completed →
  b ∈ steps ∧ (id b ∉ completed) ∧ ∀ d, d ∈ dependsOn b → d ∈ completed.
Proof.
  unfold readySteps. rewrite list_elem_of_filter. intros [[H1 H2] H3].
  split; [done|]. split; [done|]. by apply Forall_forall.
Qed.

Lemma schedule_extend steps (completed : gset string) ran new :
  NoDup (id <$> steps) →
  completed = list_to_set ran → NoDup ran → ran ⊆ id <$> steps → dep_ordered steps ran →
  NoDup (id <$> new) → (∀ b, b ∈ new → b ∈ readySteps steps completed) →
  list_to_set (id <$> new) ∪ completed = (list_to_set (ran ++ (id <$> new)) : gset string)
  ∧ NoDup (ran ++ (id <$> new))
  ∧ ran ++ (id <$> new) ⊆ id <$> steps
  ∧ dep_ordered steps (ran ++ (id <$> new)).
Proof.
  intros Hnd -> Hran Hsub Hord Hnew Hready.
  split; [rewrite list_to_set_app_L; set_solver|]. split; [|split].
  - apply NoDup_app. split; [done|]. split; [|done].
    intros x Hx (b & -> & Hb)%list_elem_of_fmap.
    apply Hready, readySteps_elem in Hb as (_ & Hb & _). apply Hb.
    by apply elem_of_list_to_set.
  - intros x [Hx|(b & -> & Hb)%list_elem_of_fmap]%elem_of_app; [by apply Hsub|].
    apply Hready, readySteps_elem in Hb as (Hb & _). apply list_elem_of_fmap. by exists b.
  - intros pre x post st d Hsplit Hst Hid Hd.
    assert (∀ l, id <$> new = l ++ x :: post → d ∈ ran) as Hlate.
    { intros l Hl.
      assert (x ∈ id <$> new) as (b & Hxb & Hb)%list_elem_of_fmap.
      { rewrite Hl. apply elem_of_app. right. by left. }
      apply Hready, readySteps_elem in Hb as (Hbs & _ & Hdeps).
      assert (st = b) as ->.
      { apply (NoDup_fmap_elem_inj id steps); [done..|congruence]. }
      by apply (proj1 (elem_of_list_to_set (C:=gset string) d ran)), Hdeps. }
    apply app_eq_app in Hsplit as [l [[H1 H2]|[H1 H2]]].
    + destruct l as [|y l].
      * rewrite app_nil_r in H1. subst pre. apply (Hlate []). cbn in H2. by rewrite H2.
      * injection H2 as <- H2. by apply (Hord pre x l st d).
    + subst pre. apply elem_of_app. left. by apply (Hlate l).
Qed.

Lemma filter_parallel_perm (batch : list PlanStep) :
  filter (fun s => parallel s = false) batch ++ filter (fun s => parallel s = true) batch
  ≡ₚ batch.
Proof.
  induction batch as [|b batch IH]; [done|]. rewrite !filter_cons.
  destruct (parallel b); cbn.
  - rewrite decide_False, decide_True by done. by rewrite <- Permutation_middle, IH.
  - rewrite decide_True, decide_False by done. cbn. by rewrite IH.
Qed.

Lemma readySteps_NoDup steps completed :
  NoDup (id <$> steps) → NoDup (id <$> readySteps steps completed).
Proof.
  intros Hnd. eapply sublist_NoDup; [exact Hnd|].
  apply fmap_sublist, sublist_filter.
Qed.

Lemma returns_schedule fuel steps config start taskId eventOptions results completed :
  NoDup (id <$> steps) →
  completed = list_to_set (stepId <$> results) →
  NoDup (stepId <$> results) →
  stepId <$> results ⊆ id <$> steps →
  dep_ordered steps (stepId <$> results) →
  (length steps - size completed < fuel)%nat →
  returns (fun out =>
             NoDup (stepId <$> out)
             ∧ stepId <$> out ⊆ id <$> steps
             ∧ dep_ordered steps (stepId <$> out)
             ∧ ((∀ s d, s ∈ steps → d ∈ dependsOn s → d ∈ id <$> steps) →
                ¬ PlanValidator.has_cycle steps →
                stepId <$> out ≡ₚ id <$> steps
                ∨ (abortOnError config = true ∧ ∃ r, r ∈ out ∧ status r = error)))
          (schedule host fuel steps config start taskId eventOptions results completed).
Proof.
  intros Hnd. revert results completed.
  induction fuel as [|fuel IH]; intros results completed Hc Hran Hsub Hord Hfuel;
    [lia|]. cbn [schedule].
  assert (size completed = length results) as Hsize.
  { by rewrite Hc, size_list_to_set, length_fmap. }
  destruct (decide (size completed < length steps)%nat) as [Hlt|Hge].
  2:{ apply returns_ret. repeat (split; [done|]). intros _ _. left.
      apply submseteq_length_Permutation; [by apply NoDup_submseteq|].
      rewrite !length_fmap. lia. }
  destruct (readySteps steps completed) as [|s0 batch'] eqn:Hbatch.
  { apply returns_ret. repeat (split; [done|]). intros Hdeps Hac. exfalso.
    apply (exists_ready steps completed); try done.
    rewrite Hc. intros x Hx%elem_of_list_to_set. apply elem_of_list_to_set. by apply Hsub. }
  set (batch := s0 :: batch') in *.
  assert (NoDup (id <$> batch)) as Hbnd.
  { rewrite <- Hbatch. by apply readySteps_NoDup. }
  assert (NoDup (id <$> (filter (fun s => parallel s = false) batch
                         ++ filter (fun s => parallel s = true) batch))) as Hallnd.
  { by rewrite filter_parallel_perm. }
  eapply returns_bind; [apply returns_run_sequential|].
  intros [[results1 completed1] aborted] (ran & rs & H1 & H2 & H3 & H4 & H5 & H6 & _).
  cbn [fst snd] in *. subst results1.
  assert (∀ b, b ∈ ran → b ∈ readySteps steps completed) as Hranready.
  { intros b Hb. rewrite Hbatch. destruct H4 as [k Hk].
    assert (b ∈ filter (fun s => parallel s = false) batch) as Hin.
    { rewrite Hk. apply elem_of_app. by left. }
    by apply list_elem_of_filter in Hin as [_ Hin]. }
  assert (NoDup (id <$> ran)) as Hrannd.
  { destruct H4 as [k Hk]. rewrite Hk, !fmap_app in Hallnd.
    by apply NoDup_app in Hallnd as [[Hn _]%NoDup_app _]. }
  destruct (schedule_extend steps completed (stepId <$> results) ran Hnd Hc Hran Hsub Hord
              Hrannd Hranready) as (E1 & E2 & E3 & E4).
  rewrite <- H2, <- fmap_app in E1, E2, E3, E4. rewrite <- H2 in H3.
  destruct aborted.
  { apply returns_ret. repeat (split; [done|]). intros _ _. right.
    destruct (H6 eq_refl) as (Ha & r & Hr & He). split; [done|].
    exists r. split; [|done]. apply elem_of_app. by right. }
  specialize (H5 eq_refl). subst ran.
  destruct (filter (fun s => parallel s = true) batch) as [|p0 par'] eqn:Hpar.
  - assert (id s0 ∈ completed1) as Hs0.
    { rewrite H3, H2. apply elem_of_union. left. apply elem_of_list_to_set.
      apply list_elem_of_fmap. exists s0. split; [done|].
      pose proof (filter_parallel_perm batch) as Hp. rewrite Hpar, app_nil_r in Hp.
      rewrite Hp. by left. }
    assert (id s0 ∉ completed) as Hfresh.
    { apply (readySteps_fresh steps). rewrite Hbatch. by left. }
    assert (size completed < size completed1)%nat as Hgrow.
    { apply (size_grows _ _ (id s0)); [done|done|]. rewrite H3. set_solver. }
    apply IH; try done; [by rewrite H3, E1|lia].
  - set (par := p0 :: par') in *.
    eapply returns_bind; [apply returns_run_parallel|].
    intros prs [Hprs _]. cbn beta.
    assert (∀ b, b ∈ filter (fun s => parallel s = false) batch ++ par →
                 b ∈ readySteps steps completed) as Hallready.
    { intros b Hb. rewrite Hbatch. rewrite <- Hpar in Hb.
      apply elem_of_app in Hb as [Hb|Hb]; by apply list_elem_of_filter in Hb as [_ Hb]. }
    destruct (schedule_extend steps completed (stepId <$> results)
                (filter (fun s => parallel s = false) batch ++ par) Hnd Hc Hran Hsub Hord
                Hallnd Hallready) as (F1 & F2 & F3 & F4).
    rewrite fmap_app, <- H2, <- Hprs, app_assoc, <- !fmap_app in F1, F2, F3, F4.
    destruct (abortOnError config && _) eqn:Hab.
    { apply returns_ret. repeat (split; [done|]). intros _ _. right.
      apply andb_true_iff in Hab as [Ha He]. split; [done|].
      apply existsb_exists in He as (r & Hr & He). exists r.
      split; [|by apply bool_decide_eq_true in He].
      apply elem_of_app. right. by apply list_elem_of_In. }
    assert (id p0 ∉ completed) as Hfresh.
    { assert (p0 ∈ readySteps steps completed) as Hp0.
      { apply Hallready. apply elem_of_app. right. by left. }
      by apply readySteps_elem in Hp0 as (_ & ? & _). }
    assert (size completed
            < size (list_to_set (id <$> par) ∪ completed1 : gset string))%nat as Hgrow.
    { apply (size_grows _ _ (id p0)); [done| |rewrite H3; set_solver].
      apply elem_of_union. left. apply elem_of_list_to_set.
      apply list_elem_of_fmap. exists p0. split; [done|by left]. }
    apply IH; try done; [|lia].
    rewrite !fmap_app, !list_to_set_app_L, H3, Hc, <- Hprs. set_solver.
Qed.


Lemma validatePlan_Valid_steps plan c :
  (PlanValidator.validatePlan plan c).1 = Some PlanValidator.Valid →
  steps (PlanValidator.base (PlanValidator.validatePlan plan c).2)
  = PlanValidator.normalize_step <$> steps (PlanValidator.base plan).
Proof.
  unfold PlanValidator.validatePlan. destruct (decide _); [done|]. intros _.
  pose proof (checkParallelism_steps (steps (PlanValidator.base plan))
                (PlanValidator.maxParallelism (PlanValidator.merge_constraints c)))
    as Hsteps.
  destruct (PlanValidator.checkParallelism _ _) as [pr steps']. cbn [snd] in Hsteps.
  subst steps'. destruct pr; [|done].
  destruct (PlanValidator.checkCircularDependencies _) as [[|]|]; try done.
  destruct (PlanValidator.checkMissingDependencies _); [|done].
  destruct (PlanValidator.validate_steps _ _); [|done].
  by destruct (_ && _).
Qed.

(** X22.  [runStep] always hands back a result, whatever the engine
    and the LLM client answer or throw: it is the result of the given
    step, its status is success, escalated or error, and it carries
    exactly the field that goes with its status.  Events and the
    collected results are untouched.  When the total time-out has
    passed, the engine is not called at all: the world is unchanged
    and the result is the INTERNAL time-out error. *)
Theorem runStep_result (step : PlanStep) (config : OrchestrationConfig)
    (orchestrationStart : Z) (s : St Env) :
  ∃ r s',
    runStep host step config orchestrationStart s = Ret r s'
    ∧ result_of step r
    ∧ delivered s' = delivered s
    ∧ collected s' = collected s
    ∧ (host_dateNow host (world s) - orchestrationStart > totalTimeoutMs config →
       s' = s
       ∧ ∃ duration,
           r = error_step step
                 {| code := INTERNAL; message := "Orchestration timeout exceeded";
                    details := UUndefined |} duration).
Proof.
  unfold runStep, bind, ask, try_catch, call, ret. cbn beta.
  destruct (decide _) as [Hlate|Hok].
  { eexists _, _. split; [done|]. split; [unfold result_of; cbn; by eauto 10|].
    split; [done|]. split; [done|]. intros _. split; [done|]. by eexists. }
  destruct (host_invokeAgentSafe host _ _ _) as [[[bundle|ms ra res pr|c m d]|e] w].
  - destruct (checkForEscalation bundle step) as [info|].
    + eexists _, _. split; [done|]. split; [unfold result_of; cbn; by eauto 10|]. done.
    + cbn [world]. destruct (executeWithLlm config && _).
      * destruct (host_llmGenerate host _ _) as [[out|e] w'];
          (eexists _, _; split; [done|]; split; [unfold result_of; cbn; by eauto 10|]; done).
      * eexists _, _. split; [done|]. split; [unfold result_of; cbn; by eauto 10|]. done.
  - eexists _, _. split; [done|]. split; [unfold result_of; cbn; by eauto 10|]. done.
  - eexists _, _. split; [done|]. split; [unfold result_of; cbn; by eauto 10|]. done.
  - eexists _, _. split; [done|]. split; [unfold result_of; cbn; by eauto 10|]. done.
Qed.

(** X23.  [executeStepsWithEvents] on a plan with distinct step ids
    always returns; no step is run twice, only steps of the plan are
    run, and the order of the results respects the dependencies:
    whenever a step was run, every step it depends on had been run
    before it. *)
Theorem executeSteps_dependency_order (steps : list PlanStep)
    (config : OrchestrationConfig) (orchestrationStart : Z) (taskId : string)
    (eventOptions : option OrchestrationEventOptions) (s : St Env) :
  NoDup (id <$> steps) →
  ∃ results s',
    executeStepsWithEvents host steps config orchestrationStart taskId eventOptions s
    = Ret results s'
    ∧ NoDup (stepId <$> results)
    ∧ stepId <$> results ⊆ id <$> steps
    ∧ dep_ordered steps (stepId <$> results).
Proof.
  intros Hnd. unfold executeStepsWithEvents.
  assert (dep_ordered steps (stepId <$> [])) as Hord.
  { intros pre x post st d Hsplit. by destruct pre. }
  assert (stepId <$> [] ⊆ id <$> steps) as Hsub.
  { intros x Hx. by apply elem_of_nil in Hx. }
  destruct (returns_schedule (S (length steps)) steps config orchestrationStart taskId
              eventOptions [] ∅ Hnd eq_refl (NoDup_nil_2 (A:=string)) Hsub Hord
              ltac:(rewrite size_empty; lia) s)
    as (results & s' & Hrun & H1 & H2 & H3 & _).
  by exists results, s'.
Qed.

(** X24.  A plan whose steps have distinct ids and that [validatePlan]
    accepts can be carried out: run on the validated steps,
    [executeStepsWithEvents] never stops for want of a ready step.  It
    runs every step exactly once, in an order that respects the
    dependencies, unless [abortOnError] is set and a step has ended in
    error.  ([validatePlan] does not check that the ids are distinct,
    and without that the run can stop early: see
    [duplicate_ids_run_stops_early].) *)
Theorem valid_plan_runs_every_step (plan : PlanValidator.ExtendedPlannerOutput)
    (constraints : PlanValidator.PartialPlanConstraints)
    (config : OrchestrationConfig) (orchestrationStart : Z) (taskId : string)
    (eventOptions : option OrchestrationEventOptions) (s : St Env) :
  NoDup (id <$> steps (PlanValidator.base plan)) →
  (PlanValidator.validatePlan plan constraints).1 = Some PlanValidator.Valid →
  let validated :=
    steps (PlanValidator.base (PlanValidator.validatePlan plan constraints).2) in
  ∃ results s',
    executeStepsWithEvents host validated config orchestrationStart taskId eventOptions s
    = Ret results s'
    ∧ NoDup (stepId <$> results)
    ∧ dep_ordered validated (stepId <$> results)
    ∧ (stepId <$> results ≡ₚ id <$> steps (PlanValidator.base plan)
       ∨ (abortOnError config = true ∧ ∃ r, r ∈ results ∧ status r = error)).
Proof.
  intros Hnd Hv validated.
  assert (validated = PlanValidator.normalize_step <$> steps (PlanValidator.base plan))
    as Hval by (by apply validatePlan_Valid_steps).
  apply validatePlan_plan_ok in Hv as [_ _ Hac Hdeps _ _]; [|done].
  assert (NoDup (id <$> validated)) as Hnd' by (by rewrite Hval, normalize_ids).
  unfold executeStepsWithEvents.
  assert (dep_ordered validated (stepId <$> [])) as Hord.
  { intros pre x post st d Hsplit. by destruct pre. }
  assert (stepId <$> [] ⊆ id <$> validated) as Hsub.
  { intros x Hx. by apply elem_of_nil in Hx. }
  destruct (returns_schedule (S (length validated)) validated config orchestrationStart
              taskId eventOptions [] ∅ Hnd' eq_refl (NoDup_nil_2 (A:=string)) Hsub Hord
              ltac:(rewrite size_empty; lia) s)
    as (results & s' & Hrun & H1 & H2 & H3 & H4).
  exists results, s'. split; [done|]. split; [done|]. split; [done|].
  rewrite <- (normalize_ids (steps (PlanValidator.base plan))), <- Hval. apply H4.
  - rewrite Hval, normalize_ids.
    intros st d [st0 [-> Hst0]]%list_elem_of_fmap Hd. apply (Hdeps st0); [done|].
    cbn in Hd. unfold PlanValidator.sort_strings in Hd. by apply elem_of_sort in Hd.
  - rewrite Hval. by rewrite has_cycle_normalize.
Qed.


(** *** The outcome of a run *)

Lemma returns_schedule_wf fuel steps config start taskId eventOptions results completed :
  Forall well_formed results →
  (length steps - size completed < fuel)%nat →
  returns (Forall well_formed)
          (schedule host fuel steps config start taskId eventOptions results completed).
Proof.
  revert results completed.
  induction fuel as [|fuel IH]; intros results completed Hwf Hfuel; [lia|].
  cbn [schedule].
  destruct (decide (size completed < length steps)%nat) as [Hlt|]; [|by apply returns_ret].
  destruct (readySteps steps completed) as [|s0 batch'] eqn:Hbatch; [by apply returns_ret|].
  set (batch := s0 :: batch') in *.
  assert (Hfresh : id s0 ∉ completed).
  { apply (readySteps_fresh steps). rewrite Hbatch. by left. }
  eapply returns_bind; [apply returns_run_sequential|].
  intros [[results1 completed1] aborted] (ran & rs & H1 & H2 & H3 & H4 & H5 & H6 & H7).
  cbn [fst snd] in *. subst results1.
  assert (Forall well_formed (results ++ rs)) as Hwf1 by (by apply Forall_app).
  destruct aborted; [by apply returns_ret|]. specialize (H5 eq_refl). subst ran.
  assert (Hs0 : parallel s0 = false ∧ id s0 ∈ completed1
                ∨ s0 ∈ filter (fun s => parallel s = true) batch).
  { destruct (parallel s0) eqn:Hp.
    - right. apply list_elem_of_filter. split; [done|]. by left.
    - left. split; [done|]. rewrite H3. apply elem_of_union_l, elem_of_list_to_set.
      apply list_elem_of_fmap. exists s0. split; [done|].
      apply list_elem_of_filter. split; [done|]. by left. }
  assert (Hsub : completed ⊆ completed1) by (rewrite H3; set_solver).
  destruct (filter (fun s => parallel s = true) batch) as [|p0 prest] eqn:Hpar.
  - apply IH; [done|]. destruct Hs0 as [[_ Hin]|Hin]; [|by apply elem_of_nil in Hin].
    pose proof (size_grows completed completed1 (id s0) Hfresh Hin Hsub). lia.
  - eapply returns_bind; [apply returns_run_parallel|]. intros prs [_ Hpwf]. cbn beta.
    assert (Forall well_formed ((results ++ rs) ++ prs)) as Hwf2 by (by apply Forall_app).
    destruct (_ && _); [by apply returns_ret|].
    apply IH; [done|].
    assert (id s0 ∈ list_to_set (id <$> p0 :: prest) ∪ completed1) as Hin.
    { destruct Hs0 as [[_ Hin]|Hin]; [set_solver|].
      apply elem_of_union_l, elem_of_list_to_set, list_elem_of_fmap. by exists s0. }
    assert (completed ⊆ list_to_set (id <$> p0 :: prest) ∪ completed1) as Hsub2
      by set_solver.
    pose proof (size_grows completed _ (id s0) Hfresh Hin Hsub2). lia.
Qed.

Lemma returns_executeStepsWithEvents steps config start taskId eventOptions :
  returns (Forall well_formed)
          (executeStepsWithEvents host steps config start taskId eventOptions).
Proof.
  unfold executeStepsWithEvents. apply returns_schedule_wf; [constructor|]. lia.
Qed.

Lemma returns_finishRun taskId eventOptions startTime steps result :
  returns (fun r => r = result)
          (finishRun host taskId eventOptions startTime steps result).
Proof.
  intros s. destruct (finishRun_returns host taskId eventOptions startTime steps result s)
    as [s' ->]. by eexists _, _.
Qed.

Lemma filter_head_elem {A} (P : A → Prop) `{∀ x, Decision (P x)} (l : list A) x rest :
  filter P l = x :: rest → x ∈ l ∧ P x.
Proof.
  intros Hf. assert (x ∈ filter P l) as Hx by (rewrite Hf; by left).
  by apply list_elem_of_filter in Hx as [? ?].
Qed.

(** X25.  After the plan steps have run, the run always ends with a
    result, and its kind follows from the step results: escalation if
    any step escalated, whatever errors there were; otherwise error if
    a step failed and [abortOnError] is set, partial if a step failed
    and it is not set; ok if no step failed or escalated.  Building the
    error result never fails for want of the failed step's error. *)
Theorem run_plan_kind (p : PlannerOutput) (config : OrchestrationConfig)
    (startTime : Z) (taskId : string)
    (eventOptions : option OrchestrationEventOptions) (s : St Env) :
  ∃ results s1 result s2,
    executeStepsWithEvents host (steps p) config startTime taskId eventOptions s
    = Ret results s1
    ∧ run_plan host (PlanValue p) config startTime taskId eventOptions s = Ret result s2
    ∧ ((∃ r, r ∈ results ∧ status r = escalated) → kind result = escalation_kind)
    ∧ ((∀ r, r ∈ results → status r ≠ escalated) →
       (∃ r, r ∈ results ∧ status r = error) →
       kind result = if abortOnError config then error_kind else partial)
    ∧ ((∀ r, r ∈ results → status r ≠ escalated ∧ status r ≠ error) →
       kind result = ok).
Proof.
  destruct (returns_executeStepsWithEvents (steps p) config startTime taskId eventOptions s)
    as (results & s1 & Hrun & Hwf).
  exists results, s1. unfold run_plan, bind. rewrite Hrun. cbn [push_steps].
  set (s1' := {| world := world s1; delivered := delivered s1;
                 collected := collected s1 ++ results |}).
  destruct (filter (fun r => status r = escalated) results) as [|e0 erest] eqn:Hesc.
  - assert (∀ r, r ∈ results → status r ≠ escalated) as Hnoesc.
    { intros r Hr He. by apply (filter_nil_not_elem_of _ _ r Hesc). }
    destruct (filter (fun r => status r = error) results) as [|f0 frest] eqn:Hfail.
    + assert (∀ r, r ∈ results → status r ≠ error) as Hnoerr.
      { intros r Hr He. by apply (filter_nil_not_elem_of _ _ r Hfail). }
      match goal with |- context [runStepWithEvents host ?st _ _ _ _ s1'] =>
        destruct (returns_runStepWithEvents st config startTime taskId eventOptions s1')
          as (synth & s2 & -> & _) end.
      cbn [push_steps get_steps].
      match goal with |- context [finishRun host ?a ?b ?c ?d ?e ?st] =>
        destruct (returns_finishRun a b c d e st) as (result & s3 & -> & ->) end.
      eexists _, _. split; [done|]. split; [done|]. split; [|split].
      * intros (r & Hr & He). by destruct (Hnoesc r Hr).
      * intros _ (r & Hr & He). by destruct (Hnoerr r Hr).
      * done.
    + destruct (filter_head_elem _ _ _ _ Hfail) as [Hf0 Hf0err].
      destruct (abortOnError config) eqn:Habort.
      * cbn [get_steps]. unfold errorResult.
        assert (is_Some (stepError f0)) as [err Herr].
        { rewrite Forall_forall in Hwf. destruct (Hwf f0 Hf0) as (st & _ & _ & Hst).
          rewrite Hf0err in Hst. tauto. }
        rewrite Herr. cbn [ret].
        match goal with |- context [finishRun host ?a ?b ?c ?d ?e ?st] =>
          destruct (returns_finishRun a b c d e st) as (result & s3 & -> & ->) end.
        eexists _, _. split; [done|]. split; [done|]. split; [|split].
        -- intros (r & Hr & He). by destruct (Hnoesc r Hr).
        -- done.
        -- intros H. by destruct (H f0 Hf0).
      * match goal with |- context [runStepWithEvents host ?st _ _ _ _ s1'] =>
          destruct (returns_runStepWithEvents st config startTime taskId eventOptions s1')
            as (synth & s2 & -> & _) end.
        cbn [push_steps get_steps].
        match goal with |- context [finishRun host ?a ?b ?c ?d ?e ?st] =>
          destruct (returns_finishRun a b c d e st) as (result & s3 & -> & ->) end.
        eexists _, _. split; [done|]. split; [done|]. split; [|split].
        -- intros (r & Hr & He). by destruct (Hnoesc r Hr).
        -- done.
        -- intros H. by destruct (H f0 Hf0).
  - destruct (filter_head_elem _ _ _ _ Hesc) as [He0 He0esc].
    cbn [get_steps].
    match goal with |- context [finishRun host ?a ?b ?c ?d ?e ?st] =>
      destruct (returns_finishRun a b c d e st) as (result & s3 & -> & ->) end.
    eexists _, _. split; [done|]. split; [done|]. split; [done|]. split.
    + intros H. by destruct (H e0 He0).
    + intros H. by destruct (H e0 He0).
Qed.

End MoreOrchestratorFacts.

Section MoreOrchestratorExamples.
Import Js Skills Types Orchestrator.

Lemma executeSteps_dependency_order_witness :
  ∃ results s',
    executeStepsWithEvents (Samples.mock_host Samples.parser_escalates)
      (steps (PlanValidator.base Samples.unsorted_plan))
      {| maxConcurrency := 5; stepTimeoutMs := 60000; totalTimeoutMs := 300000;
         executeWithLlm := false; abortOnError := true; abortSignal := None |}
      0 "task-1" None Samples.initial_state
    = Ret results s'
    ∧ NoDup (stepId <$> results)
    ∧ stepId <$> results ⊆ id <$> steps (PlanValidator.base Samples.unsorted_plan)
    ∧ dep_ordered (steps (PlanValidator.base Samples.unsorted_plan)) (stepId <$> results).
Proof.
  apply executeSteps_dependency_order.
  refine (bool_decide_unpack _ _). vm_compute. exact I.
Defined.

Lemma valid_plan_runs_every_step_witness :
  let validated :=
    steps (PlanValidator.base
             (PlanValidator.validatePlan Samples.unsorted_plan
                PlanValidator.no_overrides).2) in
  ∃ results s',
    executeStepsWithEvents (Samples.mock_host Samples.parser_escalates) validated
      {| maxConcurrency := 5; stepTimeoutMs := 60000; totalTimeoutMs := 300000;
         executeWithLlm := false; abortOnError := true; abortSignal := None |}
      0 "task-1" None Samples.initial_state
    = Ret results s'
    ∧ NoDup (stepId <$> results)
    ∧ dep_ordered validated (stepId <$> results)
    ∧ (stepId <$> results ≡ₚ id <$> steps (PlanValidator.base Samples.unsorted_plan)
       ∨ (true = true ∧ ∃ r, r ∈ results ∧ status r = error)).
Proof.
  apply (valid_plan_runs_every_step (Samples.mock_host Samples.parser_escalates)
           Samples.unsorted_plan PlanValidator.no_overrides).
  - refine (bool_decide_unpack _ _). vm_compute. exact I.
  - vm_compute. reflexivity.
Defined.

(** [validatePlan] accepts a plan in which two steps share an id; the
    run of its two steps ends after one of them, as the other is never
    ready. *)
Lemma duplicate_ids_run_stops_early :
  let validation :=
    PlanValidator.validatePlan Samples.duplicate_id_plan PlanValidator.no_overrides in
  let validated := steps (PlanValidator.base validation.2) in
  validation.1 = Some PlanValidator.Valid
  ∧ id <$> validated = ["a"; "a"]
  ∧ ∃ results s',
      executeStepsWithEvents (Samples.mock_host Samples.parser_escalates) validated
        {| maxConcurrency := 5; stepTimeoutMs := 60000; totalTimeoutMs := 300000;
           executeWithLlm := false; abortOnError := false; abortSignal := None |}
        0 "task-1" None Samples.initial_state
      = Ret results s'
      ∧ stepId <$> results = ["a"].
Proof.
  split; [vm_compute; reflexivity|]. split; [vm_compute; reflexivity|].
  eexists _, _. split; [vm_compute; reflexivity|]. reflexivity.
Qed.

End MoreOrchestratorExamples.
